(** * socialmediabot: the mirror fetcher, the search aggregator, the monitor
    state store, the monitor engine and the scheduler

    A shallow embedding of [nitterSearch.ts] (fetchHtmlWithFallback,
    extractTweetsFromHtml, searchNitterGlobal), of [worker.ts] (loadState,
    processMonitor, runMonitors, run) and of the [postToDiscord] of
    [discord.ts] that worker.ts imports, with the properties the
    specification states about them; and of the filters of [index.ts], of
    [enrichment.ts] and of [vipTracker.ts], with properties of their own.

    Conventions of the embedding.
    - A JavaScript string is the sequence of its code units; the strings of
      the model are those whose code units are below 256, so [String.length],
      [substring] and the searches below are the JavaScript ones on them.
    - Engagement counters, retry counts and timestamps are integers ([Z]).
      The one quotient the engine takes is computed in [Q]; its comparison
      with 0.5 is the one of the double-precision quotient for integers
      below 2^53.
    - [await]ed code is sequential code over an explicit system state
      ([Sys]): the outside world, the state file and a log of the I/O calls
      that were made.  A thrown exception is the [Threw] completion.  An
      object that is mutated in place and outlives an exception (the
      accumulator of a search, the map of seen tweets) is handed back next
      to the completion.
    - What is not the repository's code is a field of [Platform]: the
      network, the clock, cheerio's selections, [Number], [Date], [URL].
    - The scheduler is modelled apart, as the transition system of the
      event loop around [run] ([step]). *)

From Stdlib Require Import String Ascii List ZArith QArith Lia Bool Arith.
From Stdlib Require Import DecimalString DecimalPos.
Import ListNotations.

Local Open Scope string_scope.
Local Open Scope list_scope.
Local Open Scope Z_scope.

Set Implicit Arguments.
Set Warnings "-register-all".
#[local] Set Warnings "-notation-overridden".


(* ================================================================== *)
(** ** JavaScript values and string primitives *)
(* ================================================================== *)

Module JS.

(** Result of evaluating a piece of code that may throw. *)
Inductive Completion (A : Type) : Type :=
| Returned (a : A)
| Threw (msg : string).
Arguments Returned {A} a.
Arguments Threw {A} msg.

Infix "^^" := String.append (at level 60, right associativity).

(** Template-literal rendering of a non-negative integer / an integer. *)
Definition dec_nat (n : nat) : string :=
  NilEmpty.string_of_uint (Nat.to_uint n).

Definition dec (z : Z) : string :=
  match z with
  | Z0 => "0"
  | Zpos p => NilEmpty.string_of_uint (Pos.to_uint p)
  | Zneg p => "-" ^^ NilEmpty.string_of_uint (Pos.to_uint p)
  end.

(** [!s] on a string: only the empty string is falsy. *)
Definition truthy (s : string) : bool := negb (s =? "")%string.

(** [a || b] on strings. *)
Definition or_else (a b : string) : string := if truthy a then a else b.

(** WhiteSpace and LineTerminator code units below 256 (TAB, LF, VT, FF, CR,
    SP, NBSP): what [String.prototype.trim] strips. *)
Definition is_space (c : ascii) : bool :=
  let n := nat_of_ascii c in
  ((9 <=? n) && (n <=? 13) || (n =? 32) || (n =? 160))%nat.

Fixpoint trimStart (s : string) : string :=
  match s with
  | String c r => if is_space c then trimStart r else s
  | EmptyString => EmptyString
  end.

(** Drops the longest suffix whose code units all satisfy [p]. *)
Fixpoint drop_trailing (p : ascii -> bool) (s : string) : string :=
  match s with
  | EmptyString => EmptyString
  | String c r =>
      match drop_trailing p r with
      | EmptyString => if p c then EmptyString else String c EmptyString
      | r' => String c r'
      end
  end.

Definition trim (s : string) : string := drop_trailing is_space (trimStart s).

(** [s.replace(/\/+$/, "")]. *)
Definition strip_trailing_slashes (s : string) : string :=
  drop_trailing (fun c => (c =? "/")%char) s.

(** [s.replace(/,/g, "")]. *)
Fixpoint remove_commas (s : string) : string :=
  match s with
  | EmptyString => EmptyString
  | String c r => if (c =? ",")%char then remove_commas r else String c (remove_commas r)
  end.

Definition startsWith (s p : string) : bool := String.prefix p s.

(** [s.includes(p)]. *)
Fixpoint includes (s p : string) : bool :=
  String.prefix p s ||
  match s with
  | EmptyString => false
  | String _ r => includes r p
  end.

(** [s.replace(p, r)] for a non-empty string pattern: the first occurrence. *)
Fixpoint replace_first (p r s : string) : string :=
  if String.prefix p s then r ^^ substring (String.length p) (String.length s) s
  else match s with
       | EmptyString => EmptyString
       | String c t => String c (replace_first p r t)
       end.

(** [s.split("/").pop()]: what follows the last slash (all of [s] when it has
    none). *)
Fixpoint after_last_slash (s : string) : string :=
  match s with
  | EmptyString => EmptyString
  | String c r =>
      if includes r "/" then after_last_slash r
      else if (c =? "/")%char then r else s
  end.

(** [s.slice(0, n)]. *)
Definition slice0 (n : nat) (s : string) : string := substring 0 n s.

Definition lower (c : ascii) : ascii :=
  let n := nat_of_ascii c in
  if ((65 <=? n) && (n <=? 90))%nat then ascii_of_nat (n + 32) else c.

Fixpoint toLowerAscii (s : string) : string :=
  match s with
  | EmptyString => EmptyString
  | String c r => String (lower c) (toLowerAscii r)
  end.

(** [/^https?:\/\//i.test(s)]. *)
Definition is_absolute (s : string) : bool :=
  let l := toLowerAscii s in
  String.prefix "http://" l || String.prefix "https://" l.

(** What [Number(s)] can be. *)
Inductive Num : Type :=
| Finite (z : Z)
| NaN
| Infinite (negative : bool).

(** [Number.isFinite]. *)
Definition isFinite (n : Num) : option Z :=
  match n with
  | Finite z => Some z
  | _ => None
  end.

(** [x || 0] on an optional number. *)
Definition or_zero (x : option Z) : Z :=
  match x with
  | Some z => z
  | None => 0
  end.

(** A parsed JSON document.  An object lists its own properties in the order
    [Object.keys] enumerates them. *)
Inductive JSON : Type :=
| JNull
| JBool (b : bool)
| JNum (z : Z)
| JStr (s : string)
| JArr (items : list JSON)
| JObj (fields : list (string * JSON)).

End JS.
Export JS.

(* ================================================================== *)
(** ** Data model (nitterSearch.ts, enrichment.ts) *)
(* ================================================================== *)

Record TweetResult : Type := {
  id : string;
  url : string;
  text : string;
  createdAt : option string;
  authorHandle : option string;
  authorName : option string;
  replies : option Z;
  retweets : option Z;
  quotes : option Z;
  likes : option Z
}.

Record SearchResponse : Type := {
  query : string;
  sr_instanceUsed : string;
  fetchedAt : string;
  results : list TweetResult;
  error : option string
}.

Record FetchOptions : Type := {
  instances : list string;
  timeoutMs : Z;
  retriesPerInstance : Z
}.

Record AccountInfo : Type := {
  followersCount : option Z;
  followingCount : option Z;
  followsUs : option bool;
  networkStatus : option string
}.

Record EnrichedTweet : Type := {
  tweet_of : TweetResult;
  accountInfo : option AccountInfo
}.

(** What [fetch] resolves to ([Responded]) or rejects with ([Rejected]: a
    transport error or the abort of the timeout). *)
Record Response : Type := {
  res_ok : bool;
  res_status : Z;
  res_statusText : string;
  res_text : Completion string;
  res_url : string
}.

Inductive HttpOutcome : Type :=
| Rejected (msg : string)
| Responded (res : Response).

(** What cheerio reads off one [.timeline-item] element. *)
Record TimelineItem : Type := {
  content_text : string;
  date_href : option string;
  date_title : option string;
  username_text : string;
  fullname_text : string;
  comment_text : string;
  retweet_text : string;
  quote_text : string;
  heart_text : string
}.

(** Why the engine alerts ([alertReason]). *)
Inductive AlertReason : Type :=
| NewTweetFound
| TractionSpike (from to : Z).

(** The runtime the program runs on: the network, the clock, and the library
    functions whose code is not the repository's. *)
Class Platform : Type := {
  World : Type;
  (** [fetch(url, {method: "GET", signal})] with the abort timer set to the
      given number of milliseconds. *)
  http_get : string -> Z -> World -> HttpOutcome * World;
  (** [fetch(webhookUrl, {method: "POST", body})] of discord.ts. *)
  http_post : string -> EnrichedTweet -> string -> AlertReason -> World -> HttpOutcome * World;
  (** [enrichTweets] of enrichment.ts (twitterapi.io lookups). *)
  enrichTweets : list TweetResult -> World -> Completion (list EnrichedTweet) * World;
  (** [await sleep(ms)]. *)
  wait : Z -> World -> World;
  Date_now : World -> Z * World;
  (** [new Date(s).getTime()]; [None] is NaN. *)
  Date_parse : string -> option Z;
  Date_toISOString : Z -> string;
  Number : string -> Num;
  (** [new URL(s)]: its pathname and search, [None] when it throws. *)
  URL_parse : string -> option (string * string);
  (** Total on the strings of the model: it throws on a lone surrogate only. *)
  encodeURIComponent : string -> string;
  (** [$(".timeline-item")] of [cheerio.load(html)], in document order. *)
  timeline_items : string -> list TimelineItem;
  (** [$("a.show-more").attr("href")]. *)
  show_more_href : string -> option string
}.

(* ================================================================== *)
(** ** System state and the completion monad *)
(* ================================================================== *)

(** The state file: its text does not parse, or parses to a document. *)
Inductive FileContent : Type :=
| Unparseable
| Parses (j : JSON).

(** I/O calls, logged in the order they are made. *)
Inductive Event : Type :=
| EvGet (base url : string) (attempt : Z) (plausible : bool)
| EvSleep (ms : Z)
| EvPost (tweetId : string) (reason : AlertReason) (delivered : bool)
| EvSave (content : JSON).

Record Sys `{Platform} : Type := {
  world : World;
  disk : option FileContent;
  events : list Event
}.

Section Monad.
Context `{Platform}.

Definition M (A : Type) : Type := Sys -> Completion A * Sys.

Definition ret {A} (a : A) : M A := fun s => (Returned a, s).

Definition throw {A} (msg : string) : M A := fun s => (Threw msg, s).

Definition bind {A B} (m : M A) (k : A -> M B) : M B :=
  fun s =>
    match m s with
    | (Returned a, s') => k a s'
    | (Threw e, s') => (Threw e, s')
    end.

(** [try { m } catch (err) { h(err.message) }]. *)
Definition try_catch {A} (m : M A) (h : string -> M A) : M A :=
  fun s =>
    match m s with
    | (Returned a, s') => (Returned a, s')
    | (Threw e, s') => h e s'
    end.

Definition emit (e : Event) : M unit :=
  fun s => (Returned tt, {| world := world s; disk := disk s; events := events s ++ [e] |}).

(** Runs an operation of the outside world. *)
Definition io {A} (f : World -> A * World) : M A :=
  fun s =>
    let (a, w) := f (world s) in
    (Returned a, {| world := w; disk := disk s; events := events s |}).

Definition sleep (ms : Z) : M unit :=
  bind (emit (EvSleep ms)) (fun _ => io (fun w => (tt, wait ms w))).

Definition now : M Z := io Date_now.

End Monad.

Notation "x <- m ;; k" := (bind m (fun x => k))
  (at level 100, m at next level, right associativity).

(* ================================================================== *)
(** ** nitterSearch.ts *)
(* ================================================================== *)

Section NitterSearch.
Context `{Platform}.

Definition cleanInstances (l : list string) : list string :=
  map strip_trailing_slashes (filter truthy (map trim l)).

Definition parseCount (raw : option string) : option Z :=
  match raw with
  | None => None
  | Some raw =>
      if negb (truthy raw) then None
      else
        let trimmed := remove_commas (trim raw) in
        if negb (truthy trimmed) then None
        else isFinite (Number trimmed)
  end.

Record Fetched : Type := {
  html : string;
  instanceUsed : string;
  finalUrl : string
}.

(** The body of the [try] block of one attempt: the GET and the plausibility
    checks on what came back. *)
Definition check_response (base : string) (out : HttpOutcome) : Completion Fetched :=
  match out with
  | Rejected msg => Threw msg
  | Responded res =>
      if negb (res_ok res)
      then Threw ("HTTP " ^^ dec (res_status res) ^^ " " ^^ res_statusText res)
      else
        match res_text res with
        | Threw msg => Threw msg
        | Returned html =>
            if negb (truthy html) || (String.length html <? 100)%nat
            then Threw ("Empty or invalid response (" ^^ dec_nat (String.length html) ^^ " bytes)")
            else if includes html "Verifying your browser"
            then Threw "Got 'Verifying your browser' challenge"
            else Returned {| html := html; instanceUsed := base; finalUrl := res_url res |}
        end
  end.

Definition is_plausible (r : Completion Fetched) : bool :=
  match r with
  | Returned _ => true
  | Threw _ => false
  end.

Definition attempt_once (base url : string) (opts : FetchOptions) (attempt : Z) : M Fetched :=
  fun s =>
    let (out, w) := http_get url (timeoutMs opts) (world s) in
    let r := check_response base out in
    (r, {| world := w; disk := disk s;
           events := events s ++ [EvGet base url attempt (is_plausible r)] |}).

(** [for (let attempt = 0; attempt <= opts.retriesPerInstance; attempt++)],
    entered with [n] iterations left: [n = retriesPerInstance + 1 - attempt]
    (none when that is negative).  The result is the document, or the value of
    [lastError] when the loop ran out. *)
Fixpoint attempts (n : nat) (attempt : Z) (base url : string) (opts : FetchOptions)
    (lastError : option string) (s : Sys) : (Fetched + option string) * Sys :=
  match n with
  | O => (inr lastError, s)
  | S k =>
      match attempt_once base url opts attempt s with
      | (Returned r, s1) => (inl r, s1)
      | (Threw err, s1) =>
          let s2 :=
            if attempt <? retriesPerInstance opts
            then snd (sleep (250 * (attempt + 1)) s1)
            else s1 in
          attempts k (attempt + 1) base url opts (Some err) s2
      end
  end.

(** The URL requested on mirror [base]. *)
Definition request_url (isAbsolute : bool) (pathOrUrl path base : string) : string :=
  if isAbsolute then pathOrUrl
  else base ^^ (if startsWith path "/" then "" else "/") ^^ path.

(** [for (const base of instances)]. *)
Fixpoint mirrors (bases : list string) (isAbsolute : bool) (pathOrUrl path : string)
    (opts : FetchOptions) (lastError : option string) (s : Sys)
    : (Fetched + option string) * Sys :=
  match bases with
  | [] => (inr lastError, s)
  | base :: rest =>
      let url := request_url isAbsolute pathOrUrl path base in
      match attempts (Z.to_nat (retriesPerInstance opts + 1)) 0 base url opts lastError s with
      | (inl r, s1) => (inl r, s1)
      | (inr e, s1) => mirrors rest isAbsolute pathOrUrl path opts e s1
      end
  end.

Definition no_instances_msg : string :=
  "No Nitter instances provided. Set NITTER_INSTANCES in .env or pass --instances".

Definition fetchHtmlWithFallback (pathOrUrl : string) (opts : FetchOptions) : M Fetched :=
  let instances := cleanInstances (instances opts) in
  if (length instances =? 0)%nat then throw no_instances_msg
  else
    let isAbsolute := is_absolute pathOrUrl in
    match (if isAbsolute
           then match URL_parse pathOrUrl with
                | Some (pathname, search) => Returned (pathname ^^ search)
                | None => Threw "Invalid URL"
                end
           else Returned pathOrUrl) with
    | Threw msg => throw msg
    | Returned path =>
        fun s =>
          match mirrors instances isAbsolute pathOrUrl path opts None s with
          | (inl r, s1) => (Returned r, s1)
          | (inr lastError, s1) =>
              let msg :=
                match lastError with
                | Some m => m
                | None => "Unknown error: undefined"
                end in
              (Threw ("All Nitter instances failed. Last error: " ^^ msg), s1)
          end
    end.

(** The separator Nitter puts between date and time: [" · "]. *)
Definition middle_dot_sep : string :=
  String " " (String (ascii_of_nat 183) (String " " EmptyString)).

Definition nonempty (s : string) : option string :=
  if truthy s then Some s else None.

(** The callback of [$(".timeline-item").each]: the tweet it pushes, if any. *)
Definition extract_item (baseUsed : string) (it : TimelineItem) : option TweetResult :=
  let text := trim (content_text it) in
  if negb (truthy text) then None
  else
    let href := match date_href it with Some h => h | None => "" end in
    let url :=
      if truthy href
      then (if startsWith href "http" then href
            else baseUsed ^^ (if startsWith href "/" then "" else "/") ^^ href)
      else "" in
    let id :=
      if truthy url then or_else (after_last_slash url) url else slice0 32 text in
    let createdAt :=
      match date_title it with
      | Some title =>
          if truthy title
          then match Date_parse (replace_first middle_dot_sep " " title) with
               | Some ms => Some (Date_toISOString ms)
               | None => None
               end
          else None
      | None => None
      end in
    Some {| id := id; url := url; text := text; createdAt := createdAt;
            authorHandle := nonempty (trim (username_text it));
            authorName := nonempty (trim (fullname_text it));
            replies := parseCount (Some (comment_text it));
            retweets := parseCount (Some (retweet_text it));
            quotes := parseCount (Some (quote_text it));
            likes := parseCount (Some (heart_text it)) |}.

Definition extractTweetsFromHtml (html baseUsed : string) : list TweetResult :=
  flat_map (fun it => match extract_item baseUsed it with
                      | Some t => [t]
                      | None => []
                      end)
           (timeline_items html).

Definition extractShowMorePath (html : string) : Completion (option string) :=
  match show_more_href html with
  | None => Returned None
  | Some href =>
      if negb (truthy href) then Returned None
      else if startsWith href "http"
      then match URL_parse href with
           | Some (pathname, search) => Returned (Some (pathname ^^ search))
           | None => Threw "Invalid URL"
           end
      else Returned (Some href)
  end.

(** [results.some((r) => r.id === t.id)]. *)
Definition has_id (results : list TweetResult) (i : string) : bool :=
  existsb (fun r => (id r =? i)%string) results.

(** [for (const t of pageTweets)] with its [break] and [continue]. *)
Fixpoint push_page (limit : Z) (results pageTweets : list TweetResult) : list TweetResult :=
  match pageTweets with
  | [] => results
  | t :: rest =>
      if Z.of_nat (length results) >=? limit then results
      else if has_id results (id t) then push_page limit results rest
      else push_page limit (results ++ [t]) rest
  end.

(** The variables of the page loop. *)
Record LoopState : Type := {
  page : nat;
  nextPath : option string;
  acc : list TweetResult;
  instanceUsedForLastFetch : string
}.

(** [page < 10 && nextPath && results.length < limit]. *)
Definition loop_guard (limit : Z) (st : LoopState) : bool :=
  (page st <? 10)%nat
  && match nextPath st with Some p => truthy p | None => false end
  && (Z.of_nat (length (acc st)) <? limit).

(** One iteration of the page loop, [page++] included.  The accumulator is an
    array the [catch] block still sees, so a throwing iteration hands back the
    variables as they were when it threw, with the message. *)
Definition loop_body (limit : Z) (opts : FetchOptions) (st : LoopState) (s : Sys)
    : (LoopState * option string) * Sys :=
  match fetchHtmlWithFallback (match nextPath st with Some p => p | None => "" end) opts s with
  | (Threw msg, s1) => ((st, Some msg), s1)
  | (Returned f, s1) =>
      let results := push_page limit (acc st) (extractTweetsFromHtml (html f) (instanceUsed f)) in
      let st1 := {| page := page st; nextPath := nextPath st; acc := results;
                    instanceUsedForLastFetch := instanceUsed f |} in
      match (if Z.of_nat (length results) <? limit
             then extractShowMorePath (html f) else Returned None) with
      | Threw msg => ((st1, Some msg), s1)
      | Returned np =>
          (({| page := S (page st); nextPath := np; acc := results;
               instanceUsedForLastFetch := instanceUsed f |}, None), s1)
      end
  end.

(** The page loop with [fuel] iterations allowed; ten are enough
    (see [search_pages_fuel]).  Returns the variables at the exit, and the
    message when the exit was a throw. *)
Fixpoint search_pages (fuel : nat) (limit : Z) (opts : FetchOptions) (st : LoopState) (s : Sys)
    : (LoopState * option string) * Sys :=
  match fuel with
  | O => ((st, None), s)
  | S k =>
      if loop_guard limit st
      then match loop_body limit opts st s with
           | ((st1, Some msg), s1) => ((st1, Some msg), s1)
           | ((st1, None), s1) => search_pages k limit opts st1 s1
           end
      else ((st, None), s)
  end.

Definition first_instance (opts : FetchOptions) : string :=
  match cleanInstances (instances opts) with
  | b :: _ => b
  | [] => ""
  end.

Definition search_start (query : string) : LoopState :=
  {| page := 0;
     nextPath := Some ("/search?f=tweets&q=" ^^ encodeURIComponent query);
     acc := [];
     instanceUsedForLastFetch := "" |}.

Definition searchNitterGlobal (query : string) (limit : Z) (opts : FetchOptions)
    : M SearchResponse :=
  fun s =>
    match search_pages 10 limit opts (search_start query) s with
    | ((st, err), s1) =>
        (t <- now ;;
         ret {| query := query;
                sr_instanceUsed :=
                  or_else (instanceUsedForLastFetch st) (or_else (first_instance opts) "");
                fetchedAt := Date_toISOString t;
                results := acc st;
                error :=
                  match err with
                  | Some errorMsg =>
                      Some ("Failed after fetching " ^^ dec_nat (length (acc st))
                            ^^ " results: " ^^ errorMsg)
                  | None => None
                  end |}) s1
    end.

End NitterSearch.

(* ================================================================== *)
(** ** JavaScript objects used as maps *)
(* ================================================================== *)

(** The own properties of an object, in enumeration order. *)
Definition jsobj (A : Type) : Type := list (string * A).

Fixpoint obj_get {A} (k : string) (o : jsobj A) : option A :=
  match o with
  | [] => None
  | (k', v) :: r => if (k' =? k)%string then Some v else obj_get k r
  end.

Definition has_key {A} (k : string) (o : jsobj A) : bool :=
  match obj_get k o with
  | Some _ => true
  | None => false
  end.

Definition digit (c : ascii) : option Z :=
  let n := nat_of_ascii c in
  if ((48 <=? n) && (n <=? 57))%nat then Some (Z.of_nat (n - 48)) else None.

Fixpoint digits_value (acc : Z) (s : string) : option Z :=
  match s with
  | EmptyString => Some acc
  | String c r =>
      match digit c with
      | Some d => digits_value (10 * acc + d) r
      | None => None
      end
  end.

(** The array index a property key denotes: a canonical numeric string below
    2^32 - 1.  Such keys are enumerated first, in ascending order. *)
Definition array_index (k : string) : option Z :=
  match k with
  | EmptyString => None
  | String c r =>
      if (c =? "0")%char && truthy r then None
      else match digits_value 0 k with
           | Some v => if v <? 4294967295 then Some v else None
           | None => None
           end
  end.

Fixpoint obj_replace {A} (k : string) (v : A) (o : jsobj A) : jsobj A :=
  match o with
  | [] => []
  | (k', v') :: r =>
      if (k' =? k)%string then (k', v) :: r else (k', v') :: obj_replace k v r
  end.

Fixpoint obj_insert_index {A} (n : Z) (k : string) (v : A) (o : jsobj A) : jsobj A :=
  match o with
  | [] => [(k, v)]
  | (k', v') :: r =>
      match array_index k' with
      | Some m => if n <? m then (k, v) :: o else (k', v') :: obj_insert_index n k v r
      | None => (k, v) :: o
      end
  end.

(** [o[k] = v] on an object created by a literal or by [JSON.parse].  An
    existing property keeps its place; a new one goes after the properties
    that precede it in enumeration order.  Assigning to [__proto__] on an
    object without such an own property creates none (it replaces the
    prototype, which the model does not track). *)
Definition obj_set {A} (k : string) (v : A) (o : jsobj A) : jsobj A :=
  if has_key k o then obj_replace k v o
  else if (k =? "__proto__")%string then o
  else match array_index k with
       | Some n => obj_insert_index n k v o
       | None => o ++ [(k, v)]
       end.

(** The members of [Object.prototype]: what [o[k]] finds, and finds truthy,
    when [o] has no own property [k]. *)
Definition object_prototype_members : list string :=
  [ "constructor"; "__defineGetter__"; "__defineSetter__"; "hasOwnProperty";
    "__lookupGetter__"; "__lookupSetter__"; "isPrototypeOf";
    "propertyIsEnumerable"; "toString"; "valueOf"; "__proto__"; "toLocaleString" ].

Definition inherited (k : string) : bool :=
  existsb (fun m => (m =? k)%string) object_prototype_members.

(** Truthiness of a parsed value. *)
Definition json_truthy (v : JSON) : bool :=
  match v with
  | JNull => false
  | JBool b => b
  | JNum z => negb (z =? 0)
  | JStr s => truthy s
  | JArr _ | JObj _ => true
  end.

(** [String(v)], as a property key is computed from a parsed value. *)
Fixpoint to_key (v : JSON) : string :=
  match v with
  | JNull => "null"
  | JBool true => "true"
  | JBool false => "false"
  | JNum z => dec z
  | JStr s => s
  | JObj _ => "[object Object]"
  | JArr items =>
      (fix join (l : list JSON) : string :=
         match l with
         | [] => ""
         | x :: r =>
             (match x with JNull => "" | _ => to_key x end)
             ^^ match r with [] => "" | _ => "," ^^ join r end
         end) items
  end.

Fixpoint indexed (n : nat) (l : list JSON) : list (string * JSON) :=
  match l with
  | [] => []
  | x :: r => (dec_nat n, x) :: indexed (S n) r
  end.

Fixpoint chars (n : nat) (s : string) : list (string * JSON) :=
  match s with
  | EmptyString => []
  | String c r => (dec_nat n, JStr (String c EmptyString)) :: chars (S n) r
  end.

(** [Object.entries(v)], which is also what [for (k in v)] with [v[k]] walks
    through: the own enumerable properties of a parsed value. *)
Definition own_entries (v : JSON) : list (string * JSON) :=
  match v with
  | JObj fields => fields
  | JArr items => indexed 0 items
  | JStr s => chars 0 s
  | _ => []
  end.

(** [json.k] for a property name that is neither an index nor [length], on a
    value that is not null. *)
Definition prop (json : JSON) (k : string) : option JSON :=
  match json with
  | JObj fields => obj_get k fields
  | _ => None
  end.

Definition truthy_opt (v : option JSON) : bool :=
  match v with
  | Some j => json_truthy j
  | None => false
  end.

(* ================================================================== *)
(** ** worker.ts: the monitor state store *)
(* ================================================================== *)

Record TweetStats : Type := {
  st_likes : Z;
  st_retweets : Z;
  st_replies : Z;
  lastChecked : Z
}.

(** [MonitorState.seenTweets]. *)
Definition SeenTweets : Type := jsobj TweetStats.

Definition encode_stats (t : TweetStats) : JSON :=
  JObj [ ("likes", JNum (st_likes t)); ("retweets", JNum (st_retweets t));
         ("replies", JNum (st_replies t)); ("lastChecked", JNum (lastChecked t)) ].

Definition encode_seen (seen : SeenTweets) : list (string * JSON) :=
  map (fun kv => (fst kv, encode_stats (snd kv))) seen.

(** The document [JSON.stringify(state)] denotes. *)
Definition encode_state (seen : SeenTweets) : JSON :=
  JObj [("seenTweets", JObj (encode_seen seen))].

Definition number_field (v : JSON) (k : string) : Z :=
  match prop v k with
  | Some (JNum z) => z
  | _ => 0
  end.

Definition decode_stats (v : JSON) : TweetStats :=
  {| st_likes := number_field v "likes";
     st_retweets := number_field v "retweets";
     st_replies := number_field v "replies";
     lastChecked := number_field v "lastChecked" |}.

(** worker.ts takes what [loadState] returns to be a [MonitorState] without
    checking it.  This is that reading: exact on a document of that type
    ([decode_encode]); on another document a counter that is not a number
    reads as 0 and a [seenTweets] that is no object as empty. *)
Definition decode_state (json : JSON) : SeenTweets :=
  match prop json "seenTweets" with
  | Some (JObj fields) => map (fun kv => (fst kv, decode_stats (snd kv))) fields
  | _ => []
  end.

Definition empty_state : JSON := JObj [("seenTweets", JObj [])].

(** The entry given to an identifier migrated out of [lastIds]. *)
Definition dummy_stats (t : Z) : TweetStats :=
  {| st_likes := 0; st_retweets := 0; st_replies := 0; lastChecked := t |}.

(** ['likes' in v] for an object or an array. *)
Definition has_likes (v : JSON) : bool :=
  match v with
  | JObj fields => has_key "likes" fields
  | _ => false
  end.

Definition is_object (v : JSON) : bool :=
  match v with
  | JObj _ | JArr _ => true
  | _ => false
  end.

(** The per-monitor shape flattened: later monitors overwrite earlier ones. *)
Definition flatten (seenTweets : JSON) : jsobj JSON :=
  fold_left
    (fun newSeen monitor =>
       fold_left (fun ns kv => obj_set (fst kv) (snd kv) ns)
                 (own_entries (snd monitor)) newSeen)
    (own_entries seenTweets) [].

Section StateStore.
Context `{Platform}.

(** [ids.forEach((id) => { newState.seenTweets[id] = {... Date.now()} })]. *)
Fixpoint mark_seen (ids : list JSON) (seen : jsobj JSON) : M (jsobj JSON) :=
  match ids with
  | [] => ret seen
  | i :: rest =>
      t <- now ;;
      mark_seen rest (obj_set (to_key i) (encode_stats (dummy_stats t)) seen)
  end.

(** [for (const [key, ids] of Object.entries(json.lastIds))]. *)
Fixpoint migrate_lastIds (entries : list (string * JSON)) (seen : jsobj JSON)
    : M (jsobj JSON) :=
  match entries with
  | [] => ret seen
  | (_, ids) :: rest =>
      match ids with
      | JArr l => seen' <- mark_seen l seen ;; migrate_lastIds rest seen'
      | _ => migrate_lastIds rest seen
      end
  end.

(** What [loadState] does with the parsed document. *)
Definition migrate (json : JSON) : M JSON :=
  match json with
  | JNull => throw "TypeError: Cannot read properties of null (reading 'lastIds')"
  | _ =>
      if truthy_opt (prop json "lastIds")
      then
        seen <- migrate_lastIds
                  (match prop json "lastIds" with
                   | Some lastIds => own_entries lastIds
                   | None => []
                   end) [] ;;
        ret (JObj [("seenTweets", JObj seen)])
      else
        let seenTweets :=
          if truthy_opt (prop json "seenTweets")
          then match prop json "seenTweets" with Some v => v | None => JObj [] end
          else JObj [] in
        match own_entries seenTweets with
        | (_, firstVal) :: _ =>
            if json_truthy firstVal && is_object firstVal && negb (has_likes firstVal)
            then ret (JObj [("seenTweets", JObj (flatten seenTweets))])
            else ret json
        | [] => ret json
        end
  end.

Definition loadState : M JSON :=
  fun s =>
    match disk s with
    | None => (Returned empty_state, s)
    | Some Unparseable => (Returned empty_state, s)
    | Some (Parses json) => try_catch (migrate json) (fun _ => ret empty_state) s
    end.

Definition saveState (seen : SeenTweets) : M unit :=
  fun s =>
    (Returned tt,
     {| world := world s;
        disk := Some (Parses (encode_state seen));
        events := events s ++ [EvSave (encode_state seen)] |}).

End StateStore.

(* ================================================================== *)
(** ** worker.ts: the monitor engine *)
(* ================================================================== *)

(** [process.env], the variables the worker reads. *)
Record Env : Type := {
  DISCORD_WEBHOOK_URL : option string;
  TIMEOUT_MS : option string;
  RETRIES_PER_INSTANCE : option string;
  NITTER_INSTANCES : option string;
  MAIN_ACCOUNT_HANDLE : option string;
  DEFAULT_QUERY : option string;
  TRACTION_THRESHOLD_LIKES : option string;
  TWITTER_API_IO_KEY : option string;
  POLL_INTERVAL_SECONDS : option string;
  VIP_CHECK_INTERVAL_SECONDS : option string
}.

Fixpoint digits_prefix (acc : option Z) (s : string) : option Z :=
  match s with
  | EmptyString => acc
  | String c r =>
      match digit c with
      | Some d => digits_prefix (Some (10 * or_zero acc + d)) r
      | None => acc
      end
  end.

(** [Number.parseInt(s, 10)]; [None] is NaN. *)
Definition parseInt10 (s : string) : option Z :=
  match trimStart s with
  | String "-" r => option_map Z.opp (digits_prefix None r)
  | String "+" r => digits_prefix None r
  | t => digits_prefix None t
  end.

Definition parseIntSafe (raw : option string) (fallback : Z) : Z :=
  match raw with
  | None => fallback
  | Some r =>
      if negb (truthy r) then fallback
      else match parseInt10 r with
           | Some n => n
           | None => fallback
           end
  end.

(** [s.split(",")]. *)
Fixpoint split_comma (s : string) : list string :=
  match s with
  | EmptyString => [EmptyString]
  | String c r =>
      if (c =? ",")%char then EmptyString :: split_comma r
      else match split_comma r with
           | h :: t => String c h :: t
           | [] => [String c EmptyString]
           end
  end.

Definition getInstances (raw : option string) : list string :=
  match raw with
  | None => ["https://nitter.net"; "https://nitter.poast.org"; "https://nitter.privacydev.net"]
  | Some r =>
      if negb (truthy r)
      then ["https://nitter.net"; "https://nitter.poast.org"; "https://nitter.privacydev.net"]
      else
        let parsed := filter truthy (map trim (split_comma r)) in
        if (0 <? length parsed)%nat then parsed else ["http://localhost:8080"]
  end.

Record MonitorConfig : Type := {
  key : string;
  mc_query : string;
  label : string
}.

Definition THREE_DAYS_MS : Z := 3 * 24 * 60 * 60 * 1000.

Definition TRACTION_GROWTH_PERCENT : Q := 1 # 2.

(** [(currentLikes - prevStats.likes) / (prevStats.likes || 1)]. *)
Definition growth (currentLikes prevLikes : Z) : Q :=
  inject_Z (currentLikes - prevLikes)
  / inject_Z (if prevLikes =? 0 then 1 else prevLikes).

(** What [seenMap[tweet.id]] finds. *)
Inductive Lookup : Type :=
| Own (prevStats : TweetStats)
| Inherited
| Absent.

Definition lookup (seen : SeenTweets) (i : string) : Lookup :=
  match obj_get i seen with
  | Some st => Own st
  | None => if inherited i then Inherited else Absent
  end.

(** The alert decision of the loop body: [shouldAlert] with [alertReason]. *)
Definition decide (threshold : Z) (found : Lookup) (tweet : TweetResult) : option AlertReason :=
  let currentLikes := or_zero (likes tweet) in
  match found with
  | Absent => Some NewTweetFound
  | Inherited => None
  | Own prevStats =>
      if (currentLikes >=? threshold)
         && Qle_bool TRACTION_GROWTH_PERCENT (growth currentLikes (st_likes prevStats))
         && (currentLikes - st_likes prevStats >=? 5)
      then Some (TractionSpike (st_likes prevStats) currentLikes)
      else None
  end.

(** The entry written at the end of the loop body. *)
Definition observed (now : Z) (tweet : TweetResult) : TweetStats :=
  {| st_likes := or_zero (likes tweet);
     st_retweets := or_zero (retweets tweet);
     st_replies := or_zero (replies tweet);
     lastChecked := now |}.

Definition is_set (v : option string) : bool :=
  match v with
  | Some s => truthy s
  | None => false
  end.

Section Engine.
Context `{Platform}.

(** The age check at the head of the loop body. *)
Definition is_stale (now : Z) (tweet : TweetResult) : bool :=
  match createdAt tweet with
  | Some c =>
      if truthy c
      then match Date_parse c with
           | Some tweetTime => now - tweetTime >? THREE_DAYS_MS
           | None => false
           end
      else false
  | None => false
  end.

(** What the [try] block of [postToDiscord] completes with, given what
    [fetch] gave: it throws the rejection of [fetch], the rejection of
    [response.text()], or the error it makes of a response that is not ok. *)
Definition check_post (out : HttpOutcome) : Completion unit :=
  match out with
  | Rejected msg => Threw msg
  | Responded res =>
      if res_ok res then Returned tt
      else match res_text res with
           | Threw msg => Threw msg
           | Returned errorText =>
               Threw ("Discord webhook failed: " ^^ dec (res_status res) ^^ " "
                      ^^ res_statusText res ^^ " - " ^^ errorText)
           end
  end.

Definition delivered (r : Completion unit) : bool :=
  match r with
  | Returned _ => true
  | Threw _ => false
  end.

(** discord.ts, [postToDiscord], without the formatting of the embed: the
    embed is built from the fields of the record (reading them is what throws
    when there is no record), then the request is made inside
    [try { ... } catch (err) { console.error(...) }]. *)
Definition postToDiscord (webhookUrl : string) (tweet : option EnrichedTweet)
    (label : string) (reason : AlertReason) : M unit :=
  match tweet with
  | None => throw "TypeError: Cannot read properties of undefined (reading 'url')"
  | Some tw =>
      try_catch
        (fun s =>
           let (out, w) := http_post webhookUrl tw label reason (world s) in
           (check_post out,
            {| world := w; disk := disk s;
               events := events s
                         ++ [EvPost (id (tweet_of tw)) reason (delivered (check_post out))] |}))
        (fun _ => ret tt)
  end.

(** The [if (shouldAlert)] block. *)
Definition alert (env : Env) (webhookUrl : string) (monitor : MonitorConfig)
    (tweet : TweetResult) (reason : AlertReason) : M unit :=
  let plain := Some {| tweet_of := tweet; accountInfo := None |} in
  tweetToPost <-
    (if is_set (TWITTER_API_IO_KEY env)
     then try_catch
            (fun s =>
               let (r, w) := enrichTweets [tweet] (world s) in
               (match r with
                | Returned enriched => Returned (hd_error enriched)
                | Threw msg => Threw msg
                end,
                {| world := w; disk := disk s; events := events s |}))
            (fun _ => ret plain)
     else ret plain) ;;
  postToDiscord webhookUrl tweetToPost (label monitor) reason.

(** [for (const tweet of res.results)].  [seenMap] is the object the caller
    holds, so what has been written to it stays written when the loop throws:
    the map is handed back with the completion. *)
Fixpoint process_tweets (env : Env) (webhookUrl : string) (monitor : MonitorConfig)
    (now : Z) (threshold : Z) (tweets : list TweetResult) (seenMap : SeenTweets) (s : Sys)
    : (Completion unit * SeenTweets) * Sys :=
  match tweets with
  | [] => ((Returned tt, seenMap), s)
  | tweet :: rest =>
      if is_stale now tweet
      then process_tweets env webhookUrl monitor now threshold rest seenMap s
      else
        match (match decide threshold (lookup seenMap (id tweet)) tweet with
               | Some reason => alert env webhookUrl monitor tweet reason s
               | None => (Returned tt, s)
               end) with
        | (Threw msg, s1) => ((Threw msg, seenMap), s1)
        | (Returned _, s1) =>
            process_tweets env webhookUrl monitor now threshold rest
              (obj_set (id tweet) (observed now tweet) seenMap) s1
        end
  end.

Definition processMonitor (env : Env) (monitor : MonitorConfig) (seenMap : SeenTweets)
    (webhookUrl : string) (globalOpts : FetchOptions) (s : Sys)
    : (Completion unit * SeenTweets) * Sys :=
  match now s with
  | (Threw msg, s0) => ((Threw msg, seenMap), s0)
  | (Returned t, s0) =>
      match searchNitterGlobal (mc_query monitor) 50 globalOpts s0 with
      | (Threw msg, s1) => ((Threw msg, seenMap), s1)
      | (Returned res, s1) =>
          if is_set (error res) then ((Returned tt, seenMap), s1)
          else
            process_tweets env webhookUrl monitor t
              (parseIntSafe (TRACTION_THRESHOLD_LIKES env) 5) (results res) seenMap s1
      end
  end.

Definition dquote : string := String (ascii_of_nat 34) EmptyString.

Definition monitors_of (env : Env) : list MonitorConfig :=
  let mainAccount :=
    match MAIN_ACCOUNT_HANDLE env with
    | Some a => or_else a "CanadaSpends"
    | None => "CanadaSpends"
    end in
  [ {| key := "default";
       mc_query :=
         match DEFAULT_QUERY env with
         | Some q => q
         | None => "@canada_spends OR " ^^ dquote ^^ "CanadaSpends" ^^ dquote
                   ^^ " OR url:canadaspends"
         end ^^ " -from:canada_spends";
       label := "Main Keywords" |};
    {| key := "links";
       mc_query := "url:canadaspends -from:canada_spends";
       label := "Site Links" |};
    {| key := "traction_replies";
       mc_query := "(to:" ^^ mainAccount
                   ^^ ") (min_faves:10 OR min_retweets:5) -from:canada_spends";
       label := "High Traction Replies" |} ].

(** [for (const monitor of monitors)] of runMonitors, with the two-second
    pause after each monitor. *)
Fixpoint run_each (env : Env) (webhookUrl : string) (globalOpts : FetchOptions)
    (monitors : list MonitorConfig) (seenMap : SeenTweets) (s : Sys)
    : (Completion unit * SeenTweets) * Sys :=
  match monitors with
  | [] => ((Returned tt, seenMap), s)
  | monitor :: rest =>
      match processMonitor env monitor seenMap webhookUrl globalOpts s with
      | ((Threw msg, seen1), s1) => ((Threw msg, seen1), s1)
      | ((Returned _, seen1), s1) =>
          run_each env webhookUrl globalOpts rest seen1 (snd (sleep 2000 s1))
      end
  end.

Definition runMonitors (env : Env) : M unit :=
  match DISCORD_WEBHOOK_URL env with
  | None => ret tt
  | Some webhookUrl =>
      if negb (truthy webhookUrl) then ret tt
      else
        let globalOpts :=
          {| instances := getInstances (NITTER_INSTANCES env);
             timeoutMs := parseIntSafe (TIMEOUT_MS env) 10000;
             retriesPerInstance := parseIntSafe (RETRIES_PER_INSTANCE env) 1 |} in
        fun s =>
          match loadState s with
          | (Threw msg, s0) => (Threw msg, s0)
          | (Returned json, s0) =>
              match run_each env webhookUrl globalOpts (monitors_of env)
                             (decode_state json) s0 with
              | ((Threw msg, _), s1) => (Threw msg, s1)
              | ((Returned _, seen), s1) => saveState seen s1
              end
          end
  end.

(** [doPoll]: a cycle, with whatever it throws caught and logged. *)
Definition doPoll (env : Env) : M unit :=
  try_catch (runMonitors env) (fun _ => ret tt).

End Engine.

(* ================================================================== *)
(** ** worker.ts: run, the scheduler *)
(* ================================================================== *)

(** Where one invocation of the body [await doPoll(); await doVipCheck();] is:
    the promise of [doPoll] is pending (the cycle is at one of its awaits),
    the promise of [checkVips] is pending, or the body has run to its end. *)
Inductive Stage : Type :=
| Polling
| CheckingVips
| Settled.

(** The scheduler between two turns of the event loop.  Activation 0 is the
    body run by [run] itself ("Run immediately"), the others are callbacks of
    the interval timer, in the order they were started. *)
Record Scheduler : Type := {
  clock : Z;
  lastVipCheck : Z;
  timer : option Z;
  activations : list Stage
}.

(** What the event loop can deliver next: time passes while every activation
    waits; the promise of [doPoll] of activation [i] settles ([doPoll] catches
    what [runMonitors] throws, so it always fulfils) and the activation goes
    on to [doVipCheck]; the promise of [checkVips] of activation [i] fulfils
    or rejects; the interval timer is due and its callback is run.  How long
    a cycle or a check takes is the network's affair, so any order of these
    that respects the conditions in [step] can occur. *)
Inductive Happening : Type :=
| TimePasses (ms : Z)
| PollSettles (i : nat)
| VipCheckSettles (i : nat) (succeeded : bool)
| TimerFires.

Fixpoint set_stage (i : nat) (st : Stage) (l : list Stage) : list Stage :=
  match l, i with
  | [], _ => []
  | _ :: r, O => st :: r
  | x :: r, S j => x :: set_stage j st r
  end.

(** The two intervals [run] reads from the environment. *)
Definition poll_interval_of (env : Env) : Z :=
  parseIntSafe (POLL_INTERVAL_SECONDS env) 120.

Definition vip_interval_of (env : Env) : Z :=
  parseIntSafe (VIP_CHECK_INTERVAL_SECONDS env) 3600.

Section Run.
Variables pollIntervalSeconds vipCheckIntervalSeconds : Z.

(** [run] has called [doPoll] and awaits it; [setInterval] is not yet called. *)
Definition started (t0 : Z) : Scheduler :=
  {| clock := t0; lastVipCheck := 0; timer := None; activations := [Polling] |}.

(** Activation [i] reaches its end; for activation 0 the next statement of
    [run] is [setInterval(..., pollIntervalSeconds * 1000)]. *)
Definition settle (i : nat) (sch : Scheduler) (lastVip : Z) : Scheduler :=
  {| clock := clock sch;
     lastVipCheck := lastVip;
     timer := if (i =? 0)%nat then Some (clock sch + pollIntervalSeconds * 1000)
              else timer sch;
     activations := set_stage i Settled (activations sch) |}.

(** One turn of the event loop; [None] when [h] cannot happen in [sch].  The
    callback of the timer calls [doPoll] whatever the earlier activations are
    doing: neither it nor [run] looks at them. *)
Definition step (sch : Scheduler) (h : Happening) : option Scheduler :=
  match h with
  | TimePasses ms =>
      if 0 <=? ms
      then Some {| clock := clock sch + ms; lastVipCheck := lastVipCheck sch;
                   timer := timer sch; activations := activations sch |}
      else None
  | PollSettles i =>
      match nth_error (activations sch) i with
      | Some Polling =>
          (* doVipCheck: [now - lastVipCheck >= vipCheckIntervalSeconds * 1000] *)
          if clock sch - lastVipCheck sch >=? vipCheckIntervalSeconds * 1000
          then Some {| clock := clock sch; lastVipCheck := lastVipCheck sch;
                       timer := timer sch;
                       activations := set_stage i CheckingVips (activations sch) |}
          else Some (settle i sch (lastVipCheck sch))
      | _ => None
      end
  | VipCheckSettles i succeeded =>
      match nth_error (activations sch) i with
      | Some CheckingVips =>
          Some (settle i sch (if succeeded then clock sch else lastVipCheck sch))
      | _ => None
      end
  | TimerFires =>
      match timer sch with
      | Some due =>
          if due <=? clock sch
          then Some {| clock := clock sch; lastVipCheck := lastVipCheck sch;
                       timer := Some (due + pollIntervalSeconds * 1000);
                       activations := activations sch ++ [Polling] |}
          else None
      | None => None
      end
  end.

Fixpoint exec (sch : Scheduler) (hs : list Happening) : option Scheduler :=
  match hs with
  | [] => Some sch
  | h :: rest =>
      match step sch h with
      | Some sch' => exec sch' rest
      | None => None
      end
  end.

End Run.

Definition is_running (st : Stage) : bool :=
  match st with
  | Settled => false
  | _ => true
  end.

(** The activations with a job in flight. *)
Definition running (sch : Scheduler) : list Stage :=
  filter is_running (activations sch).

(** No two job runs are in flight at once. *)
Definition no_overlap (sch : Scheduler) : Prop := (length (running sch) <= 1)%nat.

(** Every firing of the timer in [hs] finds the earlier activations at their
    end. *)
Fixpoint fires_when_idle (poll vip : Z) (sch : Scheduler) (hs : list Happening) : Prop :=
  match hs with
  | [] => True
  | h :: rest =>
      match h with TimerFires => running sch = [] | _ => True end
      /\ match step poll vip sch h with
         | Some sch' => fires_when_idle poll vip sch' rest
         | None => True
         end
  end.

(* ================================================================== *)
(** ** A scripted platform, for running the model on concrete inputs *)
(* ================================================================== *)

Module Scripted.

(** The outcomes the network will give, request after request, and the
    clock. *)
Record Script : Type := {
  gets : list HttpOutcome;
  posts : list HttpOutcome;
  time : Z
}.

(** A site: for each document, its timeline items and its show-more link. *)
Definition Site : Type := list (string * (list TimelineItem * option string)).

Fixpoint find_doc (site : Site) (html : string) : list TimelineItem * option string :=
  match site with
  | [] => ([], None)
  | (h, d) :: r => if (h =? html)%string then d else find_doc r html
  end.

Definition decimal (s : string) : Num :=
  match s with
  | EmptyString => Finite 0
  | _ => match digits_value 0 s with
         | Some v => Finite v
         | None => NaN
         end
  end.

Definition platform (site : Site) : Platform :=
  {| World := Script;
     http_get := fun _ _ w =>
       match gets w with
       | [] => (Rejected "fetch failed", w)
       | o :: r => (o, {| gets := r; posts := posts w; time := time w |})
       end;
     http_post := fun _ _ _ _ w =>
       match posts w with
       | [] => (Rejected "fetch failed", w)
       | o :: r => (o, {| gets := gets w; posts := r; time := time w |})
       end;
     enrichTweets := fun l w =>
       (Returned (map (fun t => {| tweet_of := t; accountInfo := None |}) l), w);
     wait := fun ms w => {| gets := gets w; posts := posts w; time := time w + ms |};
     Date_now := fun w => (time w, w);
     Date_parse := fun s => isFinite (decimal s);
     Date_toISOString := dec;
     Number := decimal;
     URL_parse := fun s => if is_absolute s then Some ("/", "") else None;
     encodeURIComponent := fun s => s;
     timeline_items := fun html => fst (find_doc site html);
     show_more_href := fun html => snd (find_doc site html) |}.

Definition boot (site : Site) (w : Script) (d : option FileContent) : @Sys (platform site) :=
  @Build_Sys (platform site) w d [].

Definition ok (body : string) : HttpOutcome :=
  Responded {| res_ok := true; res_status := 200; res_statusText := "OK";
               res_text := Returned body; res_url := "" |}.

Definition status (code : Z) (txt : string) : HttpOutcome :=
  Responded {| res_ok := false; res_status := code; res_statusText := txt;
               res_text := Returned ""; res_url := "" |}.

(** A document long enough to pass the size check. *)
Definition doc (name : string) : string :=
  name ^^ " .................................................."
       ^^ ".................................................".

Definition item (permalink body hearts : string) (title : option string) : TimelineItem :=
  {| content_text := body; date_href := Some permalink; date_title := title;
     username_text := "@someone"; fullname_text := "Someone";
     comment_text := ""; retweet_text := ""; quote_text := ""; heart_text := hearts |}.

Definition opts (l : list string) (retries : Z) : FetchOptions :=
  {| instances := l; timeoutMs := 10000; retriesPerInstance := retries |}.

End Scripted.

(* ================================================================== *)
(** ** worker.ts and index.ts: keyword, domain and blacklist filters *)
(* ================================================================== *)

(** [toLowerCase] on a code unit below 256: the letters A-Z and the accented
    capitals (all of 192..222 but the multiplication sign). *)
Definition lower_unit (c : ascii) : ascii :=
  let n := nat_of_ascii c in
  if ((65 <=? n) && (n <=? 90) || (192 <=? n) && (n <=? 214) || (216 <=? n) && (n <=? 222))%nat
  then ascii_of_nat (n + 32)
  else c.

Fixpoint toLowerCase (s : string) : string :=
  match s with
  | EmptyString => EmptyString
  | String c r => String (lower_unit c) (toLowerCase r)
  end.

(** [s.replace(/^@/, "")]. *)
Definition strip_at (s : string) : string :=
  match s with
  | String "@" r => r
  | _ => s
  end.

(** [l.includes(x)] on an array of strings. *)
Definition mem (x : string) (l : list string) : bool :=
  existsb (fun y => (y =? x)%string) l.

Definition parseKeywords (raw : option string) : list string :=
  match raw with
  | None => []
  | Some r =>
      if negb (truthy r) then []
      else map toLowerCase (filter truthy (map trim (split_comma r)))
  end.

Definition parseDomains (raw : option string) : list string :=
  match raw with
  | None => []
  | Some r =>
      if negb (truthy r) then []
      else filter truthy (map (fun s => toLowerCase (trim s)) (split_comma r))
  end.

Definition parseBlacklist (raw : option string) : list string :=
  match raw with
  | None => []
  | Some r =>
      if negb (truthy r) then []
      else filter truthy (map (fun s => strip_at (toLowerCase (trim s))) (split_comma r))
  end.

Definition matchKeywords (text : string) (keywords : list string) : list string :=
  match keywords with
  | [] => []
  | _ => filter (fun kw => includes (toLowerCase text) kw) keywords
  end.

Definition matchDomains (text : string) (url : option string) (domains : list string)
    : list string :=
  match domains with
  | [] => []
  | _ =>
      let lowerText := toLowerCase text in
      let lowerUrl := match url with Some u => toLowerCase u | None => "" end in
      filter (fun d => includes lowerText d || includes lowerUrl d) domains
  end.

Definition isBlacklisted (authorHandle : option string) (blacklist : list string) : bool :=
  match blacklist, authorHandle with
  | [], _ => false
  | _, None => false
  | _, Some h =>
      if negb (truthy h) then false
      else mem (strip_at (toLowerCase h)) blacklist
  end.

(** A search result with the annotations the command line adds. *)
Record MatchedTweet : Type := {
  matched_tweet : TweetResult;
  matchedKeywords : option (list string);
  matchedDomains : option (list string)
}.

Definition some_if_nonempty (l : list string) : option (list string) :=
  match l with
  | [] => None
  | _ => Some l
  end.

(** index.ts, [main]: the value of [filtered]. *)
Definition filter_results (keywords domains blacklist : list string)
    (results : list TweetResult) : list MatchedTweet :=
  let allowed := filter (fun t => negb (isBlacklisted (authorHandle t) blacklist)) results in
  match keywords, domains with
  | [], [] =>
      map (fun t => {| matched_tweet := t; matchedKeywords := None; matchedDomains := None |})
          allowed
  | _, _ =>
      flat_map
        (fun t =>
           let matched := matchKeywords (text t) keywords in
           let matchedDoms := matchDomains (text t) (Some (url t)) domains in
           match matched, matchedDoms with
           | [], [] => []
           | _, _ => [ {| matched_tweet := t;
                          matchedKeywords := some_if_nonempty matched;
                          matchedDomains := some_if_nonempty matchedDoms |} ]
           end)
        allowed
  end.

(* ================================================================== *)
(** ** discord.ts: the description of an embed *)
(* ================================================================== *)

(** [tweet.text.length > 300 ? tweet.text.slice(0, 297) + "..." : tweet.text]. *)
Definition embed_description (text : string) : string :=
  if (300 <? String.length text)%nat then slice0 297 text ^^ "..." else text.

(* ================================================================== *)
(** ** enrichment.ts *)
(* ================================================================== *)

(** [Array.from(new Set(l))]: the first occurrence of each string, in order. *)
Fixpoint unique (seen l : list string) : list string :=
  match l with
  | [] => []
  | x :: r => if mem x seen then unique seen r else x :: unique (x :: seen) r
  end.

Section Enrichment.

(** [process.env.MAIN_ACCOUNT_HANDLE]; and, for each author handle of the
    batch, what the one [getUserInfo] call made for it resolves to (its
    followers and following counts) or rejects with, and what the one
    [checkFollows] call made for it answers ([checkFollows] catches its own
    errors). *)
Variable MAIN_ACCOUNT : option string.
Variable getUserInfo : string -> Completion (Z * Z).
Variable checkFollows : string -> bool.

(** The body of the callback of [authors.map]: the entry set for [handle]. *)
Definition author_info (handle : string) : AccountInfo :=
  match getUserInfo handle with
  | Threw _ =>
      {| followersCount := None; followingCount := None; followsUs := None;
         networkStatus := Some "Unknown" |}
  | Returned (followers, following) =>
      let cleanHandle := strip_at handle in
      let follows :=
        match MAIN_ACCOUNT with
        | Some main =>
            if truthy main && negb (toLowerCase cleanHandle =? toLowerCase main)%string
            then checkFollows handle
            else false
        | None => false
        end in
      {| followersCount := Some followers; followingCount := Some following;
         followsUs := Some follows;
         networkStatus := Some (if follows then "In-Network" else "Out-of-Network") |}
  end.

Definition authors_of (tweets : list TweetResult) : list string :=
  unique []
    (flat_map (fun t => match authorHandle t with
                        | Some h => if truthy h then [h] else []
                        | None => []
                        end) tweets).

Definition enrich (tweets : list TweetResult) : list EnrichedTweet :=
  let accountInfoMap := map (fun h => (h, author_info h)) (authors_of tweets) in
  map (fun t =>
         {| tweet_of := t;
            accountInfo :=
              match authorHandle t with
              | Some h => if truthy h then obj_get h accountInfoMap else None
              | None => None
              end |})
      tweets.

End Enrichment.

(* ================================================================== *)
(** ** vipTracker.ts *)
(* ================================================================== *)

Record VipItem : Type := {
  vip_handle : string;
  vip_name : option JSON;
  vip_category : option JSON
}.

(** The callback of [json.map] in [loadVips]; it throws on [null] and on a
    [handle] that is neither a string nor absent. *)
Definition vip_of_item (item : JSON) : Completion (option string * option JSON * option JSON) :=
  match item with
  | JStr s => Returned (Some (strip_at s), None, None)
  | JNull => Threw "TypeError: Cannot read properties of null (reading 'handle')"
  | JObj fields =>
      match obj_get "handle" fields with
      | None | Some JNull => Returned (None, obj_get "name" fields, obj_get "category" fields)
      | Some (JStr s) =>
          Returned (Some (strip_at s), obj_get "name" fields, obj_get "category" fields)
      | Some _ => Threw "TypeError: item.handle?.replace is not a function"
      end
  | _ => Returned (None, None, None)
  end.

Fixpoint vips_of_items (items : list JSON) : Completion (list VipItem) :=
  match items with
  | [] => Returned []
  | item :: rest =>
      match vip_of_item item with
      | Threw msg => Threw msg
      | Returned (h, n, c) =>
          match vips_of_items rest with
          | Threw msg => Threw msg
          | Returned l =>
              match h with
              | Some handle =>
                  if truthy handle
                  then Returned ({| vip_handle := handle; vip_name := n; vip_category := c |} :: l)
                  else Returned l
              | None => Returned l
              end
          end
      end
  end.

(** [loadVips], given the VIP list file. *)
Definition loadVips (file : option FileContent) : list VipItem :=
  match file with
  | Some (Parses (JArr items)) =>
      match vips_of_items items with
      | Returned l => l
      | Threw _ => []
      end
  | _ => []
  end.

(** What [main] has collected: the handles found to follow, those among them
    that the previous state did not list, and one result per VIP (whether it
    follows, or the error). *)
Record VipReport : Type := {
  currentFollowingHandles : list string;
  newFollowers : list string;
  vip_results : list (VipItem * Completion bool)
}.

Section CheckVips.
Variable W : Type.
(** [checkFollows(handle, MAIN_ACCOUNT)] and [setTimeout] on the outside
    world. *)
Variable follows_now : string -> W -> Completion bool * W.
Variable pause : Z -> W -> W.

(** [for (const vip of vips)], with the five-second pause after each VIP and
    the thirty-second one after an error that mentions 429. *)
Fixpoint check_each (followingHandles : list string) (vips : list VipItem)
    (r : VipReport) (w : W) : VipReport * W :=
  match vips with
  | [] => (r, w)
  | vip :: rest =>
      let (answer, w1) := follows_now (vip_handle vip) w in
      let (r1, w2) :=
        match answer with
        | Returned true =>
            ({| currentFollowingHandles := currentFollowingHandles r ++ [vip_handle vip];
                newFollowers :=
                  if mem (vip_handle vip) followingHandles then newFollowers r
                  else newFollowers r ++ [vip_handle vip];
                vip_results := vip_results r ++ [(vip, Returned true)] |}, w1)
        | Returned false =>
            ({| currentFollowingHandles := currentFollowingHandles r;
                newFollowers := newFollowers r;
                vip_results := vip_results r ++ [(vip, Returned false)] |}, w1)
        | Threw msg =>
            ({| currentFollowingHandles := currentFollowingHandles r;
                newFollowers := newFollowers r;
                vip_results := vip_results r ++ [(vip, Threw msg)] |},
             if includes msg "429" then pause 30000 w1 else w1)
        end in
      check_each followingHandles rest r1 (pause 5000 w2)
  end.

(** The loop of [main], from the empty report; [followingHandles] is the list
    of the previous state and the [currentFollowingHandles] of the result is
    the list of the state that is saved. *)
Definition checkVips (followingHandles : list string) (vips : list VipItem) (w : W)
    : VipReport * W :=
  check_each followingHandles vips
    {| currentFollowingHandles := []; newFollowers := []; vip_results := [] |} w.

End CheckVips.

(* ================================================================== *)
(** * Properties *)
(* ================================================================== *)

(* ================================================================== *)
(** ** The mirror fetcher: which requests a call makes *)
(* ================================================================== *)

Definition is_get (e : Event) : bool :=
  match e with
  | EvGet _ _ _ _ => true
  | _ => false
  end.

(** The GET requests of a log, in order. *)
Definition requests (evs : list Event) : list Event := filter is_get evs.

(** [k] failed attempts on one mirror, numbered from [a]. *)
Definition failed_attempts (base url : string) (a : Z) (k : nat) : list Event :=
  map (fun i => EvGet base url (a + Z.of_nat i) false) (seq 0 k).

(** Every mirror of [bases] tried [n] times without success. *)
Definition exhausted (target : string -> string) (n : nat) (bases : list string) : list Event :=
  flat_map (fun b => failed_attempts b (target b) 0 n) bases.

(** The requests of a call that succeeds on mirror [b] at attempt [k], after
    the mirrors [done] failed throughout. *)
Definition served (target : string -> string) (n : nat) (done : list string)
    (b : string) (k : nat) : list Event :=
  exhausted target n done
  ++ failed_attempts b (target b) 0 k
  ++ [EvGet b (target b) (Z.of_nat k) true].

(** The number of times the retry loop runs on one mirror. *)
Definition attempts_per_mirror (opts : FetchOptions) : nat :=
  Z.to_nat (retriesPerInstance opts + 1).

(** The URL a call for [pathOrUrl] requests on mirror [base]. *)
Definition target (pathOrUrl base : string) : string :=
  request_url (is_absolute pathOrUrl) pathOrUrl pathOrUrl base.

(** [new URL(pathOrUrl)] does not throw where the fetcher evaluates it. *)
Definition url_accepted `{Platform} (pathOrUrl : string) : Prop :=
  is_absolute pathOrUrl = true -> URL_parse pathOrUrl <> None.

Section FetcherFacts.
Context `{Platform}.

Lemma requests_app (l1 l2 : list Event) :
  requests (l1 ++ l2) = requests l1 ++ requests l2.
Proof. apply filter_app. Qed.

Lemma failed_attempts_S base url a k :
  failed_attempts base url a (S k)
  = EvGet base url a false :: failed_attempts base url (a + 1) k.
Proof.
  unfold failed_attempts. cbn [seq map]. rewrite Z.add_0_r. f_equal.
  rewrite <- seq_shift, map_map. apply map_ext. intros i.
  f_equal. lia.
Qed.

Lemma requests_failed_attempts base url a k :
  requests (failed_attempts base url a k) = failed_attempts base url a k.
Proof.
  unfold requests, failed_attempts.
  induction (seq 0 k) as [|i l IH]; cbn; [reflexivity | now rewrite IH].
Qed.

Lemma attempt_once_spec base url opts a s r s' :
  attempt_once base url opts a s = (r, s') ->
  events s' = events s ++ [EvGet base url a (is_plausible r)]
  /\ disk s' = disk s
  /\ (forall f, r = Returned f -> instanceUsed f = base).
Proof.
  unfold attempt_once. destruct (http_get url (timeoutMs opts) (world s)) as [out w].
  intros E. inversion E; subst; clear E. cbn. repeat split.
  intros f Hf. unfold check_response in Hf.
  destruct out as [msg|res]; [discriminate|].
  destruct (negb (res_ok res)); [discriminate|].
  destruct (res_text res) as [body|msg]; [|discriminate].
  destruct (negb (truthy body) || (String.length body <? 100)%nat); [discriminate|].
  destruct (includes body "Verifying your browser"); [discriminate|].
  inversion Hf; reflexivity.
Qed.

Lemma sleep_spec ms s :
  events (snd (sleep ms s)) = events s ++ [EvSleep ms]
  /\ disk (snd (sleep ms s)) = disk s.
Proof. unfold sleep, bind, emit, io. cbn. split; reflexivity. Qed.

(** The retry loop on one mirror: failures only, then at most one success,
    which ends it. *)
Lemma attempts_spec n : forall a base url opts le s,
  match attempts n a base url opts le s with
  | (inr le', s') =>
      exists new, events s' = events s ++ new
        /\ requests new = failed_attempts base url a n
        /\ disk s' = disk s
        /\ (n = O -> le' = le) /\ (n <> O -> le' <> None)
  | (inl f, s') =>
      exists new k, (k < n)%nat
        /\ events s' = events s ++ new
        /\ requests new
           = failed_attempts base url a k ++ [EvGet base url (a + Z.of_nat k) true]
        /\ disk s' = disk s
        /\ instanceUsed f = base
  end.
Proof.
  induction n as [|n IH]; intros a base url opts le s; cbn [attempts].
  - exists []. rewrite app_nil_r. repeat split; congruence.
  - destruct (attempt_once base url opts a s) as [r s1] eqn:E1.
    destruct (attempt_once_spec _ _ _ _ _ E1) as (Hev & Hd & Hbase).
    destruct r as [f|err].
    + exists [EvGet base url a true], O. cbn in Hev |- *.
      rewrite Z.add_0_r. repeat split; auto with arith.
    + set (s2 := if a <? retriesPerInstance opts
                 then snd (sleep (250 * (a + 1)) s1) else s1).
      assert (Hs2 : exists mid, events s2 = events s1 ++ mid
                                /\ requests mid = [] /\ disk s2 = disk s1).
      { subst s2. destruct (a <? retriesPerInstance opts).
        - destruct (sleep_spec (250 * (a + 1)) s1) as [He Hdk].
          exists [EvSleep (250 * (a + 1))]. auto.
        - exists []. rewrite app_nil_r. auto. }
      destruct Hs2 as (mid & Hmid & Hreq & Hd2).
      specialize (IH (a + 1) base url opts (Some err) s2).
      destruct (attempts n (a + 1) base url opts (Some err) s2) as [[f|le'] s3].
      * destruct IH as (new & k & Hk & Hev3 & Hr3 & Hd3 & Hb).
        exists ([EvGet base url a false] ++ mid ++ new), (S k).
        repeat split; [lia | | | congruence | assumption].
        -- rewrite Hev3, Hmid, Hev. cbn. now rewrite <- !app_assoc.
        -- rewrite !requests_app, Hreq, Hr3, failed_attempts_S. cbn [requests filter is_get app].
           replace (a + Z.of_nat (S k)) with (a + 1 + Z.of_nat k) by lia. reflexivity.
      * destruct IH as (new & Hev3 & Hr3 & Hd3 & Hle0 & Hle).
        exists ([EvGet base url a false] ++ mid ++ new).
        repeat split; [ | | congruence | discriminate | ].
        -- rewrite Hev3, Hmid, Hev. cbn. now rewrite <- !app_assoc.
        -- rewrite !requests_app, Hreq, Hr3, failed_attempts_S. reflexivity.
        -- intros _. destruct n as [|n'].
           ++ rewrite Hle0; [discriminate | reflexivity].
           ++ apply Hle. discriminate.
Qed.

Lemma mirrors_spec bases : forall isAbsolute pathOrUrl path opts le s,
  match mirrors bases isAbsolute pathOrUrl path opts le s with
  | (inr le', s') =>
      exists new, events s' = events s ++ new
        /\ requests new
           = exhausted (request_url isAbsolute pathOrUrl path) (attempts_per_mirror opts) bases
        /\ disk s' = disk s
  | (inl f, s') =>
      exists new done rest k, bases = done ++ instanceUsed f :: rest
        /\ (k < attempts_per_mirror opts)%nat
        /\ events s' = events s ++ new
        /\ requests new
           = served (request_url isAbsolute pathOrUrl path) (attempts_per_mirror opts)
                    done (instanceUsed f) k
        /\ disk s' = disk s
  end.
Proof.
  induction bases as [|b bases IH]; intros isAbsolute pathOrUrl path opts le s;
    cbn [mirrors].
  - exists []. rewrite app_nil_r. repeat split.
  - fold (attempts_per_mirror opts).
    set (n := attempts_per_mirror opts).
    set (tg := request_url isAbsolute pathOrUrl path).
    pose proof (attempts_spec n 0 b (tg b) opts le s) as HA.
    destruct (attempts n 0 b (tg b) opts le s) as [[f|le1] s1].
    + destruct HA as (new & k & Hk & Hev & Hreq & Hd & Hb).
      exists new, [], bases, k. subst b. cbn. repeat split; auto.
    + destruct HA as (new & Hev & Hreq & Hd & _).
      specialize (IH isAbsolute pathOrUrl path opts le1 s1).
      fold n in IH. fold tg in IH.
      destruct (mirrors bases isAbsolute pathOrUrl path opts le1 s1) as [[f|le2] s2].
      * destruct IH as (new2 & done & rest & k & Hb & Hk & Hev2 & Hreq2 & Hd2).
        exists (new ++ new2), (b :: done), rest, k.
        repeat split; [now rewrite Hb | assumption | | | congruence].
        -- rewrite Hev2, Hev. now rewrite app_assoc.
        -- rewrite requests_app, Hreq, Hreq2. unfold served, exhausted. cbn [flat_map].
           now rewrite <- !app_assoc.
      * destruct IH as (new2 & Hev2 & Hreq2 & Hd2).
        exists (new ++ new2).
        repeat split; [ | | congruence ].
        -- rewrite Hev2, Hev. now rewrite app_assoc.
        -- rewrite requests_app, Hreq, Hreq2. reflexivity.
Qed.

(** What a call of the fetcher does, in every case. *)
Lemma fetch_spec pathOrUrl opts s :
  let bases := cleanInstances (instances opts) in
  let n := attempts_per_mirror opts in
  match fetchHtmlWithFallback pathOrUrl opts s with
  | (Returned f, s') =>
      exists new done rest k, bases = done ++ instanceUsed f :: rest
        /\ (k < n)%nat
        /\ events s' = events s ++ new
        /\ requests new = served (target pathOrUrl) n done (instanceUsed f) k
        /\ disk s' = disk s
  | (Threw msg, s') =>
      disk s' = disk s /\
      ((s' = s /\ (bases = [] \/ ~ url_accepted pathOrUrl))
       \/ (bases <> [] /\ url_accepted pathOrUrl /\
           exists new, events s' = events s ++ new
             /\ requests new = exhausted (target pathOrUrl) n bases))
  end.
Proof.
  intros bases n. unfold fetchHtmlWithFallback. fold bases.
  destruct bases as [|b0 bs] eqn:Eb; cbn [length Nat.eqb].
  - unfold throw. split; [reflexivity|]. left. auto.
  - assert (Hne : b0 :: bs <> []) by discriminate.
    destruct (is_absolute pathOrUrl) eqn:Eabs.
    + destruct (URL_parse pathOrUrl) as [[pathname search]|] eqn:Eurl.
      * pose proof (mirrors_spec (b0 :: bs) true pathOrUrl (pathname ^^ search) opts None s) as HM.
        assert (Htg : request_url true pathOrUrl (pathname ^^ search) = target pathOrUrl).
        { unfold target. rewrite Eabs. reflexivity. }
        rewrite Htg in HM. fold n in HM.
        destruct (mirrors (b0 :: bs) true pathOrUrl (pathname ^^ search) opts None s)
          as [[f|le] s'].
        -- exact HM.
        -- destruct HM as (new & Hev & Hreq & Hd). split; [assumption|]. right.
           repeat split; [assumption | | eauto].
           intros _. rewrite Eurl. discriminate.
      * unfold throw. split; [reflexivity|]. left. split; [reflexivity|]. right.
        intros Hacc. now apply Hacc.
    + pose proof (mirrors_spec (b0 :: bs) false pathOrUrl pathOrUrl opts None s) as HM.
      assert (Htg : request_url false pathOrUrl pathOrUrl = target pathOrUrl).
      { unfold target. rewrite Eabs. reflexivity. }
      rewrite Htg in HM. fold n in HM.
      destruct (mirrors (b0 :: bs) false pathOrUrl pathOrUrl opts None s) as [[f|le] s'].
      * exact HM.
      * destruct HM as (new & Hev & Hreq & Hd). split; [assumption|]. right.
        repeat split; [assumption | | eauto].
        intros Habs. congruence.
Qed.

Lemma target_absolute pathOrUrl base :
  is_absolute pathOrUrl = true -> target pathOrUrl base = pathOrUrl.
Proof. unfold target, request_url. now intros ->. Qed.

Lemma attempts_per_mirror_retries opts :
  0 <= retriesPerInstance opts ->
  Z.of_nat (attempts_per_mirror opts) = retriesPerInstance opts + 1.
Proof. unfold attempts_per_mirror. lia. Qed.

(** The loop over the mirrors, entered with the path the fetcher computed,
    requests [target] on every mirror. *)
Lemma fetch_unfold pathOrUrl opts s :
  cleanInstances (instances opts) <> [] ->
  url_accepted pathOrUrl ->
  exists path,
    request_url (is_absolute pathOrUrl) pathOrUrl path = target pathOrUrl
    /\ fetchHtmlWithFallback pathOrUrl opts s
       = match mirrors (cleanInstances (instances opts)) (is_absolute pathOrUrl)
                       pathOrUrl path opts None s with
         | (inl r, s1) => (Returned r, s1)
         | (inr lastError, s1) =>
             (Threw ("All Nitter instances failed. Last error: "
                     ^^ match lastError with
                        | Some m => m
                        | None => "Unknown error: undefined"
                        end), s1)
         end.
Proof.
  intros Hne Hacc. unfold fetchHtmlWithFallback.
  destruct (cleanInstances (instances opts)) as [|b0 bs]; [congruence|].
  cbn [length Nat.eqb]. unfold url_accepted in Hacc. unfold target.
  destruct (is_absolute pathOrUrl).
  - destruct (URL_parse pathOrUrl) as [[pathname search]|].
    + exists (pathname ^^ search). split; reflexivity.
    + exfalso. now apply Hacc.
  - exists pathOrUrl. split; reflexivity.
Qed.

Lemma attempts_per_mirror_max opts :
  Z.of_nat (attempts_per_mirror opts) = Z.max 0 (retriesPerInstance opts + 1).
Proof. unfold attempts_per_mirror. lia. Qed.

(** C4.  The fetcher goes through the (cleaned) mirrors in order, tries each
    at most [retriesPerInstance + 1] times, and returns at the first plausible
    document: the requests of a call that returns are full rounds of failures
    on the mirrors before the serving one, then failures on the serving one,
    then the one success; a call that throws has made no request (no mirror is
    left after cleaning, or [new URL] rejected the absolute URL) or a full
    round of failures on every mirror.  In particular, when the retry loop
    fails throughout on the first mirror and the first attempt on the second
    succeeds, [instanceUsed] is the second mirror and the requests are those
    on the first mirror and the one on the second: none goes to a third. *)
Theorem fetch_tries_mirrors_in_order pathOrUrl opts s :
  let bases := cleanInstances (instances opts) in
  let n := attempts_per_mirror opts in
  Z.of_nat n = Z.max 0 (retriesPerInstance opts + 1)
  /\ match fetchHtmlWithFallback pathOrUrl opts s with
     | (Returned f, s') =>
         exists new done rest k, bases = done ++ instanceUsed f :: rest
           /\ (k < n)%nat
           /\ events s' = events s ++ new
           /\ requests new = served (target pathOrUrl) n done (instanceUsed f) k
     | (Threw _, s') =>
         (s' = s /\ (bases = [] \/ ~ url_accepted pathOrUrl))
         \/ (exists new, events s' = events s ++ new
               /\ requests new = exhausted (target pathOrUrl) n bases)
     end
  /\ (forall m1 m2 rest e s1 f s2,
        bases = m1 :: m2 :: rest ->
        url_accepted pathOrUrl ->
        0 <= retriesPerInstance opts ->
        attempts n 0 m1 (target pathOrUrl m1) opts None s = (inr e, s1) ->
        attempt_once m2 (target pathOrUrl m2) opts 0 s1 = (Returned f, s2) ->
        fetchHtmlWithFallback pathOrUrl opts s = (Returned f, s2)
        /\ instanceUsed f = m2
        /\ exists new, events s2 = events s ++ new
             /\ requests new
                = failed_attempts m1 (target pathOrUrl m1) 0 n
                  ++ [EvGet m2 (target pathOrUrl m2) 0 true]).
Proof.
  intros bases n. split; [apply attempts_per_mirror_max|]. split.
  - pose proof (fetch_spec pathOrUrl opts s) as HS. cbv zeta in HS.
    fold bases in HS. fold n in HS.
    destruct (fetchHtmlWithFallback pathOrUrl opts s) as [[f|msg] s'].
    + destruct HS as (new & done & rest & k & H1 & H2 & H3 & H4 & _). eauto 8.
    + destruct HS as (_ & [Hnone | (_ & _ & HS)]); [left | right]; assumption.
  - intros m1 m2 rest e s1 f s2 Hb Hacc Hr Hfail Hok.
    assert (Hne : cleanInstances (instances opts) <> []).
    { fold bases. rewrite Hb. discriminate. }
    destruct (@fetch_unfold pathOrUrl opts s Hne Hacc) as (path & Htg & Hfetch).
    fold bases in Hfetch. rewrite Hfetch, Hb. cbn [mirrors].
    fold (attempts_per_mirror opts). fold n. rewrite !Htg, Hfail.
    assert (Hn : exists n', n = S n').
    { pose proof (attempts_per_mirror_retries opts Hr) as Hn. subst n.
      destruct (attempts_per_mirror opts) as [|n']; [lia | eauto]. }
    destruct Hn as (n' & Hn). rewrite Hn. cbn [attempts]. rewrite Hok.
    split; [reflexivity|].
    destruct (attempt_once_spec _ _ _ _ _ Hok) as (Hev2 & _ & Hbase).
    split; [now apply Hbase|].
    pose proof (attempts_spec n 0 m1 (target pathOrUrl m1) opts None s) as HA.
    rewrite Hfail in HA. destruct HA as (new & Hev1 & Hreq & _).
    exists (new ++ [EvGet m2 (target pathOrUrl m2) 0 true]). split.
    + rewrite Hev2, Hev1. cbn. now rewrite app_assoc.
    + rewrite requests_app, Hreq, Hn. reflexivity.
Qed.

Definition requested_url (e : Event) : option string :=
  match e with
  | EvGet _ u _ _ => Some u
  | _ => None
  end.

Lemma failed_attempts_urls base u a k :
  Forall (fun e => requested_url e = Some u) (failed_attempts base u a k).
Proof. unfold failed_attempts. apply Forall_map, Forall_forall. reflexivity. Qed.

Lemma exhausted_urls tg u n bases :
  (forall b, tg b = u) ->
  Forall (fun e => requested_url e = Some u) (exhausted tg n bases).
Proof.
  intros Htg. unfold exhausted. apply Forall_flat_map, Forall_forall. intros b _.
  rewrite Htg. apply failed_attempts_urls.
Qed.

Lemma exhausted_const_length tg n bases :
  length (exhausted tg n bases) = (n * length bases)%nat.
Proof.
  unfold exhausted. induction bases as [|b bs IH]; cbn [flat_map length].
  - lia.
  - rewrite length_app, IH. unfold failed_attempts. rewrite length_map, length_seq. lia.
Qed.

(** C10.  For an absolute URL every request of the call, on whichever mirror,
    asks for that same URL: the mirror's base address never enters it.  When
    no attempt succeeds the call has made [retriesPerInstance + 1] requests
    for it per configured mirror. *)
Theorem absolute_url_is_never_rebased pathOrUrl opts s :
  is_absolute pathOrUrl = true ->
  let n := attempts_per_mirror opts in
  let bases := cleanInstances (instances opts) in
  (forall base, request_url (is_absolute pathOrUrl) pathOrUrl pathOrUrl base = pathOrUrl)
  /\ exists new,
       events (snd (fetchHtmlWithFallback pathOrUrl opts s)) = events s ++ new
       /\ Forall (fun e => requested_url e = Some pathOrUrl) (requests new)
       /\ (length (requests new) <= n * length bases)%nat
       /\ (url_accepted pathOrUrl ->
           (forall f, fst (fetchHtmlWithFallback pathOrUrl opts s) <> Returned f) ->
           requests new
           = flat_map (fun b => failed_attempts b pathOrUrl 0 n) bases).
Proof.
  intros Habs n bases. split.
  { intros base. now apply target_absolute. }
  pose proof (fetch_spec pathOrUrl opts s) as HS. cbv zeta in HS.
  fold bases in HS. fold n in HS.
  assert (Htg : forall b, target pathOrUrl b = pathOrUrl).
  { intros b. now apply target_absolute. }
  destruct (fetchHtmlWithFallback pathOrUrl opts s) as [[f|msg] s']; cbn [fst snd].
  - destruct HS as (new & done & rest & k & Hb & Hk & Hev & Hreq & _).
    exists new. split; [assumption|]. rewrite Hreq. unfold served. repeat split.
    + apply Forall_app. split; [now apply exhausted_urls|].
      apply Forall_app. split.
      * rewrite Htg. apply failed_attempts_urls.
      * constructor; [|constructor]. cbn. now rewrite Htg.
    + rewrite !length_app, exhausted_const_length, Hb, length_app. cbn [length].
      unfold failed_attempts. rewrite length_map, length_seq. nia.
    + intros _ Hno. exfalso. now apply (Hno f).
  - destruct HS as (_ & [(-> & Hwhy) | (Hne & Hacc & new & Hev & Hreq)]).
    + exists []. rewrite app_nil_r. cbn. repeat split.
      * constructor.
      * lia.
      * intros Hacc _. destruct Hwhy as [-> | Hno]; [reflexivity | contradiction].
    + exists new. split; [assumption|]. rewrite Hreq. repeat split.
      * now apply exhausted_urls.
      * now rewrite exhausted_const_length.
      * intros _ _. unfold exhausted. apply flat_map_ext. intros b. now rewrite Htg.
Qed.

End FetcherFacts.

(* ================================================================== *)
(** ** The search aggregator: accumulator and page loop *)
(* ================================================================== *)

Section SearchFacts.
Context `{Platform}.

Lemma has_id_In results i :
  has_id results i = true <-> In i (map id results).
Proof.
  unfold has_id. rewrite existsb_exists, in_map_iff. split.
  - intros (r & Hin & E). apply String.eqb_eq in E. eauto.
  - intros (r & E & Hin). exists r. split; [assumption|]. now apply String.eqb_eq.
Qed.

Lemma NoDup_snoc {A} (l : list A) (x : A) :
  NoDup l -> ~ In x l -> NoDup (l ++ [x]).
Proof.
  induction 1 as [|y l Hy Hl IH]; intros Hx; cbn.
  - constructor; [intros []| constructor].
  - constructor.
    + rewrite in_app_iff. intros [Hin | [E | []]]; [contradiction|].
      subst. apply Hx. now left.
    + apply IH. intros Hin. apply Hx. now right.
Qed.

Lemma push_page_NoDup limit pageTweets : forall results,
  NoDup (map id results) -> NoDup (map id (push_page limit results pageTweets)).
Proof.
  induction pageTweets as [|t rest IH]; intros results Hnd; cbn [push_page].
  - assumption.
  - destruct (Z.of_nat (length results) >=? limit); [assumption|].
    destruct (has_id results (id t)) eqn:Eh.
    + now apply IH.
    + apply IH. rewrite map_app. cbn. apply NoDup_snoc; [assumption|].
      intros Hin. apply has_id_In in Hin. congruence.
Qed.

Lemma push_page_extends limit pageTweets : forall results,
  exists more, push_page limit results pageTweets = results ++ more.
Proof.
  induction pageTweets as [|t rest IH]; intros results; cbn [push_page].
  - exists []. now rewrite app_nil_r.
  - destruct (Z.of_nat (length results) >=? limit).
    + exists []. now rewrite app_nil_r.
    + destruct (has_id results (id t)).
      * apply IH.
      * destruct (IH (results ++ [t])) as (more & E). exists (t :: more).
        rewrite E, <- app_assoc. reflexivity.
Qed.

(** A record whose identifier the accumulator holds is passed over. *)
Lemma push_page_seen limit results t rest :
  has_id results (id t) = true ->
  push_page limit results (t :: rest) = push_page limit results rest.
Proof.
  intros Hseen. cbn [push_page]. rewrite Hseen.
  destruct (Z.of_nat (length results) >=? limit) eqn:E; [|reflexivity].
  destruct rest as [|t' rest']; cbn [push_page]; [reflexivity|]. now rewrite E.
Qed.

(** Every record of a page is in the accumulator afterwards, unless the limit
    was reached. *)
Lemma push_page_covers limit pageTweets : forall results t,
  In t pageTweets ->
  In (id t) (map id (push_page limit results pageTweets))
  \/ limit <= Z.of_nat (length (push_page limit results pageTweets)).
Proof.
  induction pageTweets as [|t0 rest IH]; intros results t Hin; [destruct Hin|].
  cbn [push_page]. destruct (Z.of_nat (length results) >=? limit) eqn:El.
  - right. apply Z.geb_le in El. lia.
  - destruct (has_id results (id t0)) eqn:Eh.
    + destruct Hin as [<- | Hin]; [|now apply IH].
      left. destruct (push_page_extends limit rest results) as (more & ->).
      rewrite map_app, in_app_iff. left. now apply has_id_In.
    + destruct Hin as [<- | Hin]; [|now apply IH].
      left. destruct (push_page_extends limit rest (results ++ [t0])) as (more & ->).
      rewrite !map_app, !in_app_iff. left. right. now left.
Qed.

(** What one iteration of the page loop leaves behind. *)
Lemma loop_body_spec limit opts st s st1 err s1 :
  loop_body limit opts st s = ((st1, err), s1) ->
  (exists more, acc st1 = acc st ++ more)
  /\ (NoDup (map id (acc st)) -> NoDup (map id (acc st1)))
  /\ (err = None -> page st1 = S (page st))
  /\ (exists new, events s1 = events s ++ new
        /\ (length (requests new)
            <= attempts_per_mirror opts * length (cleanInstances (instances opts)))%nat)
  /\ disk s1 = disk s.
Proof.
  unfold loop_body. set (p := match nextPath st with Some p => p | None => "" end).
  pose proof (fetch_spec p opts s) as HS. cbv zeta in HS.
  destruct (fetchHtmlWithFallback p opts s) as [[f|msg] s'].
  - destruct HS as (new & done & rest & k & Hb & Hk & Hev & Hreq & Hd).
    assert (Hbound : exists new, events s' = events s ++ new
        /\ (length (requests new)
            <= attempts_per_mirror opts * length (cleanInstances (instances opts)))%nat).
    { exists new. split; [assumption|]. rewrite Hreq, Hb. unfold served.
      rewrite !length_app, exhausted_const_length. cbn [length].
      unfold failed_attempts. rewrite length_map, length_seq. nia. }
    set (res := push_page limit (acc st) (extractTweetsFromHtml (html f) (instanceUsed f))).
    destruct (if Z.of_nat (length res) <? limit
              then extractShowMorePath (html f) else Returned None) as [np|msg];
      intros E; inversion E; subst; clear E; cbn [acc page];
      (split; [apply push_page_extends|]);
      (split; [apply push_page_NoDup|]);
      (split; [try discriminate; reflexivity|]);
      (split; assumption).
  - intros E; inversion E; subst; clear E.
    split; [exists []; now rewrite app_nil_r|].
    split; [auto|]. split; [discriminate|].
    destruct HS as (Hd & [(-> & _) | (_ & _ & new & Hev & Hreq)]).
    + split; [|reflexivity].
      exists []. rewrite app_nil_r. split; [reflexivity | cbn; lia].
    + split; [|assumption].
      exists new. split; [assumption|]. rewrite Hreq, exhausted_const_length. lia.
Qed.

Lemma loop_guard_page limit st :
  loop_guard limit st = true -> (page st < 10)%nat.
Proof.
  unfold loop_guard. rewrite !andb_true_iff, Nat.ltb_lt. tauto.
Qed.

(** Ten iterations are all the page loop can use: more fuel changes nothing. *)
Lemma search_pages_fuel limit opts fuel1 : forall fuel2 st s,
  (10 - page st <= fuel1)%nat -> (10 - page st <= fuel2)%nat ->
  search_pages fuel1 limit opts st s = search_pages fuel2 limit opts st s.
Proof.
  induction fuel1 as [|k IH]; intros fuel2 st s H1 H2.
  - destruct fuel2 as [|k2]; [reflexivity|]. cbn [search_pages].
    destruct (loop_guard limit st) eqn:G; [|reflexivity].
    apply loop_guard_page in G. lia.
  - cbn [search_pages]. destruct fuel2 as [|k2]; cbn [search_pages].
    + destruct (loop_guard limit st) eqn:G; [|reflexivity].
      apply loop_guard_page in G. lia.
    + destruct (loop_guard limit st) eqn:G; [|reflexivity].
      destruct (loop_body limit opts st s) as [[st1 [msg|]] s1] eqn:EB; [reflexivity|].
      destruct (loop_body_spec _ _ _ _ EB) as (_ & _ & Hp & _).
      specialize (Hp eq_refl). apply IH; lia.
Qed.

(** The loop run from the variables [st] on. *)
Definition run_from (limit : Z) (opts : FetchOptions) (st : LoopState) (s : Sys)
    : (LoopState * option string) * Sys :=
  search_pages (10 - page st) limit opts st s.

Lemma run_from_stop limit opts st s :
  loop_guard limit st = false -> run_from limit opts st s = ((st, None), s).
Proof.
  intros G. unfold run_from. destruct (10 - page st)%nat; cbn [search_pages];
    [reflexivity | now rewrite G].
Qed.

Lemma run_from_step limit opts st s :
  loop_guard limit st = true ->
  run_from limit opts st s
  = match loop_body limit opts st s with
    | ((st1, Some msg), s1) => ((st1, Some msg), s1)
    | ((st1, None), s1) => run_from limit opts st1 s1
    end.
Proof.
  intros G. unfold run_from. pose proof (loop_guard_page _ _ G) as Hp.
  destruct (10 - page st)%nat as [|k] eqn:Ek; [lia|]. cbn [search_pages]. rewrite G.
  destruct (loop_body limit opts st s) as [[st1 [msg|]] s1] eqn:EB; [reflexivity|].
  destruct (loop_body_spec _ _ _ _ EB) as (_ & _ & Hpage & _).
  specialize (Hpage eq_refl). apply search_pages_fuel; lia.
Qed.

(** The page loop, whatever the source answers: it ends within ten
    iterations with the accumulator extended, free of duplicates, and with the
    loop condition false unless an iteration threw. *)
Lemma search_pages_spec limit opts fuel : forall st s st' err s',
  (10 - page st <= fuel)%nat ->
  search_pages fuel limit opts st s = ((st', err), s') ->
  (exists more, acc st' = acc st ++ more)
  /\ (NoDup (map id (acc st)) -> NoDup (map id (acc st')))
  /\ (page st <= page st')%nat
  /\ (page st <= 10 -> page st' <= 10)%nat
  /\ (err = None -> loop_guard limit st' = false)
  /\ (exists new, events s' = events s ++ new
        /\ (length (requests new)
            <= (10 - page st)
               * (attempts_per_mirror opts * length (cleanInstances (instances opts))))%nat)
  /\ disk s' = disk s.
Proof.
  induction fuel as [|k IH]; intros st s st' err s' Hfuel E; cbn [search_pages] in E.
  - inversion E; subst; clear E.
    assert (G : loop_guard limit st' = false).
    { destruct (loop_guard limit st') eqn:G; [|reflexivity].
      apply loop_guard_page in G. lia. }
    repeat split; auto; try lia.
    + exists []. now rewrite app_nil_r.
    + exists []. rewrite app_nil_r. split; [reflexivity | cbn; lia].
  - destruct (loop_guard limit st) eqn:G.
    + pose proof (loop_guard_page _ _ G) as Hp.
      destruct (loop_body limit opts st s) as [[st1 e1] s1] eqn:EB.
      destruct (loop_body_spec _ _ _ _ EB)
        as ((more & Hacc) & Hnd & Hpage & (new & Hev & Hreq) & Hd).
      destruct e1 as [msg|].
      * inversion E; subst; clear E.
        assert (Hpg : page st' = page st).
        { unfold loop_body in EB.
          destruct (fetchHtmlWithFallback _ opts s) as [[f|m] sx].
          - destruct (if Z.of_nat (length _) <? limit then _ else _);
              inversion EB; subst; reflexivity.
          - inversion EB; subst; reflexivity. }
        repeat split; eauto; try lia; try discriminate.
        exists new. split; [assumption|]. nia.
      * specialize (Hpage eq_refl).
        destruct (IH st1 s1 st' err s' ltac:(lia) E)
          as ((more2 & Hacc2) & Hnd2 & Hp2 & Hp10 & Hg & (new2 & Hev2 & Hreq2) & Hd2).
        repeat split; auto; try lia; try congruence.
        -- exists (more ++ more2). now rewrite Hacc2, Hacc, app_assoc.
        -- exists (new ++ new2). split.
           ++ now rewrite Hev2, Hev, app_assoc.
           ++ rewrite requests_app, length_app. rewrite Hpage in Hreq2. nia.
    + inversion E; subst; clear E. repeat split; auto; try lia.
      * exists []. now rewrite app_nil_r.
      * exists []. rewrite app_nil_r. split; [reflexivity | cbn; lia].
Qed.

End SearchFacts.

(** Successful iterations of the page loop: from the variables and system
    state on the left to those on the right. *)
Inductive iterates `{Platform} (limit : Z) (opts : FetchOptions)
    : LoopState -> Sys -> LoopState -> Sys -> Prop :=
| iterates_refl st s : iterates limit opts st s st s
| iterates_step st s st1 s1 st2 s2 :
    loop_guard limit st = true ->
    loop_body limit opts st s = ((st1, None), s1) ->
    iterates limit opts st1 s1 st2 s2 ->
    iterates limit opts st s st2 s2.

(** The path the next iteration fetches. *)
Definition path_of (st : LoopState) : string :=
  match nextPath st with
  | Some p => p
  | None => ""
  end.

Definition failure_text (collected : nat) (errorMsg : string) : string :=
  "Failed after fetching " ^^ dec_nat collected ^^ " results: " ^^ errorMsg.

Section SearchClaims.
Context `{Platform}.

Lemma search_unfold q limit opts s :
  exists st err s1 s2,
    search_pages 10 limit opts (search_start q) s = ((st, err), s1)
    /\ events s2 = events s1 /\ disk s2 = disk s1
    /\ exists r,
         searchNitterGlobal q limit opts s = (Returned r, s2)
         /\ query r = q
         /\ results r = acc st
         /\ error r = match err with
                      | Some m => Some (failure_text (length (acc st)) m)
                      | None => None
                      end.
Proof.
  unfold searchNitterGlobal.
  destruct (search_pages 10 limit opts (search_start q) s) as [[st err] s1] eqn:E.
  unfold bind, now, io, ret. destruct (Date_now (world s1)) as [t w] eqn:Et.
  exists st, err, s1, {| world := w; disk := disk s1; events := events s1 |}.
  split; [reflexivity|]. split; [reflexivity|]. split; [reflexivity|].
  eexists. split; [reflexivity|]. cbn [query results error].
  split; [reflexivity|]. split; [reflexivity|].
  destruct err; reflexivity.
Qed.

Lemma iterates_one limit opts st s :
  loop_guard limit st = true ->
  snd (fst (loop_body limit opts st s)) = None ->
  iterates limit opts st s (fst (fst (loop_body limit opts st s)))
           (snd (loop_body limit opts st s)).
Proof.
  intros G E. destruct (loop_body limit opts st s) as [[st1 e] s1] eqn:EB.
  cbn in E |- *. subst e. eapply iterates_step; [exact G | exact EB | apply iterates_refl].
Qed.

Lemma threw_from_fst {A} `{Platform} (x : Completion A * Sys) msg :
  fst x = Threw msg -> x = (Threw msg, snd x).
Proof. destruct x as [c s]. cbn. now intros ->. Qed.

Lemma returned_from_fst {A} `{Platform} (x : Completion A * Sys) a :
  fst x = Returned a -> x = (Returned a, snd x).
Proof. destruct x as [c s]. cbn. now intros ->. Qed.

Lemma iterates_run_from limit opts st s st' s' :
  iterates limit opts st s st' s' ->
  run_from limit opts st s = run_from limit opts st' s'.
Proof.
  induction 1 as [|st s st1 s1 st2 s2 G EB _ IH]; [reflexivity|].
  rewrite run_from_step by assumption. now rewrite EB.
Qed.

(** C5.  The search never raises: it returns a response, and an error in it
    has the form "Failed after fetching N results: ..." with N the number of
    records in the response.  When the fetch of some iteration fails, after
    any number of successful iterations, the response holds the accumulator as
    it was at that iteration together with that error. *)
Theorem search_returns_partial_results q limit opts s :
  (exists r s',
     searchNitterGlobal q limit opts s = (Returned r, s')
     /\ forall e, error r = Some e ->
          exists msg, e = failure_text (length (results r)) msg)
  /\ (forall st s1 msg s2,
        iterates limit opts (search_start q) s st s1 ->
        loop_guard limit st = true ->
        fetchHtmlWithFallback (path_of st) opts s1 = (Threw msg, s2) ->
        exists r s3,
          searchNitterGlobal q limit opts s = (Returned r, s3)
          /\ results r = acc st
          /\ error r = Some (failure_text (length (acc st)) msg)).
Proof.
  destruct (search_unfold q limit opts s)
    as (st & err & s1 & s2 & Hrun & _ & _ & r & Hs & _ & Hres & Herr).
  split.
  - exists r, s2. split; [assumption|]. intros e He. rewrite Herr in He.
    destruct err as [m|]; [|discriminate]. inversion He. exists m. now rewrite Hres.
  - intros st' s1' msg s2' Hit G Hfail.
    exists r, s2. split; [assumption|].
    assert (Hrun' : run_from limit opts (search_start q) s = ((st', Some msg), s2')).
    { rewrite (iterates_run_from Hit), run_from_step by assumption.
      unfold loop_body. fold (path_of st'). now rewrite Hfail. }
    unfold run_from in Hrun'. cbn [page search_start Nat.sub] in Hrun'.
    rewrite Hrun in Hrun'. inversion Hrun'; subst. split; assumption.
Qed.

(** The accumulator an iteration leaves, when its fetch returned. *)
Lemma loop_body_acc limit opts st s f s1 :
  fetchHtmlWithFallback (path_of st) opts s = (Returned f, s1) ->
  acc (fst (fst (loop_body limit opts st s)))
  = push_page limit (acc st) (extractTweetsFromHtml (html f) (instanceUsed f)).
Proof.
  intros Hf. unfold loop_body. fold (path_of st). rewrite Hf.
  destruct (if Z.of_nat (length _) <? limit then _ else _); reflexivity.
Qed.

(** The response holds what any iteration of the run had accumulated. *)
Lemma results_extend_every_iteration q limit opts s st s1 r s' :
  iterates limit opts (search_start q) s st s1 ->
  loop_guard limit st = true ->
  searchNitterGlobal q limit opts s = (Returned r, s') ->
  exists more,
    results r = acc (fst (fst (loop_body limit opts st s1))) ++ more.
Proof.
  intros Hit G Hs.
  destruct (search_unfold q limit opts s)
    as (stf & err & sf & s2 & Hrun & _ & _ & r' & Hs' & _ & Hres & _).
  rewrite Hs in Hs'. inversion Hs'; subst r' s2. clear Hs'. rewrite Hres.
  assert (Hrun' : run_from limit opts (search_start q) s = ((stf, err), sf)) by exact Hrun.
  rewrite (iterates_run_from Hit), run_from_step in Hrun' by assumption.
  destruct (loop_body limit opts st s1) as [[st1 [msg|]] s2] eqn:EB; cbn [fst].
  - inversion Hrun'; subst. exists []. now rewrite app_nil_r.
  - unfold run_from in Hrun'.
    destruct (@search_pages_spec _ limit opts (10 - page st1) st1 s2 stf err sf
                (Nat.le_refl _) Hrun') as (Hext & _).
    exact Hext.
Qed.

(** C6.  A search returns a response whose records have pairwise distinct
    identifiers, so an identifier that is in it is in it exactly once; the
    loop over a page passes over a record whose identifier the accumulator
    already holds; and the identifier of every record of a page after which
    the limit is not yet reached (the condition for asking for the next page)
    is in the response exactly once, whatever later pages repeat. *)
Theorem search_results_have_distinct_ids q limit opts s :
  (exists r s',
     searchNitterGlobal q limit opts s = (Returned r, s')
     /\ NoDup (map id (results r))
     /\ forall i, In i (map id (results r)) ->
          count_occ string_dec (map id (results r)) i = 1%nat)
  /\ (forall results t rest,
        has_id results (id t) = true ->
        push_page limit results (t :: rest) = push_page limit results rest)
  /\ (forall st s1 f s2 t r s',
        iterates limit opts (search_start q) s st s1 ->
        loop_guard limit st = true ->
        fetchHtmlWithFallback (path_of st) opts s1 = (Returned f, s2) ->
        In t (extractTweetsFromHtml (html f) (instanceUsed f)) ->
        Z.of_nat (length (push_page limit (acc st)
                            (extractTweetsFromHtml (html f) (instanceUsed f)))) < limit ->
        searchNitterGlobal q limit opts s = (Returned r, s') ->
        count_occ string_dec (map id (results r)) (id t) = 1%nat).
Proof.
  assert (Hdistinct : forall r s', searchNitterGlobal q limit opts s = (Returned r, s') ->
                        NoDup (map id (results r))).
  { intros r s' Hs.
    destruct (search_unfold q limit opts s)
      as (st & err & s1 & s2 & Hrun & _ & _ & r' & Hs' & _ & Hres & _).
    rewrite Hs in Hs'. inversion Hs'; subst r' s2. rewrite Hres.
    assert (Hf : (10 - page (search_start q) <= 10)%nat) by (cbn; lia).
    destruct (@search_pages_spec _ limit opts 10 (search_start q) s st err s1 Hf Hrun)
      as (_ & Hnd & _).
    apply Hnd. cbn. constructor. }
  split; [|split].
  - destruct (search_unfold q limit opts s)
      as (st & err & s1 & s2 & _ & _ & _ & r & Hs & _).
    exists r, s2. split; [assumption|]. split; [now apply (Hdistinct r s2)|].
    intros i Hin. apply NoDup_count_occ' with (decA := string_dec); [|assumption].
    now apply (Hdistinct r s2).
  - intros; now apply push_page_seen.
  - intros st s1 f s2 t r s' Hit G Hf Hin Hlim Hs.
    apply NoDup_count_occ' with (decA := string_dec); [now apply (Hdistinct r s')|].
    destruct (results_extend_every_iteration Hit G Hs) as (more & ->).
    rewrite (@loop_body_acc limit opts st s1 f s2 Hf), map_app, in_app_iff. left.
    destruct (@push_page_covers limit _ (acc st) t Hin) as [Hyes | Hfull];
      [assumption | lia].
Qed.


End SearchClaims.

(* ================================================================== *)
(** ** The monitor engine: classification *)
(* ================================================================== *)

(** What the loop body does with one record. *)
Inductive Verdict : Type :=
| SkippedAsStale
| Alerted (reason : AlertReason)
| Unchanged.

(** The conditions under which a record with a stored entry counts as
    growth. *)
Definition growth_conditions (floor : Z) (prevStats : TweetStats) (tweet : TweetResult) : Prop :=
  exists current,
    likes tweet = Some current
    /\ floor <= current
    /\ st_likes prevStats < current
    /\ (TRACTION_GROWTH_PERCENT <= growth current (st_likes prevStats))%Q
    /\ 5 <= current - st_likes prevStats.



Section EngineFacts.
Context `{Platform}.

Definition verdict (now floor : Z) (seenMap : SeenTweets) (tweet : TweetResult) : Verdict :=
  if is_stale now tweet then SkippedAsStale
  else match decide floor (lookup seenMap (id tweet)) tweet with
       | Some reason => Alerted reason
       | None => Unchanged
       end.

(** The loop body follows the verdict: a stale record is passed over; an
    unchanged one is written to the map without any I/O; an alerted one is
    posted first, and written only if the post returned. *)
Lemma process_tweets_head env webhookUrl monitor now floor tweet rest seenMap s :
  process_tweets env webhookUrl monitor now floor (tweet :: rest) seenMap s
  = match verdict now floor seenMap tweet with
    | SkippedAsStale => process_tweets env webhookUrl monitor now floor rest seenMap s
    | Unchanged =>
        process_tweets env webhookUrl monitor now floor rest
          (obj_set (id tweet) (observed now tweet) seenMap) s
    | Alerted reason =>
        match alert env webhookUrl monitor tweet reason s with
        | (Threw msg, s1) => ((Threw msg, seenMap), s1)
        | (Returned _, s1) =>
            process_tweets env webhookUrl monitor now floor rest
              (obj_set (id tweet) (observed now tweet) seenMap) s1
        end
    end.
Proof.
  cbn [process_tweets]. unfold verdict. destruct (is_stale now tweet); [reflexivity|].
  destruct (decide floor (lookup seenMap (id tweet)) tweet); reflexivity.
Qed.

Lemma lookup_own seenMap i prevStats :
  obj_get i seenMap = Some prevStats -> lookup seenMap i = Own prevStats.
Proof. unfold lookup. now intros ->. Qed.

(** Without a known like-count the growth test cannot pass: the count reads
    as zero, and an increase of five from a stored value then needs that
    value negative, which makes the quotient negative. *)
Lemma growth_from_zero_fails prev :
  5 <= 0 - prev -> ~ (TRACTION_GROWTH_PERCENT <= growth 0 prev)%Q.
Proof.
  intros H5. unfold growth, TRACTION_GROWTH_PERCENT.
  destruct prev as [|p|p]; try lia. cbn [Z.eqb Z.sub Z.opp Z.add].
  unfold Qle, Qdiv, Qmult, Qinv, inject_Z. cbn. lia.
Qed.

Lemma decide_own_growth floor prevStats tweet :
  decide floor (Own prevStats) tweet
    = Some (TractionSpike (st_likes prevStats) (or_zero (likes tweet)))
  <-> growth_conditions floor prevStats tweet.
Proof.
  unfold decide, growth_conditions. split.
  - destruct (_ && _ && _) eqn:E; [|discriminate]. intros _.
    rewrite !andb_true_iff, Z.geb_le, Z.geb_le, Qle_bool_iff in E.
    destruct E as [[Hfloor Hq] H5].
    destruct (likes tweet) as [current|]; cbn [or_zero] in *.
    + exists current. repeat split; auto; lia.
    + exfalso. now apply (growth_from_zero_fails H5).
  - intros (current & Hl & Hfloor & _ & Hq & H5). rewrite Hl. cbn [or_zero].
    assert (E : (current >=? floor)
                && Qle_bool TRACTION_GROWTH_PERCENT (growth current (st_likes prevStats))
                && (current - st_likes prevStats >=? 5) = true).
    { rewrite !andb_true_iff, Z.geb_le, Z.geb_le, Qle_bool_iff. auto. }
    now rewrite E.
Qed.

Lemma decide_own_cases floor prevStats tweet :
  decide floor (Own prevStats) tweet
    = Some (TractionSpike (st_likes prevStats) (or_zero (likes tweet)))
  \/ decide floor (Own prevStats) tweet = None.
Proof. unfold decide. destruct (_ && _ && _); auto. Qed.

(** For a non-negative stored count the quotient test is the integer test
    "twice the increase is at least the stored count, or at least one when
    nothing is stored". *)
Lemma growth_half_iff current prev :
  0 <= prev ->
  (TRACTION_GROWTH_PERCENT <= growth current prev)%Q
  <-> Z.max prev 1 <= 2 * (current - prev).
Proof.
  intros Hp. unfold growth, TRACTION_GROWTH_PERCENT.
  destruct prev as [|p|p]; try lia; cbn [Z.eqb];
    unfold Qle, Qdiv, Qmult, Qinv, inject_Z; cbn [Qnum Qden];
    rewrite ?Z.mul_1_r, ?Pos.mul_1_l; lia.
Qed.

(** C1, as amended.  For a record that the age check does not skip and whose
    identifier has a stored entry, the engine alerts with the growth reason
    exactly when the like-count is known and at or above the floor, exceeds
    the stored one, the relative increase is at least one half (a stored zero
    counting as one) and the increase is at least five; otherwise the record
    is unchanged, and the loop body posts nothing and only writes the entry.
    The floor is 5 when TRACTION_THRESHOLD_LIKES is not set; with 10 stored,
    14 likes are unchanged and 16 are growth. *)
Theorem growth_classification env now seenMap tweet prevStats :
  obj_get (id tweet) seenMap = Some prevStats ->
  is_stale now tweet = false ->
  let floor := parseIntSafe (TRACTION_THRESHOLD_LIKES env) 5 in
  (verdict now floor seenMap tweet
     = Alerted (TractionSpike (st_likes prevStats) (or_zero (likes tweet)))
   <-> growth_conditions floor prevStats tweet)
  /\ (~ growth_conditions floor prevStats tweet ->
      verdict now floor seenMap tweet = Unchanged
      /\ forall webhookUrl monitor s,
           process_tweets env webhookUrl monitor now floor [tweet] seenMap s
           = ((Returned tt, obj_set (id tweet) (observed now tweet) seenMap), s))
  /\ (TRACTION_THRESHOLD_LIKES env = None -> floor = 5)
  /\ (st_likes prevStats = 10 -> floor = 5 ->
      (likes tweet = Some 14 -> verdict now floor seenMap tweet = Unchanged)
      /\ (likes tweet = Some 16 ->
          verdict now floor seenMap tweet = Alerted (TractionSpike 10 16))).
Proof.
  intros Hown Hfresh floor.
  assert (Hv : verdict now floor seenMap tweet
               = match decide floor (Own prevStats) tweet with
                 | Some reason => Alerted reason
                 | None => Unchanged
                 end).
  { unfold verdict. now rewrite Hfresh, (lookup_own _ _ Hown). }
  split; [|split; [|split]].
  - rewrite Hv, <- decide_own_growth.
    destruct (decide floor (Own prevStats) tweet) as [r|]; split; congruence.
  - intros Hno.
    assert (Hq : verdict now floor seenMap tweet = Unchanged).
    { rewrite Hv. destruct (decide_own_cases floor prevStats tweet) as [E|E].
      - exfalso. apply Hno. now apply decide_own_growth.
      - now rewrite E. }
    split; [assumption|]. intros webhookUrl monitor s.
    rewrite process_tweets_head, Hq. reflexivity.
  - intros E. subst floor. now rewrite E.
  - intros Hten Hfive. rewrite Hv, Hfive. unfold decide. rewrite Hten.
    split; intros ->; reflexivity.
Qed.


(** Nothing but [saveState] writes the state file. *)
Lemma search_keeps_disk q limit opts s :
  disk (snd (searchNitterGlobal q limit opts s)) = disk s.
Proof.
  destruct (search_unfold q limit opts s)
    as (st & err & s1 & s2 & Hrun & _ & Hd & r & Hs & _).
  rewrite Hs. cbn [snd]. rewrite Hd.
  assert (Hf : (10 - page (search_start q) <= 10)%nat) by (cbn; lia).
  now destruct (@search_pages_spec _ limit opts 10 (search_start q) s st err s1 Hf Hrun)
    as (_ & _ & _ & _ & _ & _ & Hdisk).
Qed.

Lemma alert_keeps_disk env webhookUrl monitor tweet reason s :
  disk (snd (alert env webhookUrl monitor tweet reason s)) = disk s.
Proof.
  unfold alert, bind.
  assert (Hpost : forall tw s0,
            disk (snd (postToDiscord webhookUrl tw (label monitor) reason s0)) = disk s0).
  { intros [tw|] s0; cbn [postToDiscord]; [|reflexivity]. unfold try_catch.
    destruct (http_post webhookUrl tw (label monitor) reason (world s0)) as [out w].
    destruct (check_post out); reflexivity. }
  destruct (is_set (TWITTER_API_IO_KEY env)).
  - unfold try_catch. destruct (enrichTweets [tweet] (world s)) as [[enriched|msg] w];
      cbn [ret]; rewrite Hpost; reflexivity.
  - cbn [ret]. apply Hpost.
Qed.

Lemma process_tweets_keeps_disk env webhookUrl monitor now floor tweets :
  forall seenMap s,
    disk (snd (process_tweets env webhookUrl monitor now floor tweets seenMap s)) = disk s.
Proof.
  induction tweets as [|tweet rest IH]; intros seenMap s; [reflexivity|].
  rewrite process_tweets_head. destruct (verdict now floor seenMap tweet) as [|reason|].
  - apply IH.
  - pose proof (alert_keeps_disk env webhookUrl monitor tweet reason s) as Ha.
    destruct (alert env webhookUrl monitor tweet reason s) as [[[]|msg] s1]; cbn [snd] in *.
    + now rewrite IH.
    + assumption.
  - apply IH.
Qed.

Lemma processMonitor_keeps_disk env monitor seenMap webhookUrl globalOpts s :
  disk (snd (processMonitor env monitor seenMap webhookUrl globalOpts s)) = disk s.
Proof.
  unfold processMonitor, now, io. destruct (Date_now (world s)) as [t w].
  set (s0 := {| world := w; disk := disk s; events := events s |}).
  pose proof (search_keeps_disk (mc_query monitor) 50 globalOpts s0) as Hs.
  destruct (searchNitterGlobal (mc_query monitor) 50 globalOpts s0) as [[res|msg] s1];
    cbn [snd] in *; [|assumption].
  destruct (is_set (error res)); [assumption|].
  now rewrite process_tweets_keeps_disk.
Qed.

Lemma run_each_keeps_disk env webhookUrl globalOpts monitors :
  forall seenMap s,
    disk (snd (run_each env webhookUrl globalOpts monitors seenMap s)) = disk s.
Proof.
  induction monitors as [|monitor rest IH]; intros seenMap s; [reflexivity|].
  cbn [run_each].
  pose proof (processMonitor_keeps_disk env monitor seenMap webhookUrl globalOpts s) as Hp.
  destruct (processMonitor env monitor seenMap webhookUrl globalOpts s)
    as [[[[]|msg] seen1] s1]; cbn [snd] in *; [|assumption].
  rewrite IH. destruct (sleep_spec 2000 s1) as [_ Hd]. congruence.
Qed.

End EngineFacts.

(* ================================================================== *)
(** ** The monitor state store: migration *)
(* ================================================================== *)

(** The persisted shapes older versions of the worker wrote. *)

(** Per monitor key, the list of the identifiers seen. *)
Definition legacy_lastIds (perMonitor : jsobj (list string)) : JSON :=
  JObj [("lastIds",
         JObj (map (fun kv => (fst kv, JArr (map JStr (snd kv)))) perMonitor))].

(** Per monitor key, a map from identifier to stats. *)
Definition legacy_nested (perMonitor : jsobj SeenTweets) : JSON :=
  JObj [("seenTweets",
         JObj (map (fun kv => (fst kv, JObj (encode_seen (snd kv)))) perMonitor))].

(** The oldest shape: the list of the identifiers seen. *)
Definition legacy_seenIds (ids : list string) : JSON :=
  JObj [("seenIds", JArr (map JStr ids))].

Definition all_values {A} (P : A -> Prop) (o : jsobj A) : Prop :=
  Forall (fun kv => P (snd kv)) o.

(** A value the nested-shape test of [migrate] takes for an entry. *)
Definition entry_like (v : JSON) : Prop := has_likes v = true.

Section MigrationFacts.
Context `{Platform}.

Lemma obj_replace_all_values {A} (P : A -> Prop) k v (o : jsobj A) :
  all_values P o -> P v -> all_values P (obj_replace k v o).
Proof.
  unfold all_values. intros Ho Hv. induction Ho as [|[k' v'] r Hk Hr IH]; cbn.
  - constructor.
  - destruct (k' =? k)%string; constructor; auto.
Qed.

Lemma obj_insert_index_all_values {A} (P : A -> Prop) n k v (o : jsobj A) :
  all_values P o -> P v -> all_values P (obj_insert_index n k v o).
Proof.
  unfold all_values. intros Ho Hv. induction Ho as [|[k' v'] r Hk Hr IH]; cbn.
  - constructor; [assumption | constructor].
  - destruct (array_index k') as [m|].
    + destruct (n <? m); repeat constructor; auto.
    + repeat constructor; auto.
Qed.

Lemma obj_set_all_values {A} (P : A -> Prop) k v (o : jsobj A) :
  all_values P o -> P v -> all_values P (obj_set k v o).
Proof.
  intros Ho Hv. unfold obj_set.
  destruct (has_key k o); [now apply obj_replace_all_values|].
  destruct (k =? "__proto__")%string; [assumption|].
  destruct (array_index k) as [n|]; [now apply obj_insert_index_all_values|].
  unfold all_values. apply Forall_app. split; [assumption|]. repeat constructor. assumption.
Qed.

Lemma encode_stats_entry_like t : entry_like (encode_stats t).
Proof. reflexivity. Qed.

Lemma encode_seen_entry_like seen : all_values entry_like (encode_seen seen).
Proof.
  unfold all_values, encode_seen. apply Forall_map, Forall_forall. intros kv _.
  apply encode_stats_entry_like.
Qed.

(** A document in the flat shape is returned as it is. *)
Lemma migrate_flat seen s :
  all_values entry_like seen ->
  migrate (JObj [("seenTweets", JObj seen)]) s
  = (Returned (JObj [("seenTweets", JObj seen)]), s).
Proof.
  intros Hall. unfold migrate.
  cbn [prop obj_get String.eqb Ascii.eqb Bool.eqb truthy_opt json_truthy own_entries].
  destruct seen as [|[k v] r]; [reflexivity|].
  inversion Hall as [|? ? Hv _]; subst. cbn [snd] in Hv. unfold entry_like in Hv.
  rewrite Hv. cbn [negb]. rewrite andb_false_r. reflexivity.
Qed.

Lemma mark_seen_spec ids : forall seen s,
  all_values entry_like seen ->
  exists seen' s',
    mark_seen ids seen s = (Returned seen', s')
    /\ all_values entry_like seen'
    /\ disk s' = disk s /\ events s' = events s.
Proof.
  induction ids as [|i rest IH]; intros seen s Hall; cbn [mark_seen].
  - exists seen, s. repeat split; assumption.
  - unfold bind at 1. unfold now, io. destruct (Date_now (world s)) as [t w].
    set (s0 := {| world := w; disk := disk s; events := events s |}).
    destruct (IH (obj_set (to_key i) (encode_stats (dummy_stats t)) seen) s0)
      as (seen' & s' & E & Hall' & Hd & He).
    { apply obj_set_all_values; [assumption | apply encode_stats_entry_like]. }
    exists seen', s'. repeat split; assumption.
Qed.

Lemma migrate_lastIds_spec entries : forall seen s,
  all_values entry_like seen ->
  exists seen' s',
    migrate_lastIds entries seen s = (Returned seen', s')
    /\ all_values entry_like seen'
    /\ disk s' = disk s /\ events s' = events s.
Proof.
  induction entries as [|[k ids] rest IH]; intros seen s Hall; cbn [migrate_lastIds].
  - exists seen, s. repeat split; assumption.
  - destruct ids as [| | | |l|]; try (now apply IH).
    unfold bind at 1.
    destruct (@mark_seen_spec l seen s Hall) as (seen1 & s1 & E1 & Hall1 & Hd1 & He1).
    rewrite E1. destruct (IH seen1 s1 Hall1) as (seen' & s' & E & Hall' & Hd & He).
    exists seen', s'. repeat split; [assumption | assumption | congruence | congruence].
Qed.

Lemma flatten_step_all_values entries : forall newSeen,
  all_values entry_like newSeen ->
  all_values entry_like entries ->
  all_values entry_like
    (fold_left (fun ns kv => obj_set (fst kv) (snd kv) ns) entries newSeen).
Proof.
  induction entries as [|[k v] rest IH]; intros newSeen Hn He; cbn [fold_left].
  - assumption.
  - inversion He; subst. apply IH; [|assumption].
    now apply obj_set_all_values.
Qed.

Lemma flatten_nested_all_values (perMonitor : jsobj SeenTweets) : forall newSeen,
  all_values entry_like newSeen ->
  all_values entry_like
    (fold_left
       (fun newSeen monitor =>
          fold_left (fun ns kv => obj_set (fst kv) (snd kv) ns)
                    (own_entries (snd monitor)) newSeen)
       (map (fun kv => (fst kv, JObj (encode_seen (snd kv)))) perMonitor) newSeen).
Proof.
  induction perMonitor as [|[k m] rest IH]; intros newSeen Hn; cbn [map fold_left].
  - assumption.
  - apply IH. cbn [snd own_entries]. apply flatten_step_all_values; [assumption|].
    apply encode_seen_entry_like.
Qed.

Lemma migrate_nested_unfold k0 fields0 rest s :
  let json := JObj [("seenTweets", JObj ((k0, JObj fields0) :: rest))] in
  migrate json s
  = if has_key "likes" fields0 then (Returned json, s)
    else (Returned (JObj [("seenTweets",
                           JObj (flatten (JObj ((k0, JObj fields0) :: rest))))]), s).
Proof.
  intros json. unfold json, migrate.
  cbn [prop obj_get String.eqb Ascii.eqb Bool.eqb truthy_opt json_truthy own_entries
       is_object has_likes andb].
  destruct (has_key "likes" fields0); reflexivity.
Qed.

Lemma decode_encode seen : decode_state (encode_state seen) = seen.
Proof.
  unfold decode_state, encode_state, encode_seen.
  cbn [prop obj_get String.eqb Ascii.eqb Bool.eqb].
  rewrite map_map. rewrite <- (map_id seen) at 2. apply map_ext.
  intros [k [l r p c]]. reflexivity.
Qed.


(** C8.  Migration is idempotent on the persisted shapes: a document of the
    per-monitor list-of-identifiers shape, or of the per-monitor nested-map
    shape, migrates to a document that a second migration returns as it is,
    and a document of the current flat shape is returned unchanged (as is a
    document of the oldest shape, a bare list of identifiers, which the
    migration does not look at). *)
Theorem migrate_idempotent :
  (forall perMonitor s,
     exists j s1,
       migrate (legacy_lastIds perMonitor) s = (Returned j, s1)
       /\ forall s2, migrate j s2 = (Returned j, s2))
  /\ (forall perMonitor s,
        exists j,
          migrate (legacy_nested perMonitor) s = (Returned j, s)
          /\ forall s2, migrate j s2 = (Returned j, s2))
  /\ (forall seen s,
        migrate (encode_state seen) s = (Returned (encode_state seen), s))
  /\ (forall ids s,
        migrate (legacy_seenIds ids) s = (Returned (legacy_seenIds ids), s)).
Proof.
  split; [|split; [|split]]; [| | |intros ids s; reflexivity].
  - intros perMonitor s. unfold legacy_lastIds, migrate.
    cbn [prop obj_get String.eqb Ascii.eqb Bool.eqb truthy_opt json_truthy own_entries].
    unfold bind at 1.
    destruct (@migrate_lastIds_spec
                (map (fun kv => (fst kv, JArr (map JStr (snd kv)))) perMonitor) [] s)
      as (seen & s1 & E & Hall & _); [constructor|].
    rewrite E. exists (JObj [("seenTweets", JObj seen)]), s1.
    split; [reflexivity|]. intros s2. now apply migrate_flat.
  - intros perMonitor s. unfold legacy_nested.
    destruct perMonitor as [|[k0 m0] rest].
    + exists (JObj [("seenTweets", JObj [])]). split; [reflexivity|].
      intros s2. reflexivity.
    + cbn [map fst snd]. rewrite migrate_nested_unfold.
      destruct (has_key "likes" (encode_seen m0)) eqn:E.
      * eexists. split; [reflexivity|]. intros s2.
        rewrite migrate_nested_unfold. now rewrite E.
      * eexists. split; [reflexivity|]. intros s2. apply migrate_flat.
        unfold flatten.
        change (own_entries (JObj ((k0, JObj (encode_seen m0))
                  :: map (fun kv => (fst kv, JObj (encode_seen (snd kv)))) rest)))
          with (map (fun kv : string * SeenTweets => (fst kv, JObj (encode_seen (snd kv))))
                    ((k0, m0) :: rest)).
        apply flatten_nested_all_values. constructor.
  - intros seen s. unfold encode_state. apply migrate_flat, encode_seen_entry_like.
Qed.

Lemma migrate_keeps_disk json s : disk (snd (migrate json s)) = disk s.
Proof.
  unfold migrate. destruct json as [| b | z | str | items | fields]; try reflexivity.
  cbn [prop]. destruct (truthy_opt (obj_get "lastIds" fields)).
  - unfold bind.
    destruct (@migrate_lastIds_spec
                (match obj_get "lastIds" fields with
                 | Some lastIds => own_entries lastIds
                 | None => []
                 end) [] s) as (seen & s1 & E & _ & Hd & _); [constructor|].
    rewrite E. exact Hd.
  - destruct (own_entries _) as [|[k0 firstVal] rest]; [reflexivity|].
    destruct (json_truthy firstVal && is_object firstVal && negb (has_likes firstVal));
      reflexivity.
Qed.

Lemma loadState_keeps_disk s : disk (snd (loadState s)) = disk s.
Proof.
  unfold loadState. destruct (disk s) as [[|json]|] eqn:E; try (cbn; congruence).
  unfold try_catch. pose proof (migrate_keeps_disk json s) as Hm.
  destruct (migrate json s) as [[j|e] s']; cbn in *; congruence.
Qed.

End MigrationFacts.

(* ================================================================== *)
(** ** The monitor engine: a cycle whose alerts are not delivered *)
(* ================================================================== *)

Definition is_post (e : Event) : bool :=
  match e with
  | EvPost _ _ _ => true
  | _ => false
  end.

(** The webhook posts of a log, in the order they were made. *)
Definition posts_in (evs : list Event) : list Event := filter is_post evs.

(** What enrichment.ts returns is [tweets.map((t) => ({...t, accountInfo}))]:
    the records it was given, each with its account information. *)
Definition enrichment_keeps_records `{Platform} : Prop :=
  forall tweets w enriched w',
    enrichTweets tweets w = (Returned enriched, w') -> map tweet_of enriched = tweets.

Section ObjectFacts.
Context {A : Type}.

Lemma obj_replace_get_same k (v : A) o :
  has_key k o = true -> obj_get k (obj_replace k v o) = Some v.
Proof.
  unfold has_key. induction o as [|[k' v'] r IH]; cbn; [discriminate|].
  destruct (k' =? k)%string eqn:E; cbn; rewrite E; auto.
Qed.

Lemma obj_replace_get_other k k' (v : A) o :
  k' <> k -> obj_get k' (obj_replace k v o) = obj_get k' o.
Proof.
  intros Hne. induction o as [|[k0 v0] r IH]; cbn; [reflexivity|].
  destruct (k0 =? k)%string eqn:E; cbn.
  - apply String.eqb_eq in E. subst k0.
    destruct (k =? k')%string eqn:E'; [|reflexivity].
    apply String.eqb_eq in E'. congruence.
  - now rewrite IH.
Qed.

Lemma obj_insert_index_get_same n k (v : A) o :
  has_key k o = false -> obj_get k (obj_insert_index n k v o) = Some v.
Proof.
  unfold has_key. induction o as [|[k0 v0] r IH]; cbn.
  - now rewrite String.eqb_refl.
  - destruct (k0 =? k)%string eqn:E; [discriminate|]. intros Hr.
    destruct (array_index k0) as [m|].
    + destruct (n <? m); cbn.
      * now rewrite String.eqb_refl.
      * rewrite E. auto.
    + cbn. now rewrite String.eqb_refl.
Qed.

Lemma obj_insert_index_get_other n k k' (v : A) o :
  k' <> k -> obj_get k' (obj_insert_index n k v o) = obj_get k' o.
Proof.
  intros Hne.
  assert (Hk : (k =? k')%string = false) by (apply String.eqb_neq; congruence).
  induction o as [|[k0 v0] r IH]; cbn.
  - now rewrite Hk.
  - destruct (array_index k0) as [m|].
    + destruct (n <? m); cbn.
      * now rewrite Hk.
      * now rewrite IH.
    + cbn. now rewrite Hk.
Qed.

Lemma obj_get_app k (o1 o2 : jsobj A) :
  obj_get k (o1 ++ o2) = match obj_get k o1 with Some v => Some v | None => obj_get k o2 end.
Proof.
  induction o1 as [|[k0 v0] r IH]; cbn; [reflexivity|].
  destruct (k0 =? k)%string; auto.
Qed.

(** [o[k] = v] then [o[k]]: the value written, unless [k] is ["__proto__"]
    and the object has no such own property. *)
Lemma obj_get_set_same k (v : A) o :
  k <> "__proto__" -> obj_get k (obj_set k v o) = Some v.
Proof.
  intros Hk. unfold obj_set. destruct (has_key k o) eqn:E.
  - now apply obj_replace_get_same.
  - apply String.eqb_neq in Hk. rewrite Hk.
    destruct (array_index k) as [n|].
    + now apply obj_insert_index_get_same.
    + rewrite obj_get_app. unfold has_key in E.
      destruct (obj_get k o); [discriminate|]. cbn. now rewrite String.eqb_refl.
Qed.

(** [o[k] = v] leaves the other properties as they are. *)
Lemma obj_get_set_other k k' (v : A) o :
  k' <> k -> obj_get k' (obj_set k v o) = obj_get k' o.
Proof.
  intros Hne. unfold obj_set. destruct (has_key k o).
  - now apply obj_replace_get_other.
  - destruct (k =? "__proto__")%string; [reflexivity|].
    destruct (array_index k) as [n|].
    + now apply obj_insert_index_get_other.
    + rewrite obj_get_app. destruct (obj_get k' o); [reflexivity|]. cbn.
      assert (Hk : (k =? k')%string = false) by (apply String.eqb_neq; congruence).
      now rewrite Hk.
Qed.


End ObjectFacts.

Section CycleFacts.
Context `{Platform}.

Lemma posts_in_app (l1 l2 : list Event) :
  posts_in (l1 ++ l2) = posts_in l1 ++ posts_in l2.
Proof. apply filter_app. Qed.

(** The fetcher and the search post nothing to the webhook. *)
Lemma attempts_posts n : forall a base url opts le s,
  posts_in (events (snd (attempts n a base url opts le s))) = posts_in (events s).
Proof.
  induction n as [|k IH]; intros a base url opts le s; cbn [attempts]; [reflexivity|].
  destruct (attempt_once base url opts a s) as [[r|err] s1] eqn:E;
    destruct (@attempt_once_spec _ base url opts a s _ s1 E) as (Hev & _).
  - cbn [snd]. rewrite Hev, posts_in_app. cbn. now rewrite app_nil_r.
  - rewrite IH.
    assert (Hs1 : posts_in (events s1) = posts_in (events s)).
    { rewrite Hev, posts_in_app. cbn. now rewrite app_nil_r. }
    destruct (a <? retriesPerInstance opts); [|assumption].
    destruct (sleep_spec (250 * (a + 1)) s1) as [Hsl _].
    rewrite Hsl, posts_in_app, Hs1. cbn. now rewrite app_nil_r.
Qed.

Lemma mirrors_posts bases : forall isAbsolute pathOrUrl path opts le s,
  posts_in (events (snd (mirrors bases isAbsolute pathOrUrl path opts le s)))
  = posts_in (events s).
Proof.
  induction bases as [|base rest IH]; intros isAbsolute pathOrUrl path opts le s;
    cbn [mirrors]; [reflexivity|].
  pose proof (attempts_posts (Z.to_nat (retriesPerInstance opts + 1)) 0 base
                (request_url isAbsolute pathOrUrl path base) opts le s) as Ha.
  destruct (attempts _ 0 base _ opts le s) as [[r|e] s1]; cbn [snd] in *; [assumption|].
  now rewrite IH.
Qed.

Lemma fetch_posts pathOrUrl opts s :
  posts_in (events (snd (fetchHtmlWithFallback pathOrUrl opts s))) = posts_in (events s).
Proof.
  unfold fetchHtmlWithFallback.
  destruct (length (cleanInstances (instances opts)) =? 0)%nat; [reflexivity|].
  assert (HM : forall path,
            posts_in (events (snd
              match mirrors (cleanInstances (instances opts)) (is_absolute pathOrUrl)
                            pathOrUrl path opts None s with
              | (inl r, s1) => (Returned r, s1)
              | (inr lastError, s1) =>
                  (Threw ("All Nitter instances failed. Last error: "
                          ^^ match lastError with
                             | Some m => m
                             | None => "Unknown error: undefined"
                             end), s1)
              end)) = posts_in (events s)).
  { intros path.
    pose proof (mirrors_posts (cleanInstances (instances opts)) (is_absolute pathOrUrl)
                  pathOrUrl path opts None s) as Hm.
    destruct (mirrors _ _ pathOrUrl path opts None s) as [[r|e] s1]; exact Hm. }
  destruct (is_absolute pathOrUrl).
  - destruct (URL_parse pathOrUrl) as [[pathname search]|]; [apply HM | reflexivity].
  - apply HM.
Qed.

Lemma loop_body_posts limit opts st s :
  posts_in (events (snd (loop_body limit opts st s))) = posts_in (events s).
Proof.
  unfold loop_body.
  pose proof (fetch_posts (match nextPath st with Some p => p | None => "" end) opts s) as Hf.
  destruct (fetchHtmlWithFallback _ opts s) as [[f|msg] s1]; cbn [snd] in *; [|assumption].
  destruct (if Z.of_nat (length _) <? limit then _ else _); assumption.
Qed.

Lemma search_pages_posts limit opts fuel : forall st s,
  posts_in (events (snd (search_pages fuel limit opts st s))) = posts_in (events s).
Proof.
  induction fuel as [|k IH]; intros st s; cbn [search_pages]; [reflexivity|].
  destruct (loop_guard limit st); [|reflexivity].
  pose proof (loop_body_posts limit opts st s) as Hb.
  destruct (loop_body limit opts st s) as [[st1 [msg|]] s1]; cbn [snd] in *; [assumption|].
  now rewrite IH.
Qed.

Lemma search_posts q limit opts s :
  posts_in (events (snd (searchNitterGlobal q limit opts s))) = posts_in (events s).
Proof.
  destruct (search_unfold q limit opts s)
    as (st & err & s1 & s2 & Hrun & Hev & _ & r & Hs & _).
  rewrite Hs. cbn [snd]. rewrite Hev.
  pose proof (search_pages_posts limit opts 10 (search_start q) s) as Hp.
  now rewrite Hrun in Hp.
Qed.


(** A post returns whatever the webhook answers, and is logged with what
    became of it. *)
Lemma postToDiscord_returns webhookUrl tw label reason s :
  postToDiscord webhookUrl (Some tw) label reason s
  = (Returned tt,
     {| world := snd (http_post webhookUrl tw label reason (world s));
        disk := disk s;
        events := events s
                  ++ [EvPost (id (tweet_of tw)) reason
                        (delivered (check_post
                           (fst (http_post webhookUrl tw label reason (world s)))))] |}).
Proof.
  cbn [postToDiscord]. unfold try_catch, ret.
  destruct (http_post webhookUrl tw label reason (world s)) as [out w]. cbn [fst snd].
  destruct (check_post out) as [[]|msg]; reflexivity.
Qed.

(** The [if (shouldAlert)] block returns too: the record is posted as it is,
    or as enrichment returned it, from the world [w] the enrichment left. *)
Lemma alert_returns env webhookUrl monitor tweet reason s :
  enrichment_keeps_records ->
  exists tw w,
    tweet_of tw = tweet
    /\ alert env webhookUrl monitor tweet reason s
       = (Returned tt,
          {| world := snd (http_post webhookUrl tw (label monitor) reason w);
             disk := disk s;
             events := events s
                       ++ [EvPost (id tweet) reason
                             (delivered (check_post
                                (fst (http_post webhookUrl tw (label monitor) reason w))))] |}).
Proof.
  intros Henrich. unfold alert, bind.
  set (plain := {| tweet_of := tweet; accountInfo := None |}).
  destruct (is_set (TWITTER_API_IO_KEY env)).
  - unfold try_catch. destruct (enrichTweets [tweet] (world s)) as [[enriched|msg] w] eqn:E.
    + specialize (Henrich _ _ _ _ E).
      destruct enriched as [|tw [|tw2 more]]; try discriminate.
      cbn in Henrich. injection Henrich as Htw.
      exists tw, w. split; [assumption|]. cbn [hd_error].
      rewrite postToDiscord_returns. cbn [world disk events]. now rewrite Htw.
    + exists plain, w. split; [reflexivity|]. cbn [ret].
      rewrite postToDiscord_returns. reflexivity.
  - exists plain, (world s). split; [reflexivity|]. cbn [ret].
    rewrite postToDiscord_returns. reflexivity.
Qed.






End CycleFacts.

Section CycleClaims.
Context `{Platform}.




End CycleClaims.

(* ================================================================== *)
(** ** The scheduler: which runs can be in flight together *)
(* ================================================================== *)

Section SchedulerFacts.
Variables poll vip : Z.

(** Until [setInterval] is called there is the one activation [run] started;
    from then on that activation is at its end. *)
Definition startup_done_before_timer (sch : Scheduler) : Prop :=
  match timer sch with
  | None => exists st, activations sch = [st]
  | Some _ => nth_error (activations sch) 0 = Some Settled
  end.

Lemma set_stage_running i st : forall l x,
  nth_error l i = Some x -> is_running x = true ->
  (length (filter is_running (set_stage i st l)) <= length (filter is_running l))%nat.
Proof.
  induction i as [|i IH]; intros [|y l] x Hn Hx; cbn in Hn; try discriminate.
  - inversion Hn; subst. cbn [set_stage filter]. rewrite Hx.
    destruct (is_running st); cbn [length]; lia.
  - cbn [set_stage filter]. specialize (IH l x Hn Hx).
    destruct (is_running y); cbn [length]; lia.
Qed.

Lemma set_stage_head i st l :
  i <> O -> nth_error (set_stage i st l) 0 = nth_error l 0.
Proof. destruct l as [|x l], i as [|i]; cbn; congruence. Qed.

Lemma set_stage_zero st l x :
  nth_error l 0 = Some x -> nth_error (set_stage 0 st l) 0 = Some st.
Proof. destruct l; cbn; [discriminate | reflexivity]. Qed.

Lemma set_stage_single i st x :
  exists y, set_stage i st [x] = [y].
Proof. destruct i as [|[|i]]; cbn; eauto. Qed.

Lemma step_startup sch h sch' :
  startup_done_before_timer sch ->
  step poll vip sch h = Some sch' ->
  startup_done_before_timer sch'.
Proof.
  unfold startup_done_before_timer, step, settle. intros Inv.
  destruct h as [ms | i | i ok |].
  - destruct (0 <=? ms); [|discriminate]. intros [= <-]. exact Inv.
  - destruct (nth_error (activations sch) i) as [[| |]|] eqn:En; try discriminate.
    destruct (clock sch - lastVipCheck sch >=? vip * 1000); intros [= <-];
      cbn [timer activations].
    + destruct (timer sch).
      * destruct i as [|i]; [congruence|]. now rewrite set_stage_head.
      * destruct Inv as [st ->]. apply set_stage_single.
    + destruct i as [|i]; cbn [Nat.eqb].
      * eapply set_stage_zero; eassumption.
      * destruct (timer sch).
        -- now rewrite set_stage_head.
        -- destruct Inv as [st ->]. apply set_stage_single.
  - destruct (nth_error (activations sch) i) as [[| |]|] eqn:En; try discriminate.
    intros [= <-]; cbn [timer activations]. destruct i as [|i]; cbn [Nat.eqb].
    + eapply set_stage_zero; eassumption.
    + destruct (timer sch).
      * now rewrite set_stage_head.
      * destruct Inv as [st ->]. apply set_stage_single.
  - destruct (timer sch) as [due|]; [|discriminate].
    destruct (due <=? clock sch); [|discriminate]. intros [= <-]; cbn [timer activations].
    destruct (activations sch); [discriminate | exact Inv].
Qed.

Lemma step_no_overlap sch h sch' :
  startup_done_before_timer sch ->
  no_overlap sch ->
  match h with TimerFires => running sch = [] | _ => True end ->
  step poll vip sch h = Some sch' ->
  no_overlap sch'.
Proof.
  unfold no_overlap, running, step, settle. intros Inv Hno Hidle.
  destruct h as [ms | i | i ok |].
  - destruct (0 <=? ms); [|discriminate]. intros [= <-]. exact Hno.
  - destruct (nth_error (activations sch) i) as [[| |]|] eqn:En; try discriminate.
    destruct (clock sch - lastVipCheck sch >=? vip * 1000); intros [= <-];
      cbn [activations];
      (etransitivity; [eapply set_stage_running; [eassumption | reflexivity] | exact Hno]).
  - destruct (nth_error (activations sch) i) as [[| |]|] eqn:En; try discriminate.
    intros [= <-]; cbn [activations].
    etransitivity; [eapply set_stage_running; [eassumption | reflexivity] | exact Hno].
  - destruct (timer sch) as [due|]; [|discriminate].
    destruct (due <=? clock sch); [|discriminate]. intros [= <-]; cbn [activations].
    rewrite filter_app, Hidle. cbn. lia.
Qed.

(** C9, as amended.  The body [await doPoll(); await doVipCheck();] runs its
    two jobs one after the other, and [run] creates the interval timer only
    when the body it runs itself has ended.  The timer does not wait for the
    body it started before: no two runs are in flight together as long as
    every firing of the timer finds the earlier bodies at their end. *)
Theorem runs_do_not_overlap_while_timer_finds_idle t0 hs sch :
  exec poll vip (started t0) hs = Some sch ->
  startup_done_before_timer sch
  /\ (fires_when_idle poll vip (started t0) hs -> no_overlap sch).
Proof.
  assert (Hgen : forall hs sch0,
            startup_done_before_timer sch0 ->
            exec poll vip sch0 hs = Some sch ->
            startup_done_before_timer sch
            /\ (no_overlap sch0 -> fires_when_idle poll vip sch0 hs -> no_overlap sch)).
  { clear hs. induction hs as [|h hs IH]; intros sch0 Inv E; cbn [exec] in E.
    - inversion E; subst. auto.
    - destruct (step poll vip sch0 h) as [sch1|] eqn:Es; [|discriminate].
      pose proof (step_startup _ _ Inv Es) as Inv1.
      destruct (IH sch1 Inv1 E) as [Hs Hn]. split; [assumption|].
      intros Hno Hidle. cbn [fires_when_idle] in Hidle. rewrite Es in Hidle.
      destruct Hidle as [Hh Hrest]. apply Hn; [|assumption].
      exact (@step_no_overlap sch0 h sch1 Inv Hno Hh Es). }
  intros E. destruct (Hgen hs (started t0)) as [Hs Hn]; [cbn; eauto | assumption |].
  split; [assumption|]. apply Hn. unfold no_overlap. cbn. lia.
Qed.

End SchedulerFacts.

(* ================================================================== *)
(** ** The mirror fetcher: the whole log of a call *)
(* ================================================================== *)

(** The log of [k] failed attempts on one mirror, numbered from [a], under a
    retry count of [retries]: each request, and after it the pause when it
    was not the last attempt allowed. *)
Definition failed_round (base url : string) (retries a : Z) (k : nat) : list Event :=
  flat_map (fun i =>
              EvGet base url (a + Z.of_nat i) false
              :: (if a + Z.of_nat i <? retries
                  then [EvSleep (250 * (a + Z.of_nat i + 1))] else []))
           (seq 0 k).

(** The pauses of a log, in order. *)
Definition pauses (evs : list Event) : list Z :=
  flat_map (fun e => match e with EvSleep ms => [ms] | _ => [] end) evs.

(** 250, 500, ..., 250 k. *)
Definition backoff (k : nat) : list Z :=
  map (fun i => 250 * (Z.of_nat i + 1)) (seq 0 k).

Section FetcherLog.
Context `{Platform}.

Lemma failed_round_S base url retries a k :
  failed_round base url retries a (S k)
  = EvGet base url a false
    :: (if a <? retries then [EvSleep (250 * (a + 1))] else [])
    ++ failed_round base url retries (a + 1) k.
Proof.
  unfold failed_round. cbn [seq flat_map]. rewrite <- seq_shift, flat_map_concat_map, map_map.
  rewrite <- flat_map_concat_map. change (Z.of_nat 0) with 0. rewrite Z.add_0_r.
  cbn [app]. f_equal. f_equal. apply flat_map_ext. intros i.
  replace (a + Z.of_nat (S i)) with (a + 1 + Z.of_nat i) by lia. reflexivity.
Qed.

Lemma attempts_log n : forall a base url opts le s,
  match attempts n a base url opts le s with
  | (inr _, s') =>
      events s' = events s ++ failed_round base url (retriesPerInstance opts) a n
  | (inl f, s') =>
      exists k, (k < n)%nat
        /\ events s' = events s ++ failed_round base url (retriesPerInstance opts) a k
                       ++ [EvGet base url (a + Z.of_nat k) true]
        /\ instanceUsed f = base
        /\ (100 <= String.length (html f))%nat
        /\ includes (html f) "Verifying your browser" = false
  end.
Proof.
  induction n as [|n IH]; intros a base url opts le s; cbn [attempts].
  - cbn. now rewrite app_nil_r.
  - unfold attempt_once. destruct (http_get url (timeoutMs opts) (world s)) as [out w].
    destruct (check_response base out) as [f|err] eqn:Ec.
    + exists O. cbn [failed_round seq flat_map app Z.of_nat events]. rewrite Z.add_0_r.
      split; [lia|]. split; [reflexivity|].
      unfold check_response in Ec. destruct out as [msg|res]; [discriminate|].
      destruct (negb (res_ok res)); [discriminate|].
      destruct (res_text res) as [body|msg]; [|discriminate].
      destruct (negb (truthy body) || (String.length body <? 100)%nat) eqn:Es; [discriminate|].
      destruct (includes body "Verifying your browser") eqn:Ei; [discriminate|].
      inversion Ec; subst; cbn [html instanceUsed]. split; [reflexivity|].
      split; [|assumption]. apply orb_false_iff in Es. destruct Es as [_ Es].
      apply Nat.ltb_ge in Es. exact Es.
    + cbn [is_plausible].
      set (s1 := {| world := w; disk := disk s;
                    events := events s ++ [EvGet base url a false] |}).
      set (s2 := if a <? retriesPerInstance opts
                 then snd (sleep (250 * (a + 1)) s1) else s1).
      assert (Hs2 : events s2
                    = events s ++ EvGet base url a false
                      :: (if a <? retriesPerInstance opts
                          then [EvSleep (250 * (a + 1))] else [])).
      { subst s2. destruct (a <? retriesPerInstance opts).
        - destruct (sleep_spec (250 * (a + 1)) s1) as [He _]. rewrite He. subst s1.
          cbn [events]. now rewrite <- app_assoc.
        - reflexivity. }
      specialize (IH (a + 1) base url opts (Some err) s2).
      destruct (attempts n (a + 1) base url opts (Some err) s2) as [[f|le'] s3].
      * destruct IH as (k & Hk & Hev & Hrest). exists (S k). split; [lia|].
        split; [|exact Hrest]. rewrite Hev, Hs2, failed_round_S.
        replace (a + Z.of_nat (S k)) with (a + 1 + Z.of_nat k) by lia.
        cbn [app]. now rewrite <- !app_assoc.
      * rewrite IH, Hs2, failed_round_S. cbn [app]. now rewrite <- !app_assoc.
Qed.

Lemma mirrors_log bases : forall isAbsolute pathOrUrl path opts le s,
  let tg := request_url isAbsolute pathOrUrl path in
  let n := attempts_per_mirror opts in
  let r := retriesPerInstance opts in
  match mirrors bases isAbsolute pathOrUrl path opts le s with
  | (inr _, s') =>
      events s' = events s ++ flat_map (fun b => failed_round b (tg b) r 0 n) bases
  | (inl f, s') =>
      exists done rest k, bases = done ++ instanceUsed f :: rest
        /\ (k < n)%nat
        /\ events s' = events s
                       ++ flat_map (fun b => failed_round b (tg b) r 0 n) done
                       ++ failed_round (instanceUsed f) (tg (instanceUsed f)) r 0 k
                       ++ [EvGet (instanceUsed f) (tg (instanceUsed f)) (Z.of_nat k) true]
        /\ (100 <= String.length (html f))%nat
        /\ includes (html f) "Verifying your browser" = false
  end.
Proof.
  induction bases as [|b bases IH]; intros isAbsolute pathOrUrl path opts le s tg n r;
    cbn [mirrors].
  - cbn. now rewrite app_nil_r.
  - fold (attempts_per_mirror opts). fold n. fold tg.
    pose proof (attempts_log n 0 b (tg b) opts le s) as HA. fold r in HA.
    destruct (attempts n 0 b (tg b) opts le s) as [[f|le1] s1].
    + destruct HA as (k & Hk & Hev & Hb & Hlen & Hinc).
      exists [], bases, k. subst b. cbn [flat_map app]. repeat split; auto.
    + specialize (IH isAbsolute pathOrUrl path opts le1 s1). cbv zeta in IH.
      fold tg in IH. fold n in IH. fold r in IH.
      destruct (mirrors bases isAbsolute pathOrUrl path opts le1 s1) as [[f|le2] s2].
      * destruct IH as (done & rest & k & Hb & Hk & Hev & Hlen & Hinc).
        exists (b :: done), rest, k. split; [now rewrite Hb|]. split; [assumption|].
        split; [|split; assumption].
        rewrite Hev, HA. cbn [flat_map]. now rewrite <- !app_assoc.
      * rewrite IH, HA. cbn [flat_map]. now rewrite <- !app_assoc.
Qed.

Lemma pauses_app (l1 l2 : list Event) : pauses (l1 ++ l2) = pauses l1 ++ pauses l2.
Proof. unfold pauses. now rewrite !flat_map_concat_map, map_app, concat_app. Qed.

Lemma backoff_S k : backoff (S k) = backoff k ++ [250 * (Z.of_nat k + 1)].
Proof. unfold backoff. now rewrite seq_S, map_app. Qed.

Lemma failed_round_snoc base url retries a k :
  failed_round base url retries a (S k)
  = failed_round base url retries a k
    ++ EvGet base url (a + Z.of_nat k) false
       :: (if a + Z.of_nat k <? retries then [EvSleep (250 * (a + Z.of_nat k + 1))] else []).
Proof.
  unfold failed_round. rewrite seq_S, !flat_map_concat_map, map_app, concat_app.
  cbn [map concat Nat.add]. now rewrite app_nil_r.
Qed.

(** The pauses of a round of failed attempts: one after each attempt but the
    last one allowed, 250 ms longer each time. *)
Lemma pauses_failed_round base url retries k :
  (Z.of_nat k <= Z.max 0 (retries + 1)) ->
  pauses (failed_round base url retries 0 k)
  = backoff (Nat.min k (Z.to_nat retries)).
Proof.
  induction k as [|k IH]; intros Hk; [reflexivity|].
  rewrite failed_round_snoc, pauses_app, IH by lia. cbn [Z.add].
  destruct (Z.of_nat k <? retries) eqn:E.
  - apply Z.ltb_lt in E.
    replace (Nat.min (S k) (Z.to_nat retries)) with (S k) by lia.
    replace (Nat.min k (Z.to_nat retries)) with k by lia.
    rewrite backoff_S. reflexivity.
  - apply Z.ltb_ge in E.
    replace (Nat.min (S k) (Z.to_nat retries)) with (Nat.min k (Z.to_nat retries)) by lia.
    cbn. now rewrite app_nil_r.
Qed.

(** X1.  The whole log of a call of the fetcher.  It holds nothing but GET
    requests and pauses.  On every mirror that fails throughout, each attempt
    is followed by a pause of 250 ms times its number (counted from one),
    except the last attempt allowed, which is followed by none; on the mirror
    that serves, the same for the attempts that fail, and the log ends with
    the request that succeeded.  The document returned has at least 100 code
    units and does not hold the challenge marker, and the mirror named in the
    result is one of the cleaned list. *)
Theorem fetch_logs_requests_and_backoff pathOrUrl opts s :
  let bases := cleanInstances (instances opts) in
  let n := attempts_per_mirror opts in
  let r := retriesPerInstance opts in
  let round b k := failed_round b (target pathOrUrl b) r 0 k in
  (forall b k, (k <= n)%nat ->
     pauses (round b k) = backoff (Nat.min k (Z.to_nat r))
     /\ requests (round b k) = failed_attempts b (target pathOrUrl b) 0 k)
  /\ match fetchHtmlWithFallback pathOrUrl opts s with
     | (Returned f, s') =>
         exists done rest k, bases = done ++ instanceUsed f :: rest
           /\ (k < n)%nat
           /\ events s' = events s
                          ++ flat_map (fun b => round b n) done
                          ++ round (instanceUsed f) k
                          ++ [EvGet (instanceUsed f) (target pathOrUrl (instanceUsed f))
                                (Z.of_nat k) true]
           /\ In (instanceUsed f) bases
           /\ (100 <= String.length (html f))%nat
           /\ includes (html f) "Verifying your browser" = false
     | (Threw msg, s') =>
         (s' = s /\ (bases = [] \/ ~ url_accepted pathOrUrl))
         \/ (bases <> [] /\ events s' = events s ++ flat_map (fun b => round b n) bases)
     end.
Proof.
  intros bases n r round. split.
  - intros b k Hk. subst round. cbv beta. split.
    + apply pauses_failed_round. unfold n, attempts_per_mirror in Hk. lia.
    + clear Hk. induction k as [|k IH]; [reflexivity|].
      rewrite failed_round_snoc, requests_app, IH. unfold failed_attempts.
      rewrite seq_S, map_app. cbn [Nat.add map]. f_equal.
      destruct (0 + Z.of_nat k <? r); reflexivity.
  - unfold fetchHtmlWithFallback. fold bases.
    destruct bases as [|b0 bs] eqn:Eb; cbn [length Nat.eqb].
    + unfold throw. left. auto.
    + assert (HM : forall path,
                request_url (is_absolute pathOrUrl) pathOrUrl path = target pathOrUrl ->
                match (match mirrors (b0 :: bs) (is_absolute pathOrUrl) pathOrUrl path opts None s
                       with
                       | (inl f, s1) => (Returned f, s1)
                       | (inr lastError, s1) =>
                           (Threw ("All Nitter instances failed. Last error: "
                                   ^^ match lastError with
                                      | Some m => m
                                      | None => "Unknown error: undefined"
                                      end), s1)
                       end) with
                | (Returned f, s') =>
                    exists done rest k, b0 :: bs = done ++ instanceUsed f :: rest
                      /\ (k < n)%nat
                      /\ events s' = events s
                                     ++ flat_map (fun b => round b n) done
                                     ++ round (instanceUsed f) k
                                     ++ [EvGet (instanceUsed f)
                                           (target pathOrUrl (instanceUsed f))
                                           (Z.of_nat k) true]
                      /\ In (instanceUsed f) (b0 :: bs)
                      /\ (100 <= String.length (html f))%nat
                      /\ includes (html f) "Verifying your browser" = false
                | (Threw msg, s') =>
                    (s' = s /\ (b0 :: bs = [] \/ ~ url_accepted pathOrUrl))
                    \/ (b0 :: bs <> []
                        /\ events s' = events s ++ flat_map (fun b => round b n) (b0 :: bs))
                end).
      { intros path Htg.
        pose proof (mirrors_log (b0 :: bs) (is_absolute pathOrUrl) pathOrUrl path opts None s)
          as HL. cbv zeta in HL. rewrite Htg in HL. fold n in HL. fold r in HL.
        destruct (mirrors (b0 :: bs) (is_absolute pathOrUrl) pathOrUrl path opts None s)
          as [[f|le] s'].
        - destruct HL as (done & rest & k & Hb & Hk & Hev & Hlen & Hinc).
          exists done, rest, k. repeat split; try assumption.
          rewrite Hb. apply in_or_app. right. left. reflexivity.
        - right. split; [discriminate | exact HL]. }
      destruct (is_absolute pathOrUrl) eqn:Eabs.
      * destruct (URL_parse pathOrUrl) as [[pathname search]|] eqn:Eurl.
        -- apply HM. unfold target. now rewrite Eabs.
        -- unfold throw. left. split; [reflexivity|]. right. intros Hacc. now apply Hacc.
      * apply HM. unfold target. now rewrite Eabs.
Qed.

End FetcherLog.

(* ================================================================== *)
(** ** The search aggregator: the limit, and a search that cannot start *)
(* ================================================================== *)

Section SearchBounds.
Context `{Platform}.

Definition within (limit : Z) (results : list TweetResult) : Prop :=
  Z.of_nat (length results) <= Z.max 0 limit.

Lemma push_page_within limit pageTweets : forall results,
  within limit results -> within limit (push_page limit results pageTweets).
Proof.
  unfold within. induction pageTweets as [|t rest IH]; intros results Hw; cbn [push_page];
    [assumption|].
  destruct (Z.of_nat (length results) >=? limit) eqn:E; [assumption|].
  destruct (has_id results (id t)); [now apply IH|].
  apply IH. rewrite length_app. cbn [length].
  rewrite Z.geb_leb in E. apply Z.leb_gt in E. lia.
Qed.

Lemma loop_body_within limit opts st s :
  within limit (acc st) -> within limit (acc (fst (fst (loop_body limit opts st s)))).
Proof.
  intros Hw. unfold loop_body.
  destruct (fetchHtmlWithFallback _ opts s) as [[f|msg] s1]; [|assumption].
  destruct (if Z.of_nat (length _) <? limit then _ else _); cbn [fst acc];
    now apply push_page_within.
Qed.

Lemma search_pages_within limit opts fuel : forall st s,
  within limit (acc st) ->
  within limit (acc (fst (fst (search_pages fuel limit opts st s)))).
Proof.
  induction fuel as [|k IH]; intros st s Hw; cbn [search_pages]; [assumption|].
  destruct (loop_guard limit st); [|assumption].
  pose proof (@loop_body_within limit opts st s Hw) as Hb.
  destruct (loop_body limit opts st s) as [[st1 [msg|]] s1]; cbn [fst] in *; [assumption|].
  now apply IH.
Qed.

(** X2.  A search never returns more records than the limit it was given
    (none when the limit is not positive), whatever the pages hold and
    whether or not it ends with an error. *)
Theorem search_never_exceeds_limit q limit opts s :
  exists r s',
    searchNitterGlobal q limit opts s = (Returned r, s')
    /\ Z.of_nat (length (results r)) <= Z.max 0 limit.
Proof.
  destruct (search_unfold q limit opts s)
    as (st & err & s1 & s2 & Hrun & _ & _ & r & Hs & _ & Hres & _).
  exists r, s2. split; [exact Hs|]. rewrite Hres.
  pose proof (@search_pages_within limit opts 10 (search_start q) s) as Hw.
  rewrite Hrun in Hw. cbn [fst] in Hw. apply Hw. unfold within. cbn. lia.
Qed.

(** X3.  With a limit that is not positive the search makes no request: it
    returns no record and no error, and logs nothing. *)
Theorem search_without_room_requests_nothing q limit opts s :
  limit <= 0 ->
  exists r s',
    searchNitterGlobal q limit opts s = (Returned r, s')
    /\ results r = [] /\ error r = None /\ events s' = events s.
Proof.
  intros Hl.
  destruct (search_unfold q limit opts s)
    as (st & err & s1 & s2 & Hrun & Hev & _ & r & Hs & _ & Hres & Herr).
  assert (Hg : loop_guard limit (search_start q) = false).
  { unfold loop_guard. cbn [acc search_start length Z.of_nat].
    assert (E : (0 <? limit) = false) by (apply Z.ltb_ge; lia).
    rewrite E. apply andb_false_r. }
  cbn [search_pages] in Hrun. rewrite Hg in Hrun. inversion Hrun; subst; clear Hrun.
  exists r, s2. split; [exact Hs|]. rewrite Hres, Herr, Hev. repeat split.
Qed.

(** X4.  With no usable mirror (every entry of the list is blank) and room
    for at least one record, the search does not throw: it returns no record
    and the error that tells that no instance was provided, and makes no
    request. *)
Theorem search_without_mirror_reports_it q limit opts s :
  cleanInstances (instances opts) = [] ->
  0 < limit ->
  exists r s',
    searchNitterGlobal q limit opts s = (Returned r, s')
    /\ results r = []
    /\ error r = Some (failure_text 0 no_instances_msg)
    /\ events s' = events s.
Proof.
  intros Hno Hl.
  destruct (search_unfold q limit opts s)
    as (st & err & s1 & s2 & Hrun & Hev & _ & r & Hs & _ & Hres & Herr).
  assert (Hg : loop_guard limit (search_start q) = true).
  { unfold loop_guard. cbn [acc page nextPath search_start length Z.of_nat].
    assert (E : (0 <? limit) = true) by (apply Z.ltb_lt; lia).
    rewrite E. reflexivity. }
  assert (Hb : loop_body limit opts (search_start q) s
               = ((search_start q, Some no_instances_msg), s)).
  { unfold loop_body, fetchHtmlWithFallback. rewrite Hno. reflexivity. }
  cbn [search_pages] in Hrun. rewrite Hg, Hb in Hrun. inversion Hrun; subst; clear Hrun.
  exists r, s2. split; [exact Hs|]. rewrite Hres, Herr, Hev. repeat split.
Qed.

End SearchBounds.

(* ================================================================== *)
(** ** The list of mirrors the engine hands to the fetcher *)
(* ================================================================== *)

Section Mirrors.

Lemma drop_trailing_head p c r :
  drop_trailing p (String c r) = EmptyString
  \/ exists r', drop_trailing p (String c r) = String c r'.
Proof.
  cbn [drop_trailing]. destruct (drop_trailing p r) as [|c' r'].
  - destruct (p c); eauto.
  - eauto.
Qed.

Lemma drop_trailing_idem p s : drop_trailing p (drop_trailing p s) = drop_trailing p s.
Proof.
  induction s as [|c r IH]; [reflexivity|]. cbn [drop_trailing].
  destruct (drop_trailing p r) as [|c' r'] eqn:E.
  - destruct (p c) eqn:Ep; [reflexivity|]. cbn [drop_trailing]. now rewrite Ep.
  - cbn [drop_trailing] in *. cbn [drop_trailing]. now rewrite IH.
Qed.

Lemma trimStart_idem s : trimStart (trimStart s) = trimStart s.
Proof.
  induction s as [|c r IH]; [reflexivity|]. cbn [trimStart].
  destruct (is_space c) eqn:E; [exact IH|]. cbn [trimStart]. now rewrite E.
Qed.

(** [s.trim().trim()] is [s.trim()]. *)
Lemma trim_idem s : trim (trim s) = trim s.
Proof.
  unfold trim. assert (Hs : trimStart (drop_trailing is_space (trimStart s))
                            = drop_trailing is_space (trimStart s)).
  { pose proof (trimStart_idem s) as Hi. destruct (trimStart s) as [|c r]; [reflexivity|].
    cbn [trimStart] in Hi. destruct (is_space c) eqn:E.
    - (* the head of a string [trimStart] returns is no space *)
      exfalso. clear - Hi E.
      assert (Hlen : forall u, (String.length (trimStart u) <= String.length u)%nat).
      { induction u as [|c' u IH]; cbn; [lia|]. destruct (is_space c'); cbn; lia. }
      specialize (Hlen r). rewrite Hi in Hlen. cbn in Hlen. lia.
    - destruct (drop_trailing_head is_space c r) as [-> | (r' & ->)]; [reflexivity|].
      cbn [trimStart]. now rewrite E. }
  rewrite Hs. apply drop_trailing_idem.
Qed.

Lemma filter_all_true {A} (f : A -> bool) l :
  (forall x, In x l -> f x = true) -> filter f l = l.
Proof.
  induction l as [|x r IH]; intros Hall; [reflexivity|]. cbn [filter].
  rewrite Hall by now left. f_equal. apply IH. intros y Hy. apply Hall. now right.
Qed.

(** What [getInstances] returns is trimmed and free of blank entries. *)
Lemma getInstances_trimmed raw x :
  In x (getInstances raw) -> trim x = x /\ truthy x = true.
Proof.
  assert (Hdef : In x ["https://nitter.net"; "https://nitter.poast.org";
                       "https://nitter.privacydev.net"]
                 -> trim x = x /\ truthy x = true).
  { intros [<- | [<- | [<- | []]]]; split; reflexivity. }
  unfold getInstances. destruct raw as [r|]; [|exact Hdef].
  destruct (negb (truthy r)); [exact Hdef|].
  destruct (0 <? length (filter truthy (map trim (split_comma r))))%nat.
  - intros Hin. apply filter_In in Hin. destruct Hin as [Hin Ht]. split; [|exact Ht].
    apply in_map_iff in Hin. destruct Hin as (y & <- & _). apply trim_idem.
  - intros [<- | []]. split; reflexivity.
Qed.

(** X11.  Whatever NITTER_INSTANCES holds, the engine hands the fetcher a list
    of mirrors out of which cleaning drops nothing: the cleaned list has as
    many entries as [getInstances] returned, at least one, and none of them
    ends with a slash.  The fetcher therefore never fails for want of an
    instance when the engine calls it. *)
Theorem engine_always_has_a_mirror raw :
  cleanInstances (getInstances raw) = map strip_trailing_slashes (getInstances raw)
  /\ cleanInstances (getInstances raw) <> []
  /\ (forall b, In b (cleanInstances (getInstances raw)) -> strip_trailing_slashes b = b)
  /\ (forall `{Platform} path timeout retries s,
        fst (fetchHtmlWithFallback path
               {| instances := getInstances raw; timeoutMs := timeout;
                  retriesPerInstance := retries |} s)
        <> Threw no_instances_msg).
Proof.
  assert (Hclean : cleanInstances (getInstances raw)
                   = map strip_trailing_slashes (getInstances raw)).
  { unfold cleanInstances. f_equal.
    rewrite <- (map_id (getInstances raw)) at 2.
    rewrite filter_all_true.
    - apply map_ext_in. intros x Hx. now destruct (getInstances_trimmed raw x Hx).
    - intros x Hx. apply in_map_iff in Hx. destruct Hx as (y & <- & Hy).
      destruct (getInstances_trimmed raw y Hy) as [Ht Htr]. now rewrite Ht. }
  assert (Hne : getInstances raw <> []).
  { unfold getInstances. destruct raw as [r|]; [|discriminate].
    destruct (negb (truthy r)); [discriminate|].
    destruct (filter truthy (map trim (split_comma r))); cbn; discriminate. }
  split; [exact Hclean|]. split; [|split].
  - rewrite Hclean. destruct (getInstances raw); [congruence | discriminate].
  - rewrite Hclean. intros b Hb. apply in_map_iff in Hb. destruct Hb as (x & <- & _).
    apply drop_trailing_idem.
  - intros P path timeout retries s. unfold fetchHtmlWithFallback. cbn [instances].
    rewrite Hclean. destruct (getInstances raw) as [|b0 bs]; [congruence|].
    cbn [map length Nat.eqb].
    destruct (is_absolute path).
    + destruct (URL_parse path) as [[pathname search]|]; [|cbn; discriminate].
      destruct (mirrors _ true path _ _ None s) as [[f|le] s1]; cbn; discriminate.
    + destruct (mirrors _ false path _ _ None s) as [[f|le] s1]; cbn; discriminate.
Qed.

End Mirrors.

(* ================================================================== *)
(** ** The extractor: what every record holds *)
(* ================================================================== *)

Section ExtractorFacts.
Context `{Platform}.

Lemma or_else_truthy a b : truthy b = true -> truthy (or_else a b) = true.
Proof. unfold or_else. destruct (truthy a) eqn:E; auto. Qed.

Lemma extract_item_record baseUsed it t :
  extract_item baseUsed it = Some t ->
  text t = trim (content_text it)
  /\ truthy (text t) = true
  /\ truthy (id t) = true
  /\ (truthy (url t) = false -> id t = slice0 32 (text t))
  /\ (truthy (url t) = true -> id t = or_else (after_last_slash (url t)) (url t))
  /\ authorHandle t <> Some ""
  /\ authorName t <> Some "".
Proof.
  unfold extract_item. destruct (negb (truthy (trim (content_text it)))) eqn:Et; [discriminate|].
  apply negb_false_iff in Et. intros [= <-]. cbn [text id url authorHandle authorName].
  split; [reflexivity|]. split; [exact Et|].
  set (u := if truthy match date_href it with Some h => h | None => "" end then _ else "").
  assert (Hne : forall s, nonempty s <> Some "").
  { intros s. unfold nonempty. destruct s; cbn; congruence. }
  destruct (truthy u) eqn:Eu.
  - split; [now apply or_else_truthy|]. split; [discriminate|]. split; [reflexivity|].
    split; apply Hne.
  - split.
    + destruct (trim (content_text it)); [discriminate | reflexivity].
    + split; [reflexivity|]. split; [discriminate|]. split; apply Hne.
Qed.

(** X5.  Every record the extractor returns has a text that is not empty and
    is trimmed, and an identifier that is not empty: what follows the last
    slash of its URL (the URL itself when nothing follows), or the first 32
    code units of the text when the item has no permalink.  An author handle
    or name is given only when it is not empty.  There is one record for
    each timeline item whose content is not blank, in document order. *)
Theorem extracted_records_have_text_and_id html baseUsed :
  let tweets := extractTweetsFromHtml html baseUsed in
  length tweets
  = length (filter (fun it => truthy (trim (content_text it))) (timeline_items html))
  /\ forall t, In t tweets ->
       truthy (text t) = true
       /\ trim (text t) = text t
       /\ truthy (id t) = true
       /\ (truthy (url t) = false -> id t = slice0 32 (text t))
       /\ (truthy (url t) = true -> id t = or_else (after_last_slash (url t)) (url t))
       /\ authorHandle t <> Some ""
       /\ authorName t <> Some "".
Proof.
  intros tweets. subst tweets. unfold extractTweetsFromHtml. split.
  - induction (timeline_items html) as [|it r IH]; [reflexivity|].
    cbn [flat_map filter]. rewrite length_app, IH. unfold extract_item at 1.
    destruct (truthy (trim (content_text it))); reflexivity.
  - intros t Hin. apply in_flat_map in Hin. destruct Hin as (it & _ & Hit).
    destruct (extract_item baseUsed it) as [t'|] eqn:E; [|destruct Hit].
    destruct Hit as [<- | []].
    destruct (extract_item_record baseUsed it E) as (Htxt & Ht & Hid & Hno & Hurl & Hh & Hn).
    repeat split; try assumption. rewrite Htxt. apply trim_idem.
Qed.

End ExtractorFacts.

(* ================================================================== *)
(** ** The monitor engine: what is saved, and a record met again *)
(* ================================================================== *)

(** The entry of a record holds its like-count, or the identifier of the
    record names a member of [Object.prototype] that no own property hides:
    in both cases the record is taken for seen and for unchanged. *)
Definition quiet_entry (seenMap : SeenTweets) (tweet : TweetResult) : Prop :=
  match lookup seenMap (id tweet) with
  | Own prevStats => st_likes prevStats = or_zero (likes tweet)
  | Inherited => True
  | Absent => False
  end.

Section EngineRevisits.
Context `{Platform}.

(** X6.  What a cycle saves is what the next cycle loads: after [saveState]
    the state file parses to the document of the map, [loadState] returns it
    without migrating anything, and it reads back as the map. *)
Theorem saved_state_is_loaded_back seen s :
  exists s1,
    saveState seen s = (Returned tt, s1)
    /\ loadState s1 = (Returned (encode_state seen), s1)
    /\ decode_state (encode_state seen) = seen.
Proof.
  eexists. split; [reflexivity|]. split; [|apply decode_encode].
  unfold loadState. cbn [disk]. unfold try_catch, encode_state.
  rewrite migrate_flat; [reflexivity | apply encode_seen_entry_like].
Qed.

Lemma is_stale_earlier now1 now2 tweet :
  now1 <= now2 -> is_stale now2 tweet = false -> is_stale now1 tweet = false.
Proof.
  intros Hle. unfold is_stale. destruct (createdAt tweet) as [c|]; [|reflexivity].
  destruct (truthy c); [|reflexivity].
  destruct (Date_parse c) as [tweetTime|]; [|reflexivity].
  rewrite !Z.gtb_ltb. intros E. apply Z.ltb_ge in E. apply Z.ltb_ge. lia.
Qed.

Lemma quiet_entry_decide floor seenMap tweet :
  quiet_entry seenMap tweet -> decide floor (lookup seenMap (id tweet)) tweet = None.
Proof.
  unfold quiet_entry, decide. destruct (lookup seenMap (id tweet)) as [prevStats| |];
    [|reflexivity|intros []].
  intros ->. rewrite Z.sub_diag. cbn [Z.geb Z.compare]. now rewrite andb_false_r.
Qed.

Lemma lookup_set_other (seenMap : SeenTweets) i i' v :
  i' <> i -> lookup (obj_set i v seenMap) i' = lookup seenMap i'.
Proof. intros Hne. unfold lookup. now rewrite obj_get_set_other. Qed.

(** Once its entry is written a record is quiet. *)
Lemma quiet_entry_written now seenMap tweet :
  quiet_entry (obj_set (id tweet) (observed now tweet) seenMap) tweet.
Proof.
  unfold quiet_entry, lookup. destruct (string_dec (id tweet) "__proto__") as [E|E].
  - unfold obj_set. destruct (has_key (id tweet) seenMap) eqn:Hk.
    + now rewrite obj_replace_get_same.
    + rewrite E in *. cbn [String.eqb Ascii.eqb Bool.eqb]. cbn.
      unfold has_key in Hk. destruct (obj_get "__proto__" seenMap); [discriminate|].
      exact I.
  - now rewrite obj_get_set_same.
Qed.

(** The loop writes the entries of the records it goes through only. *)
Lemma process_tweets_other_entries env webhookUrl monitor now floor tweets :
  forall seenMap s i,
    ~ In i (map id tweets) ->
    obj_get i (snd (fst (process_tweets env webhookUrl monitor now floor tweets seenMap s)))
    = obj_get i seenMap.
Proof.
  induction tweets as [|tweet rest IH]; intros seenMap s i Hni; [reflexivity|].
  cbn [map In] in Hni.
  assert (Hrest : ~ In i (map id rest)) by tauto.
  assert (Hhead : i <> id tweet) by (intros E; apply Hni; left; congruence).
  rewrite process_tweets_head. destruct (verdict now floor seenMap tweet) as [|reason|].
  - now apply IH.
  - destruct (alert env webhookUrl monitor tweet reason s) as [[[]|msg] s1]; [|reflexivity].
    rewrite IH by assumption. now apply obj_get_set_other.
  - rewrite IH by assumption. now apply obj_get_set_other.
Qed.

(** After a pass that returned, every record that was not skipped as stale
    is quiet. *)
Lemma process_tweets_leaves_quiet env webhookUrl monitor now floor tweets :
  forall seenMap s seenMap' s',
    process_tweets env webhookUrl monitor now floor tweets seenMap s
    = ((Returned tt, seenMap'), s') ->
    NoDup (map id tweets) ->
    forall t, In t tweets -> is_stale now t = false -> quiet_entry seenMap' t.
Proof.
  induction tweets as [|tweet rest IH]; intros seenMap s seenMap' s' Hrun Hnd t Hin Hfresh;
    [destruct Hin|].
  cbn [map] in Hnd. inversion Hnd as [|? ? Hni Hnd']; subst.
  rewrite process_tweets_head in Hrun. unfold verdict in Hrun.
  destruct Hin as [<- | Hin].
  - rewrite Hfresh in Hrun.
    assert (Hstep : exists s1,
              process_tweets env webhookUrl monitor now floor rest
                (obj_set (id tweet) (observed now tweet) seenMap) s1
              = ((Returned tt, seenMap'), s')).
    { destruct (decide floor (lookup seenMap (id tweet)) tweet) as [reason|].
      - destruct (alert env webhookUrl monitor tweet reason s) as [[[]|msg] s1];
          [eauto | discriminate].
      - eauto. }
    destruct Hstep as (s1 & Hrest).
    pose proof (@process_tweets_other_entries env webhookUrl monitor now floor rest
                  (obj_set (id tweet) (observed now tweet) seenMap) s1 (id tweet) Hni) as Hsame.
    rewrite Hrest in Hsame. cbn [fst snd] in Hsame.
    pose proof (quiet_entry_written now seenMap tweet) as Hq.
    unfold quiet_entry, lookup in *. now rewrite Hsame.
  - destruct (is_stale now tweet).
    + exact (IH _ _ _ _ Hrun Hnd' t Hin Hfresh).
    + destruct (decide floor (lookup seenMap (id tweet)) tweet) as [reason|].
      * destruct (alert env webhookUrl monitor tweet reason s) as [[[]|msg] s1];
          [|discriminate].
        exact (IH _ _ _ _ Hrun Hnd' t Hin Hfresh).
      * exact (IH _ _ _ _ Hrun Hnd' t Hin Hfresh).
Qed.

(** A pass over records that are stale or quiet alerts on none: it does no
    I/O and leaves them quiet. *)
Lemma process_tweets_quiet env webhookUrl monitor now floor tweets :
  forall seenMap s,
    NoDup (map id tweets) ->
    (forall t, In t tweets -> is_stale now t = false -> quiet_entry seenMap t) ->
    exists seenMap',
      process_tweets env webhookUrl monitor now floor tweets seenMap s
      = ((Returned tt, seenMap'), s).
Proof.
  induction tweets as [|tweet rest IH]; intros seenMap s Hnd Hq; [eexists; reflexivity|].
  cbn [map] in Hnd. inversion Hnd as [|? ? Hni Hnd']; subst.
  rewrite process_tweets_head. unfold verdict.
  destruct (is_stale now tweet) eqn:Es.
  - apply IH; [assumption|]. intros t Hin. apply Hq. now right.
  - rewrite quiet_entry_decide by (apply Hq; [now left | assumption]).
    apply IH; [assumption|]. intros t Hin Hfresh.
    assert (Hne : id t <> id tweet).
    { intros E. apply Hni. rewrite <- E. now apply in_map. }
    unfold quiet_entry. rewrite lookup_set_other by assumption.
    apply Hq; [now right | assumption].
Qed.

(** X7.  A record is not alerted on twice for the same counters.  After a
    pass of the loop over records with distinct identifiers has returned, a
    pass over the same records at the same or a later time, by whatever
    monitor and with whatever floor, alerts on none of them: it returns
    without any I/O, the system state is the one it started from. *)
Theorem second_pass_alerts_on_nothing env webhookUrl monitor now1 floor1 tweets
    seenMap s seenMap1 s1 now2 :
  process_tweets env webhookUrl monitor now1 floor1 tweets seenMap s
  = ((Returned tt, seenMap1), s1) ->
  NoDup (map id tweets) ->
  now1 <= now2 ->
  forall env2 webhookUrl2 monitor2 floor2 s2,
  exists seenMap2,
    process_tweets env2 webhookUrl2 monitor2 now2 floor2 tweets seenMap1 s2
    = ((Returned tt, seenMap2), s2).
Proof.
  intros Hrun Hnd Hle env2 webhookUrl2 monitor2 floor2 s2.
  apply process_tweets_quiet; [assumption|].
  intros t Hin Hfresh.
  apply (@process_tweets_leaves_quiet env webhookUrl monitor now1 floor1 tweets
           seenMap s seenMap1 s1 Hrun Hnd t Hin).
  exact (@is_stale_earlier now1 now2 t Hle Hfresh).
Qed.

End EngineRevisits.

(* ================================================================== *)
(** ** The monitor engine: which posts a monitor makes *)
(* ================================================================== *)

Section MonitorPosts.
Context `{Platform}.

(** X8.  A monitor whose search ended with an error alerts on nothing, not
    even on the records the search did collect before it failed: it returns
    with the map of seen tweets as it was, having posted nothing and written
    nothing. *)
Theorem failed_search_alerts_on_nothing env monitor seenMap webhookUrl globalOpts s r s1 :
  searchNitterGlobal (mc_query monitor) 50 globalOpts (snd (now s)) = (Returned r, s1) ->
  is_set (error r) = true ->
  processMonitor env monitor seenMap webhookUrl globalOpts s = ((Returned tt, seenMap), s1)
  /\ posts_in (events s1) = posts_in (events s)
  /\ disk s1 = disk s.
Proof.
  intros Hs He.
  pose proof (search_posts (mc_query monitor) 50 globalOpts (snd (now s))) as Hp.
  pose proof (search_keeps_disk (mc_query monitor) 50 globalOpts (snd (now s))) as Hd.
  rewrite Hs in Hp, Hd. cbn [snd] in Hp, Hd.
  unfold processMonitor. unfold now, io in *. destruct (Date_now (world s)) as [t w].
  cbn [snd] in *. rewrite Hs, He. auto.
Qed.

(** X9.  A pass of the loop posts at most once for each record it is given,
    and only about records the age check did not skip: the posts it adds to
    the log are no more than the records, and each carries the identifier of
    one of the records that are not stale. *)
Theorem posts_are_about_fresh_records env webhookUrl monitor now floor tweets seenMap s :
  enrichment_keeps_records ->
  exists seenMap' s' posts,
    process_tweets env webhookUrl monitor now floor tweets seenMap s
    = ((Returned tt, seenMap'), s')
    /\ posts_in (events s') = posts_in (events s) ++ posts
    /\ (length posts <= length tweets)%nat
    /\ forall e, In e posts ->
         exists t reason d,
           In t tweets /\ is_stale now t = false /\ e = EvPost (id t) reason d.
Proof.
  intros Henrich. revert seenMap s.
  induction tweets as [|tweet rest IH]; intros seenMap s.
  - exists seenMap, s, []. split; [reflexivity|]. rewrite app_nil_r.
    split; [reflexivity|]. split; [cbn; lia | intros e []].
  - rewrite process_tweets_head. unfold verdict. destruct (is_stale now tweet) eqn:Es.
    + destruct (IH seenMap s) as (seen' & s' & posts & Hrun & Hev & Hlen & Hin).
      exists seen', s', posts. split; [exact Hrun|]. split; [exact Hev|].
      split; [cbn [length]; lia|]. intros e He.
      destruct (Hin e He) as (t & reason & d & Ht & Hf & E). exists t, reason, d.
      split; [now right | auto].
    + destruct (decide floor (lookup seenMap (id tweet)) tweet) as [reason|].
      * destruct (@alert_returns _ env webhookUrl monitor tweet reason s Henrich)
          as (tw & w & _ & Ha).
        rewrite Ha.
        match goal with
        | |- context [process_tweets _ _ _ _ _ rest ?m ?s1] =>
            destruct (IH m s1) as (seen' & s' & posts & Hrun & Hev & Hlen & Hin)
        end.
        cbn [events] in Hev. rewrite posts_in_app in Hev. cbn in Hev.
        rewrite <- app_assoc in Hev.
        eexists seen', s', (_ :: posts). split; [exact Hrun|]. split; [exact Hev|].
        split; [cbn [length]; lia|]. intros e [<- | He].
        -- exists tweet, reason. eexists. split; [now left | split; [exact Es | reflexivity]].
        -- destruct (Hin e He) as (t & r & d & Ht & Hf & E). exists t, r, d.
           split; [now right | auto].
      * destruct (IH (obj_set (id tweet) (observed now tweet) seenMap) s)
          as (seen' & s' & posts & Hrun & Hev & Hlen & Hin).
        exists seen', s', posts. split; [exact Hrun|]. split; [exact Hev|].
        split; [cbn [length]; lia|]. intros e He.
        destruct (Hin e He) as (t & r & d & Ht & Hf & E). exists t, r, d.
        split; [now right | auto].
Qed.

End MonitorPosts.

(* ================================================================== *)
(** ** worker.ts: reading the environment *)
(* ================================================================== *)

(** A string at which [parseInt] stops reading digits: it is empty or starts
    with a code unit that is no digit. *)
Definition stops_digits (t : string) : Prop :=
  match t with
  | EmptyString => True
  | String c _ => digit c = None
  end.

Section Environment.

Lemma append_empty_r s : s ^^ "" = s.
Proof. induction s as [|c r IH]; cbn; [reflexivity | now rewrite IH]. Qed.

Lemma trimStart_head c r : is_space c = false -> trimStart (String c r) = String c r.
Proof. cbn [trimStart]. now intros ->. Qed.

Lemma digits_prefix_stop acc t : stops_digits t -> digits_prefix acc t = acc.
Proof. destruct t as [|c r]; cbn; [reflexivity|]. now intros ->. Qed.

Lemma digits_prefix_cons acc c r d :
  digit c = Some d ->
  digits_prefix acc (String c r) = digits_prefix (Some (10 * or_zero acc + d)) r.
Proof. cbn [digits_prefix]. now intros ->. Qed.

Lemma digits_prefix_acc t : stops_digits t -> forall l acc,
  digits_prefix (Some (Z.pos acc)) (NilEmpty.string_of_uint l ^^ t)
  = Some (Z.pos (Pos.of_uint_acc l acc)).
Proof.
  intros Ht. induction l as [|l IH|l IH|l IH|l IH|l IH|l IH|l IH|l IH|l IH|l IH];
    intros acc; cbn [NilEmpty.string_of_uint String.append Pos.of_uint_acc];
    [now apply digits_prefix_stop | ..];
    (erewrite digits_prefix_cons by reflexivity); cbn [or_zero]; rewrite <- IH;
    do 2 f_equal;
    match goal with |- context [Z.of_nat ?n] => let v := eval vm_compute in (Z.of_nat n) in
      change (Z.of_nat n) with v end; lia.
Qed.

Lemma digits_prefix_zero t : stops_digits t -> forall l,
  digits_prefix (Some 0) (NilEmpty.string_of_uint l ^^ t) = Some (Z.of_N (Pos.of_uint l)).
Proof.
  intros Ht. induction l as [|l IH|l IH|l IH|l IH|l IH|l IH|l IH|l IH|l IH|l IH];
    cbn [NilEmpty.string_of_uint String.append Pos.of_uint];
    [now apply digits_prefix_stop | ..];
    (erewrite digits_prefix_cons by reflexivity); cbn [or_zero];
    [exact IH | ..]; cbn [Z.of_N]; rewrite <- (@digits_prefix_acc t Ht l); reflexivity.
Qed.

(** [parseInt] on the decimal of a positive number, whatever non-digit text
    follows it. *)
Lemma digits_of_positive p t :
  stops_digits t ->
  digits_prefix None (NilEmpty.string_of_uint (Pos.to_uint p) ^^ t) = Some (Z.pos p)
  /\ parseInt10 (NilEmpty.string_of_uint (Pos.to_uint p) ^^ t) = Some (Z.pos p)
  /\ truthy (NilEmpty.string_of_uint (Pos.to_uint p) ^^ t) = true.
Proof.
  intros Ht.
  pose proof (@digits_prefix_zero t Ht (Pos.to_uint p)) as Hz.
  rewrite Unsigned.of_to in Hz. cbn [Z.of_N] in Hz.
  pose proof (Unsigned.to_uint_nonnil p) as Hnn.
  destruct (Pos.to_uint p) as [|l|l|l|l|l|l|l|l|l|l]; [congruence | ..];
    cbn [NilEmpty.string_of_uint String.append] in *;
    (erewrite digits_prefix_cons in Hz by reflexivity);
    (split; [erewrite digits_prefix_cons by reflexivity; exact Hz|]);
    (split; [|reflexivity]);
    unfold parseInt10; rewrite trimStart_head by reflexivity; cbv beta iota;
    (erewrite digits_prefix_cons by reflexivity); exact Hz.
Qed.

(** X10.  [parseIntSafe] reads back the decimal rendering of every integer
    that a JavaScript number holds exactly, also when text that is no digit
    follows it (["120s"]), and gives the fallback for a variable that is not
    set, is empty, or starts with a code unit that is neither white space, a
    digit nor a sign. *)
Theorem parseIntSafe_reads_decimal z fallback :
  Z.abs z < 2 ^ 53 ->
  parseIntSafe (Some (dec z)) fallback = z
  /\ (forall t, stops_digits t -> parseIntSafe (Some (dec z ^^ t)) fallback = z)
  /\ parseIntSafe None fallback = fallback
  /\ parseIntSafe (Some "") fallback = fallback
  /\ (forall c r,
        is_space c = false -> digit c = None -> c <> "-"%char -> c <> "+"%char ->
        parseIntSafe (Some (String c r)) fallback = fallback).
Proof.
  intros _.
  assert (Hgen : forall t, stops_digits t -> parseIntSafe (Some (dec z ^^ t)) fallback = z).
  { intros t Ht. unfold parseIntSafe. destruct z as [|p|p]; cbn [dec].
    - cbn [String.append]. cbn [truthy String.eqb negb].
      unfold parseInt10. rewrite trimStart_head by reflexivity. cbv beta iota.
      erewrite digits_prefix_cons by reflexivity. now rewrite digits_prefix_stop.
    - destruct (@digits_of_positive p t Ht) as (_ & Hp & Htr). now rewrite Htr, Hp.
    - destruct (@digits_of_positive p t Ht) as (Hd & _ & _).
      cbn [String.append]. cbn [truthy String.eqb negb].
      unfold parseInt10. rewrite trimStart_head by reflexivity. cbv beta iota.
      now rewrite Hd. }
  split; [|split; [exact Hgen|]].
  - specialize (Hgen "" I). now rewrite append_empty_r in Hgen.
  - split; [reflexivity|]. split; [reflexivity|].
    intros c r Hsp Hd Hm Hp. unfold parseIntSafe. cbn [truthy String.eqb negb].
    unfold parseInt10. rewrite trimStart_head by assumption.
    assert (Hnone : digits_prefix None (String c r) = None) by (cbn; now rewrite Hd).
    destruct c as [[] [] [] [] [] [] [] []]; try exact (f_equal _ Hnone) || (now rewrite Hnone);
      congruence.
Qed.

End Environment.

(* ================================================================== *)
(** ** The keyword, domain and blacklist filters *)
(* ================================================================== *)

Section Filters.

Lemma mem_In x l : mem x l = true <-> In x l.
Proof.
  unfold mem. rewrite existsb_exists. split.
  - intros (y & Hy & E). apply String.eqb_eq in E. now subst.
  - intros Hin. exists x. split; [assumption | apply String.eqb_refl].
Qed.

Lemma lower_unit_idem c : lower_unit (lower_unit c) = lower_unit c.
Proof. destruct c as [[] [] [] [] [] [] [] []]; reflexivity. Qed.

Lemma toLowerCase_idem s : toLowerCase (toLowerCase s) = toLowerCase s.
Proof.
  induction s as [|c r IH]; [reflexivity|]. cbn [toLowerCase].
  now rewrite lower_unit_idem, IH.
Qed.

Lemma toLowerCase_truthy s : truthy (toLowerCase s) = truthy s.
Proof. destruct s; reflexivity. Qed.

(** What [isBlacklisted] answers for a handle that is not empty. *)
Lemma isBlacklisted_mem h blacklist :
  truthy h = true ->
  isBlacklisted (Some h) blacklist = mem (strip_at (toLowerCase h)) blacklist.
Proof.
  intros Ht. unfold isBlacklisted. rewrite Ht. cbn [negb].
  destruct blacklist; reflexivity.
Qed.

(** X12.  An account that BLACKLIST_ACCOUNTS lists is blacklisted however the
    entry and the handle are cased, and with or without a leading [@] on
    either; and the records the command line reports hold none by a
    blacklisted author: each is a record of the search, in the order of the
    search, whose author is not blacklisted. *)
Theorem listed_account_is_never_reported raw entry handle :
  In entry (split_comma raw) ->
  truthy (strip_at (toLowerCase (trim entry))) = true ->
  strip_at (toLowerCase handle) = strip_at (toLowerCase (trim entry)) ->
  isBlacklisted (Some handle) (parseBlacklist (Some raw)) = true
  /\ forall keywords domains results m,
       In m (filter_results keywords domains (parseBlacklist (Some raw)) results) ->
       In (matched_tweet m) results
       /\ authorHandle (matched_tweet m) <> Some handle.
Proof.
  intros Hin Hkey Hsame.
  assert (Hraw : truthy raw = true).
  { destruct raw; [|reflexivity]. cbn in Hin. destruct Hin as [<- | []]. discriminate. }
  assert (Hh : truthy handle = true).
  { destruct handle; [|reflexivity]. cbn in Hsame. rewrite <- Hsame in Hkey. discriminate. }
  assert (Hbl : isBlacklisted (Some handle) (parseBlacklist (Some raw)) = true).
  { rewrite isBlacklisted_mem by assumption. apply mem_In.
    unfold parseBlacklist. rewrite Hraw. cbn [negb]. apply filter_In. split.
    - rewrite Hsame. apply in_map_iff. exists entry. split; [reflexivity | assumption].
    - now rewrite Hsame. }
  split; [exact Hbl|].
  intros keywords domains results m Hm.
  assert (Hallowed : In (matched_tweet m)
                        (filter (fun t => negb (isBlacklisted (authorHandle t)
                                                  (parseBlacklist (Some raw)))) results)).
  { unfold filter_results in Hm.
    destruct keywords as [|kw kws]; [destruct domains as [|d ds]|].
    - apply in_map_iff in Hm. destruct Hm as (t & <- & Ht). exact Ht.
    - apply in_flat_map in Hm. destruct Hm as (t & Ht & Hm).
      destruct (matchKeywords _ _), (matchDomains _ _ _); cbn in Hm;
        try (destruct Hm as [<- | []]; exact Ht); destruct Hm.
    - apply in_flat_map in Hm. destruct Hm as (t & Ht & Hm).
      destruct (matchKeywords _ _), (matchDomains _ _ _); cbn in Hm;
        try (destruct Hm as [<- | []]; exact Ht); destruct Hm. }
  apply filter_In in Hallowed. destruct Hallowed as [Hres Hnb]. split; [exact Hres|].
  intros E. rewrite E, Hbl in Hnb. discriminate.
Qed.


(** X14.  The keywords and the domains the environment gives are read in
    lower case, trimmed, without blank entries; the match is made on the text
    put to lower case, so it does not depend on the case of the text. *)
Theorem keyword_matching_ignores_case raw :
  (forall kw, In kw (parseKeywords raw) ->
     truthy kw = true /\ toLowerCase kw = kw
     /\ exists entry r, raw = Some r /\ In entry (split_comma r)
                        /\ kw = toLowerCase (trim entry))
  /\ (forall d, In d (parseDomains raw) ->
        truthy d = true /\ toLowerCase d = d
        /\ exists entry r, raw = Some r /\ In entry (split_comma r)
                           /\ d = toLowerCase (trim entry))
  /\ (forall text1 text2 url1 url2,
        toLowerCase text1 = toLowerCase text2 ->
        toLowerCase url1 = toLowerCase url2 ->
        matchKeywords text1 (parseKeywords raw) = matchKeywords text2 (parseKeywords raw)
        /\ matchDomains text1 (Some url1) (parseDomains raw)
           = matchDomains text2 (Some url2) (parseDomains raw)).
Proof.
  split; [|split].
  - intros kw. unfold parseKeywords. destruct raw as [r|]; [|intros []].
    destruct (negb (truthy r)); [intros []|]. intros Hin.
    apply in_map_iff in Hin. destruct Hin as (x & <- & Hx).
    apply filter_In in Hx. destruct Hx as [Hx Ht].
    apply in_map_iff in Hx. destruct Hx as (entry & <- & He).
    split; [now rewrite toLowerCase_truthy|]. split; [apply toLowerCase_idem|].
    exists entry, r. auto.
  - intros d. unfold parseDomains. destruct raw as [r|]; [|intros []].
    destruct (negb (truthy r)); [intros []|]. intros Hin.
    apply filter_In in Hin. destruct Hin as [Hx Ht].
    apply in_map_iff in Hx. destruct Hx as (entry & <- & He).
    split; [exact Ht|]. split; [apply toLowerCase_idem|].
    exists entry, r. auto.
  - intros text1 text2 url1 url2 Ht Hu. unfold matchKeywords, matchDomains.
    rewrite Ht, Hu. split; reflexivity.
Qed.

End Filters.

(* ================================================================== *)
(** ** enrichment.ts: the records come back as they went in *)
(* ================================================================== *)

Section EnrichmentFacts.
Variable MAIN_ACCOUNT : option string.
Variable getUserInfo : string -> Completion (Z * Z).
Variable checkFollows : string -> bool.

Lemma unique_In x l : forall seen,
  In x (unique seen l) <-> In x l /\ ~ In x seen.
Proof.
  induction l as [|y r IH]; intros seen; cbn [unique In]; [tauto|].
  destruct (mem y seen) eqn:E.
  - apply mem_In in E. rewrite IH. split.
    + intros [Hr Hs]. auto.
    + intros [[-> | Hr] Hs]; [contradiction | auto].
  - assert (Hy : ~ In y seen) by (rewrite <- mem_In; congruence).
    cbn [In]. rewrite IH. cbn [In]. split.
    + intros [-> | [Hr Hs]]; [auto | tauto].
    + intros [[-> | Hr] Hs]; [auto|].
      destruct (string_dec y x) as [-> | Hne]; [auto | right; tauto].
Qed.

Lemma unique_NoDup l : forall seen, NoDup (unique seen l).
Proof.
  induction l as [|y r IH]; intros seen; cbn [unique]; [constructor|].
  destruct (mem y seen); [apply IH|]. constructor; [|apply IH].
  rewrite unique_In. cbn [In]. tauto.
Qed.

Lemma obj_get_tabulate {A} (f : string -> A) h l :
  In h l -> obj_get h (map (fun k => (k, f k)) l) = Some (f h).
Proof.
  induction l as [|k r IH]; intros Hin; [destruct Hin|]. cbn [map obj_get].
  destruct (k =? h)%string eqn:E.
  - apply String.eqb_eq in E. now subst.
  - apply IH. destruct Hin as [-> | Hin]; [|assumption].
    rewrite String.eqb_refl in E. discriminate.
Qed.

Lemma authors_of_In h tweets :
  In h (authors_of tweets)
  <-> truthy h = true /\ exists t, In t tweets /\ authorHandle t = Some h.
Proof.
  unfold authors_of. rewrite unique_In, in_flat_map. split.
  - intros [(t & Ht & Hh) _]. destruct (authorHandle t) as [h'|] eqn:E; [|destruct Hh].
    destruct (truthy h') eqn:Et; [|destruct Hh]. destruct Hh as [<- | []]. eauto.
  - intros (Ht & t & Hin & E). split; [|intros []]. exists t. split; [assumption|].
    rewrite E, Ht. now left.
Qed.

(** X15.  [enrichTweets] returns the records it was given, in their order,
    each with the account information of its author: none for a record
    without an author handle, and for the others the entry computed once for
    the handle, so that records of one author carry the same information.
    No author is looked up twice.  In that information the account is in
    the network exactly when it was found to follow the main account, and
    the status is unknown exactly when the lookup failed, in which case no
    count is given. *)
Theorem enrich_keeps_records tweets :
  let enriched := enrich MAIN_ACCOUNT getUserInfo checkFollows tweets in
  map tweet_of enriched = tweets
  /\ NoDup (authors_of tweets)
  /\ (forall e, In e enriched ->
        accountInfo e
        = match authorHandle (tweet_of e) with
          | Some h =>
              if truthy h then Some (author_info MAIN_ACCOUNT getUserInfo checkFollows h)
              else None
          | None => None
          end)
  /\ (forall e info, In e enriched -> accountInfo e = Some info ->
        (followsUs info = Some true <-> networkStatus info = Some "In-Network")
        /\ (followersCount info = None <-> networkStatus info = Some "Unknown")
        /\ (followersCount info = None <-> followsUs info = None)).
Proof.
  intros enriched.
  assert (Hmap : map tweet_of enriched = tweets).
  { subst enriched. unfold enrich. rewrite map_map. cbn [tweet_of]. apply map_id. }
  assert (Hinfo : forall e, In e enriched ->
            accountInfo e
            = match authorHandle (tweet_of e) with
              | Some h =>
                  if truthy h then Some (author_info MAIN_ACCOUNT getUserInfo checkFollows h)
                  else None
              | None => None
              end).
  { intros e He. subst enriched. unfold enrich in He. apply in_map_iff in He.
    destruct He as (t & <- & Ht). cbn [tweet_of accountInfo].
    destruct (authorHandle t) as [h|] eqn:E; [|reflexivity].
    destruct (truthy h) eqn:Eh; [|reflexivity].
    apply obj_get_tabulate. apply authors_of_In. eauto. }
  split; [exact Hmap|]. split; [apply unique_NoDup|]. split; [exact Hinfo|].
  intros e info He Hacc. rewrite (Hinfo e He) in Hacc.
  destruct (authorHandle (tweet_of e)) as [h|]; [|discriminate].
  destruct (truthy h); [|discriminate]. injection Hacc as <-.
  unfold author_info. destruct (getUserInfo h) as [[followers following]|msg];
    cbn [followsUs networkStatus followersCount].
  - match goal with |- context [Some ?b = Some true] => destruct b end;
      repeat split; intros; congruence.
  - repeat split; intros; congruence.
Qed.

End EnrichmentFacts.

(* ================================================================== *)
(** ** vipTracker.ts: the list that is loaded and the report *)
(* ================================================================== *)

(** The handles a report lists as following, read off its results. *)
Definition following_in (results : list (VipItem * Completion bool)) : list string :=
  flat_map (fun va => match snd va with
                      | Returned true => [vip_handle (fst va)]
                      | _ => []
                      end) results.

Section VipFacts.

Lemma vips_of_items_handles items : forall l,
  vips_of_items items = Returned l -> Forall (fun v => truthy (vip_handle v) = true) l.
Proof.
  induction items as [|item rest IH]; intros l; cbn [vips_of_items].
  - intros [= <-]. constructor.
  - destruct (vip_of_item item) as [[[h n] c]|msg]; [|discriminate].
    destruct (vips_of_items rest) as [l0|msg]; [|discriminate].
    specialize (IH l0 eq_refl).
    destruct h as [handle|]; [|now intros [= <-]].
    destruct (truthy handle) eqn:E; intros [= <-]; [constructor|]; assumption.
Qed.

Lemma vips_of_items_null items :
  In JNull items -> exists msg, vips_of_items items = Threw msg.
Proof.
  induction items as [|item rest IH]; intros Hin; [destruct Hin|]. cbn [vips_of_items].
  destruct Hin as [-> | Hin]; [cbn; eauto|].
  destruct (vip_of_item item) as [[[h n] c]|msg]; [|eauto].
  destruct (IH Hin) as (msg & ->). eauto.
Qed.

(** X16.  The VIP list that is loaded holds only entries with a handle that is
    not empty.  A list of bare handles loads as those handles without their
    leading [@], the blank ones left out, in the order of the file.  One
    [null] among the items makes the whole list load as empty, as does a
    document that is not an array. *)
Theorem loadVips_keeps_named_entries :
  (forall file v, In v (loadVips file) -> truthy (vip_handle v) = true)
  /\ (forall names,
        loadVips (Some (Parses (JArr (map JStr names))))
        = map (fun n => {| vip_handle := strip_at n; vip_name := None;
                           vip_category := None |})
              (filter (fun n => truthy (strip_at n)) names))
  /\ (forall items, In JNull items -> loadVips (Some (Parses (JArr items))) = [])
  /\ (forall fields, loadVips (Some (Parses (JObj fields))) = []).
Proof.
  split; [|split; [|split]].
  - intros file v. unfold loadVips.
    destruct file as [[|[| | | |items|]]|]; try (intros []).
    destruct (vips_of_items items) as [l|msg] eqn:E; [|intros []].
    pose proof (vips_of_items_handles items E) as Hall. rewrite Forall_forall in Hall.
    apply Hall.
  - intros names. unfold loadVips.
    assert (E : vips_of_items (map JStr names)
                = Returned (map (fun n => {| vip_handle := strip_at n; vip_name := None;
                                             vip_category := None |})
                                (filter (fun n => truthy (strip_at n)) names))).
    { induction names as [|n r IH]; [reflexivity|]. cbn [map vips_of_items vip_of_item filter].
      rewrite IH. destruct (truthy (strip_at n)); reflexivity. }
    now rewrite E.
  - intros items Hin. unfold loadVips. now destruct (vips_of_items_null items Hin) as (msg & ->).
  - reflexivity.
Qed.

Variable W : Type.
Variable follows_now : string -> W -> Completion bool * W.
Variable pause : Z -> W -> W.

Lemma following_in_app l1 l2 : following_in (l1 ++ l2) = following_in l1 ++ following_in l2.
Proof. unfold following_in. now rewrite !flat_map_concat_map, map_app, concat_app. Qed.

Lemma filter_snoc {A} (f : A -> bool) l x :
  filter f (l ++ [x]) = filter f l ++ (if f x then [x] else []).
Proof. rewrite filter_app. reflexivity. Qed.

Lemma check_each_report prev vips : forall r w,
  let r' := fst (check_each follows_now pause prev vips r w) in
  map fst (vip_results r') = map fst (vip_results r) ++ vips
  /\ (currentFollowingHandles r = following_in (vip_results r) ->
      currentFollowingHandles r' = following_in (vip_results r'))
  /\ (newFollowers r = filter (fun h => negb (mem h prev)) (currentFollowingHandles r) ->
      newFollowers r' = filter (fun h => negb (mem h prev)) (currentFollowingHandles r')).
Proof.
  induction vips as [|vip rest IH]; intros r w; cbn [check_each].
  - cbn. rewrite app_nil_r. auto.
  - destruct (follows_now (vip_handle vip) w) as [[[|]|msg] w1].
    + match goal with |- context [check_each _ _ _ rest ?r1 ?w2] =>
        destruct (IH r1 w2) as (Hres & Hcur & Hnew) end.
      cbn [vip_results currentFollowingHandles newFollowers] in *.
      split; [|split].
      * rewrite Hres, map_app. cbn. now rewrite <- app_assoc.
      * intros E. apply Hcur. rewrite following_in_app, E. reflexivity.
      * intros E. apply Hnew. rewrite filter_snoc, E.
        destruct (mem (vip_handle vip) prev); cbn [negb]; [now rewrite app_nil_r | reflexivity].
    + match goal with |- context [check_each _ _ _ rest ?r1 ?w2] =>
        destruct (IH r1 w2) as (Hres & Hcur & Hnew) end.
      cbn [vip_results currentFollowingHandles newFollowers] in *.
      split; [|split].
      * rewrite Hres, map_app. cbn. now rewrite <- app_assoc.
      * intros E. apply Hcur. rewrite following_in_app, E. cbn. now rewrite app_nil_r.
      * exact Hnew.
    + match goal with |- context [check_each _ _ _ rest ?r1 ?w2] =>
        destruct (IH r1 w2) as (Hres & Hcur & Hnew) end.
      cbn [vip_results currentFollowingHandles newFollowers] in *.
      split; [|split].
      * rewrite Hres, map_app. cbn. now rewrite <- app_assoc.
      * intros E. apply Hcur. rewrite following_in_app, E. cbn. now rewrite app_nil_r.
      * exact Hnew.
Qed.

Lemma filter_listed prev l :
  (forall h, In h l -> In h prev) -> filter (fun h => negb (mem h prev)) l = [].
Proof.
  induction l as [|h r IH]; intros Hall; [reflexivity|]. cbn [filter].
  assert (Hm : mem h prev = true) by (apply mem_In, Hall; now left).
  rewrite Hm. cbn [negb]. apply IH. intros x Hx. apply Hall. now right.
Qed.

(** X17.  The report of a VIP check has one result for every VIP of the
    list, in the order of the list.  The handles it saves as following are
    those of the VIPs whose check answered that they follow, and the new
    followers it announces are those among them that the previous state did
    not list; so a check that finds no follower beyond the ones of the
    previous state announces none. *)
Theorem vip_report_is_consistent followingHandles vips w :
  let report := fst (checkVips follows_now pause followingHandles vips w) in
  map fst (vip_results report) = vips
  /\ currentFollowingHandles report = following_in (vip_results report)
  /\ newFollowers report
     = filter (fun h => negb (mem h followingHandles)) (currentFollowingHandles report)
  /\ ((forall h, In h (currentFollowingHandles report) -> In h followingHandles) ->
      newFollowers report = []).
Proof.
  intros report. subst report. unfold checkVips.
  destruct (@check_each_report followingHandles vips
              {| currentFollowingHandles := []; newFollowers := []; vip_results := [] |} w)
    as (Hres & Hcur & Hnew).
  cbn [vip_results currentFollowingHandles newFollowers map app] in *.
  specialize (Hcur eq_refl). specialize (Hnew eq_refl).
  split; [exact Hres|]. split; [exact Hcur|]. split; [exact Hnew|].
  intros Hall. rewrite Hnew. now apply filter_listed.
Qed.

End VipFacts.

(* ================================================================== *)
(** ** discord.ts: the description of the embed *)
(* ================================================================== *)

Section DiscordFacts.

Lemma length_append s t : String.length (s ^^ t) = (String.length s + String.length t)%nat.
Proof. induction s as [|c r IH]; cbn; [reflexivity | now rewrite IH]. Qed.

Lemma length_slice0 n : forall s, String.length (slice0 n s) = Nat.min n (String.length s).
Proof.
  unfold slice0. induction n as [|n IH]; intros s.
  - destruct s; reflexivity.
  - destruct s as [|c r]; [reflexivity|]. cbn [substring String.length]. now rewrite IH.
Qed.

Lemma slice0_all n : forall s, (String.length s <= n)%nat -> slice0 n s = s.
Proof.
  unfold slice0. induction n as [|n IH]; intros s Hl.
  - destruct s; [reflexivity | cbn in Hl; lia].
  - destruct s as [|c r]; [reflexivity|]. cbn [substring]. rewrite IH; [reflexivity|].
    cbn in Hl. lia.
Qed.

Lemma slice0_prefix n : forall s, String.prefix (slice0 n s) s = true.
Proof.
  unfold slice0. induction n as [|n IH]; intros s.
  - destruct s; reflexivity.
  - destruct s as [|c r]; [reflexivity|]. cbn [substring String.prefix].
    destruct (ascii_dec c c); [apply IH | congruence].
Qed.

(** X18.  The description of an embed never has more than 300 code units: a
    text of at most 300 is taken as it is, a longer one is cut to its first
    297 code units followed by three dots. *)
Theorem embed_description_fits text :
  (String.length (embed_description text) <= 300)%nat
  /\ ((String.length text <= 300)%nat -> embed_description text = text)
  /\ ((300 < String.length text)%nat ->
      String.length (embed_description text) = 300%nat
      /\ exists head,
           embed_description text = head ^^ "..."
           /\ String.length head = 297%nat
           /\ String.prefix head text = true).
Proof.
  unfold embed_description. destruct (300 <? String.length text)%nat eqn:E.
  - apply Nat.ltb_lt in E.
    assert (Hl : String.length (slice0 297 text ^^ "...") = 300%nat).
    { rewrite length_append, length_slice0. cbn [String.length]. lia. }
    split; [lia|]. split; [lia|]. intros _. split; [exact Hl|].
    exists (slice0 297 text). split; [reflexivity|].
    split; [rewrite length_slice0; lia | apply slice0_prefix].
  - apply Nat.ltb_ge in E. split; [lia|]. split; [reflexivity | lia].
Qed.

End DiscordFacts.

(* ================================================================== *)
(** ** Runs of the model on the scripted platform *)
(* ================================================================== *)

Module Runs.
Import Scripted.

(** A two-page source whose pages share one record, and a page whose
    continuation leads back to itself. *)
Definition site : Site :=
  [ (doc "page1",
     ([item "/u/status/1#m" "first" "10" None; item "/u/status/2#m" "second" "1,234" None],
      Some "/search?cursor=2"));
    (doc "page2",
     ([item "/u/status/2#m" "second" "1,234" None; item "/u/status/3#m" "third" "" None],
      Some "/search?cursor=3"));
    (doc "loop",
     ([item "/u/status/7#m" "again" "3" None], Some "/search?cursor=loop"));
    (doc "last",
     ([item "/u/status/1#m" "first" "10" None; item "/u/status/2#m" "second" "12" None],
      None)) ].

Definition P : Platform := platform site.
#[local] Existing Instance P.

Definition three_mirrors : FetchOptions :=
  opts ["https://a/"; " https://b "; "https://c"] 1.

Definition one_mirror : FetchOptions := opts ["https://a"] 1.

Definition net (l : list HttpOutcome) : @Sys P :=
  boot site {| gets := l; posts := []; time := 1700000000000 |} None.

Definition record (i : string) (created : option string) (l : option Z) : TweetResult :=
  {| id := i; url := "https://a/u/status/" ^^ i; text := "text"; createdAt := created;
     authorHandle := None; authorName := None;
     replies := None; retweets := None; quotes := None; likes := l |}.

Definition stored (l : Z) : TweetStats :=
  {| st_likes := l; st_retweets := 0; st_replies := 0; lastChecked := 0 |}.

Definition webhook_only : Env :=
  {| DISCORD_WEBHOOK_URL := Some "https://discord.example/hook";
     TIMEOUT_MS := None; RETRIES_PER_INSTANCE := None;
     NITTER_INSTANCES := Some "https://a";
     MAIN_ACCOUNT_HANDLE := None; DEFAULT_QUERY := None;
     TRACTION_THRESHOLD_LIKES := None; TWITTER_API_IO_KEY := None;
     POLL_INTERVAL_SECONDS := None; VIP_CHECK_INTERVAL_SECONDS := None |}.

(** The first webhook post is answered with a 500, the following ones are
    accepted; no state file exists. *)
Definition first_post_fails : @Sys P :=
  boot site
    {| gets := [ok (doc "last"); ok (doc "last"); ok (doc "last")];
       posts := [status 500 "Internal Server Error"; ok ""; ok ""];
       time := 1700000000000 |}
    None.

(** The intervals [run] works with under that environment (120 s and
    3600 s), and the time at which it is started. *)
Definition poll : Z := poll_interval_of webhook_only.
Definition vip : Z := vip_interval_of webhook_only.
Definition t0 : Z := 1700000000000.

(** The claim of the specification about one record with a stored entry, as
    it is stated: growth exactly under the growth conditions. *)
Definition growth_exactly_under_conditions `{Platform} (now floor : Z)
    (seenMap : SeenTweets) (tweet : TweetResult) (prevStats : TweetStats) : Prop :=
  verdict now floor seenMap tweet
    = Alerted (TractionSpike (st_likes prevStats) (or_zero (likes tweet)))
  <-> growth_conditions floor prevStats tweet.


(** The first mirror fails on both attempts and the second serves the first
    request made to it. *)
Lemma second_mirror_serves :
  cleanInstances (instances three_mirrors) <> []
  /\ @url_accepted P "/search"
  /\ 0 <= retriesPerInstance three_mirrors
  /\ exists f s2,
       fetchHtmlWithFallback "/search" three_mirrors
         (net [Rejected "ECONNRESET"; status 503 "Service Unavailable"; ok (doc "page1")])
       = (Returned f, s2)
       /\ instanceUsed f = "https://b"
       /\ exists new,
            events s2 = [] ++ new
            /\ requests new
               = failed_attempts "https://a" "https://a/search" 0 2
                 ++ [EvGet "https://b" "https://b/search" 0 true].
Proof.
  assert (Hne : cleanInstances (instances three_mirrors) <> []) by (vm_compute; discriminate).
  assert (Hacc : @url_accepted P "/search") by (intros Habs; vm_compute in Habs; discriminate).
  assert (Hr : 0 <= retriesPerInstance three_mirrors) by (vm_compute; discriminate).
  split; [exact Hne|]. split; [exact Hacc|]. split; [exact Hr|].
  destruct (@fetch_tries_mirrors_in_order P "/search" three_mirrors
              (net [Rejected "ECONNRESET"; status 503 "Service Unavailable"; ok (doc "page1")]))
    as (_ & _ & Hpart).
  edestruct (Hpart "https://a" "https://b" ["https://c"]) as (Hf & Hm & Hn);
    [ vm_compute; reflexivity | exact Hacc | exact Hr
    | vm_compute; reflexivity | vm_compute; reflexivity | ].
  eexists. eexists. split; [exact Hf|]. split; [exact Hm|]. exact Hn.
Defined.

(** An absolute URL is requested as it is on both mirrors. *)
Lemma absolute_url_on_two_mirrors :
  is_absolute "https://nitter.net/search?q=x" = true
  /\ exists new,
       events (snd (fetchHtmlWithFallback "https://nitter.net/search?q=x"
                      (opts ["https://a"; "https://b"] 1) (net [])))
       = [] ++ new
       /\ Forall (fun e => requested_url e = Some "https://nitter.net/search?q=x")
                 (requests new)
       /\ (length (requests new) <= 2 * 2)%nat.
Proof.
  split; [reflexivity|].
  destruct (@absolute_url_is_never_rebased P "https://nitter.net/search?q=x"
              (opts ["https://a"; "https://b"] 1) (net []) eq_refl)
    as (_ & new & Hev & Hall & Hlen & _).
  exists new. split; [exact Hev|]. split; [exact Hall | exact Hlen].
Defined.

(** With the first page fetched and the second one failing on every attempt,
    the search returns the two records of the first page with the error. *)
Lemma search_fails_on_second_page :
  exists r s',
    searchNitterGlobal "foo" 30 one_mirror (net [ok (doc "page1")]) = (Returned r, s')
    /\ map id (results r) = ["1#m"; "2#m"]
    /\ error r = Some (failure_text 2 "All Nitter instances failed. Last error: fetch failed").
Proof.
  destruct (@search_returns_partial_results P "foo" 30 one_mirror (net [ok (doc "page1")]))
    as (_ & Hpart).
  set (s0 := net [ok (doc "page1")]) in *.
  set (st1 := fst (fst (loop_body 30 one_mirror (search_start "foo") s0))).
  set (s1 := snd (loop_body 30 one_mirror (search_start "foo") s0)).
  assert (Hit : iterates 30 one_mirror (search_start "foo") s0 st1 s1).
  { subst st1 s1. apply iterates_one; vm_compute; reflexivity. }
  assert (Hg : loop_guard 30 st1 = true) by (vm_compute; reflexivity).
  assert (Hf : fetchHtmlWithFallback (path_of st1) one_mirror s1
               = (Threw "All Nitter instances failed. Last error: fetch failed",
                  snd (fetchHtmlWithFallback (path_of st1) one_mirror s1))).
  { apply threw_from_fst. vm_compute. reflexivity. }
  destruct (Hpart _ _ _ _ Hit Hg Hf) as (r & s3 & Hs & Hres & Herr).
  exists r, s3. split; [exact Hs|]. rewrite Hres, Herr. split; reflexivity.
Defined.

(** The identifier the two pages share is in the response exactly once. *)
Lemma shared_identifier_occurs_once :
  exists r s',
    searchNitterGlobal "foo" 3 one_mirror
      (net [ok (doc "page1"); ok (doc "page2"); ok (doc "page2")]) = (Returned r, s')
    /\ count_occ string_dec (map id (results r)) "2#m" = 1%nat.
Proof.
  set (s0 := net [ok (doc "page1"); ok (doc "page2"); ok (doc "page2")]).
  destruct (@search_results_have_distinct_ids P "foo" 3 one_mirror s0)
    as ((r & s' & Hs & _) & _ & Hshared).
  exists r, s'. split; [exact Hs|].
  set (f := {| html := doc "page1"; instanceUsed := "https://a"; finalUrl := "" |}).
  set (t := {| id := "2#m"; url := "https://a/u/status/2#m"; text := "second";
               createdAt := None; authorHandle := Some "@someone";
               authorName := Some "Someone"; replies := None; retweets := None;
               quotes := None; likes := Some 1234 |}).
  assert (Hf : fetchHtmlWithFallback (path_of (search_start "foo")) one_mirror s0
               = (Returned f,
                  snd (fetchHtmlWithFallback (path_of (search_start "foo")) one_mirror s0))).
  { apply returned_from_fst. vm_compute. reflexivity. }
  assert (Hin : In t (extractTweetsFromHtml (html f) (instanceUsed f))).
  { vm_compute. right. left. reflexivity. }
  assert (Hlim : Z.of_nat (length (push_page 3 (acc (search_start "foo"))
                                     (extractTweetsFromHtml (html f) (instanceUsed f)))) < 3).
  { vm_compute. reflexivity. }
  exact (Hshared _ _ _ _ t r s' (iterates_refl 3 one_mirror (search_start "foo") s0)
                 eq_refl Hf Hin Hlim Hs).
Defined.

(** Query "foo", limit 3, two pages of two records sharing one identifier:
    three records, each identifier once, and no third page is fetched. *)
Example two_pages_one_duplicate :
  match searchNitterGlobal "foo" 3 one_mirror
          (net [ok (doc "page1"); ok (doc "page2"); ok (doc "page2")]) with
  | (Returned r, s') =>
      map id (results r) = ["1#m"; "2#m"; "3#m"]
      /\ map likes (results r) = [Some 10; Some 1234; None]
      /\ error r = None
      /\ length (requests (events s')) = 2%nat
  | (Threw _, _) => False
  end.
Proof. vm_compute. repeat split. Qed.

(** A source whose continuation always leads back to the same page: ten pages
    are fetched, and the response holds the one record without an error. *)
Example cyclic_source_stops_at_ten_pages :
  match searchNitterGlobal "foo" 50 one_mirror (net (repeat (ok (doc "loop")) 25)) with
  | (Returned r, s') =>
      map id (results r) = ["7#m"]
      /\ error r = None
      /\ length (requests (events s')) = 10%nat
  | (Threw _, _) => False
  end.
Proof. vm_compute. repeat split. Qed.

(** C1 as stated fails on a record the age check skips: 10 likes stored, 16
    now, posted more than three days ago. *)
Lemma stale_record_is_not_classified :
  let tweet := record "1#m" (Some "1000") (Some 16) in
  let seenMap := [("1#m", stored 10)] in
  let now := 1000 + THREE_DAYS_MS + 1 in
  obj_get (id tweet) seenMap = Some (stored 10)
  /\ ~ @growth_exactly_under_conditions P now 5 seenMap tweet (stored 10).
Proof.
  cbv zeta. split; [reflexivity|].
  unfold growth_exactly_under_conditions. intros [_ Hback].
  assert (Hc : growth_conditions 5 (stored 10) (record "1#m" (Some "1000") (Some 16))).
  { exists 16. repeat split; try (vm_compute; congruence). }
  specialize (Hback Hc). vm_compute in Hback. discriminate.
Qed.

(** The amended C1 on a record without a timestamp, 10 likes stored, 16 now. *)
Lemma growth_classification_witness :
  let tweet := record "1#m" None (Some 16) in
  let seenMap := [("1#m", stored 10)] in
  obj_get (id tweet) seenMap = Some (stored 10)
  /\ @is_stale P 1700000000000 tweet = false
  /\ @verdict P 1700000000000 5 seenMap tweet = Alerted (TractionSpike 10 16).
Proof.
  cbv zeta. split; [reflexivity|]. split; [reflexivity|].
  destruct (@growth_classification P webhook_only 1700000000000
              [("1#m", stored 10)] (record "1#m" None (Some 16)) (stored 10)
              eq_refl eq_refl) as (_ & _ & _ & Hex).
  destruct (Hex eq_refl eq_refl) as [_ H16]. exact (H16 eq_refl).
Defined.



(** C9 as stated fails: the timer fires while the cycle it started before is
    still in flight, and while a relationship check is. *)
Lemma timer_fires_during_a_run :
  (exists sch,
     exec poll vip (started t0)
       [PollSettles 0; VipCheckSettles 0 true; TimePasses 120000; TimerFires;
        TimePasses 120000; TimerFires] = Some sch
     /\ running sch = [Polling; Polling])
  /\ (exists sch,
        exec poll vip (started t0)
          [PollSettles 0; VipCheckSettles 0 false; TimePasses 120000; TimerFires;
           PollSettles 1; TimePasses 120000; TimerFires] = Some sch
        /\ running sch = [CheckingVips; Polling])
  /\ ~ (forall hs sch,
          exec poll vip (started t0) hs = Some sch -> no_overlap sch).
Proof.
  split; [|split].
  - eexists. split; reflexivity.
  - eexists. split; reflexivity.
  - intros Hall.
    specialize (Hall [PollSettles 0; VipCheckSettles 0 true; TimePasses 120000; TimerFires;
                      TimePasses 120000; TimerFires] _ eq_refl).
    unfold no_overlap in Hall. vm_compute in Hall. lia.
Qed.

(** The amended C9 on a run whose cycles end before the timer fires again. *)
Lemma runs_do_not_overlap_witness :
  let hs := [PollSettles 0; VipCheckSettles 0 true; TimePasses 120000; TimerFires;
             PollSettles 1; TimePasses 120000; TimerFires] in
  let sch := {| clock := 1700000240000; lastVipCheck := 1700000000000;
                timer := Some 1700000360000;
                activations := [Settled; Settled; Polling] |} in
  exec poll vip (started t0) hs = Some sch
  /\ fires_when_idle poll vip (started t0) hs
  /\ startup_done_before_timer sch
  /\ no_overlap sch.
Proof.
  cbv zeta.
  assert (Hidle : fires_when_idle poll vip (started t0)
                    [PollSettles 0; VipCheckSettles 0 true; TimePasses 120000; TimerFires;
                     PollSettles 1; TimePasses 120000; TimerFires]).
  { cbn. repeat split. }
  assert (Hexec : exec poll vip (started t0)
                    [PollSettles 0; VipCheckSettles 0 true; TimePasses 120000; TimerFires;
                     PollSettles 1; TimePasses 120000; TimerFires]
                  = Some {| clock := 1700000240000; lastVipCheck := 1700000000000;
                            timer := Some 1700000360000;
                            activations := [Settled; Settled; Polling] |})
    by reflexivity.
  split; [exact Hexec|]. split; [exact Hidle|].
  destruct (@runs_do_not_overlap_while_timer_finds_idle poll vip t0 _ _ Hexec)
    as [Hs Hn].
  split; [exact Hs | exact (Hn Hidle)].
Defined.

End Runs.

(* ================================================================== *)
(** ** More runs on the scripted platform *)
(* ================================================================== *)

Module MoreRuns.
Import Scripted Runs.
#[local] Existing Instance P.

(** A list of mirrors that holds blank entries only. *)
Definition no_mirror : FetchOptions := opts [" "; ""] 1.

Definition hook : string := "https://discord.example/hook".

Definition main_monitor : MonitorConfig :=
  {| key := "default"; mc_query := "foo"; label := "Main Keywords" |}.

Definition links_monitor : MonitorConfig :=
  {| key := "links"; mc_query := "url:canadaspends -from:canada_spends";
     label := "Site Links" |}.

Definition two_records : list TweetResult :=
  [record "1#m" None (Some 10); record "2#m" None (Some 12)].

(** What the search for "foo" returns when the first page is served and the
    second is not. *)
Definition partial_response : SearchResponse :=
  {| query := "foo";
     sr_instanceUsed := "https://a";
     fetchedAt := "1700000000250";
     results :=
       [ {| id := "1#m"; url := "https://a/u/status/1#m"; text := "first";
            createdAt := None; authorHandle := Some "@someone";
            authorName := Some "Someone"; replies := None; retweets := None;
            quotes := None; likes := Some 10 |};
         {| id := "2#m"; url := "https://a/u/status/2#m"; text := "second";
            createdAt := None; authorHandle := Some "@someone";
            authorName := Some "Someone"; replies := None; retweets := None;
            quotes := None; likes := Some 1234 |} ];
     error := Some (failure_text 2 "All Nitter instances failed. Last error: fetch failed") |}.

Lemma scripted_enrichment_keeps_records : @enrichment_keeps_records P.
Proof.
  intros tweets w enriched w' E. cbn in E. inversion E; subst.
  rewrite map_map. cbn. apply map_id.
Defined.

(** X3 with a limit of zero. *)
Lemma search_with_limit_zero :
  0 <= 0
  /\ exists r s',
       searchNitterGlobal "foo" 0 one_mirror (net [ok (doc "page1")]) = (Returned r, s')
       /\ results r = [] /\ error r = None
       /\ events s' = events (net [ok (doc "page1")]).
Proof.
  split; [lia|].
  apply (@search_without_room_requests_nothing P "foo" 0 one_mirror (net [ok (doc "page1")])).
  lia.
Defined.

(** X4 on a list of blank entries. *)
Lemma search_on_blank_mirror_list :
  cleanInstances (instances no_mirror) = []
  /\ 0 < 5
  /\ exists r s',
       searchNitterGlobal "foo" 5 no_mirror (net []) = (Returned r, s')
       /\ results r = []
       /\ error r = Some (failure_text 0 no_instances_msg)
       /\ events s' = events (net []).
Proof.
  split; [reflexivity|]. split; [lia|].
  apply (@search_without_mirror_reports_it P "foo" 5 no_mirror (net []));
    [reflexivity | lia].
Defined.

(** X7: two new records are posted by one monitor; two seconds later another
    monitor meets them again and posts nothing. *)
Lemma records_met_again_are_not_posted :
  let pass1 := process_tweets webhook_only hook main_monitor 1700000000000 5
                 two_records [] first_post_fails in
  pass1 = ((Returned tt, snd (fst pass1)), snd pass1)
  /\ posts_in (events (snd pass1))
     = [EvPost "1#m" NewTweetFound false; EvPost "2#m" NewTweetFound true]
  /\ NoDup (map id two_records)
  /\ 1700000000000 <= 1700000002000
  /\ exists seenMap2,
       process_tweets webhook_only hook links_monitor 1700000002000 5
         two_records (snd (fst pass1)) (snd pass1)
       = ((Returned tt, seenMap2), snd pass1).
Proof.
  cbv zeta.
  set (pass1 := process_tweets webhook_only hook main_monitor 1700000000000 5
                  two_records [] first_post_fails).
  assert (H1 : pass1 = ((Returned tt, snd (fst pass1)), snd pass1))
    by (vm_compute; reflexivity).
  assert (Hnd : NoDup (map id two_records)).
  { repeat constructor; cbn; intuition discriminate. }
  assert (Hle : 1700000000000 <= 1700000002000) by lia.
  split; [exact H1|]. split; [vm_compute; reflexivity|]. split; [exact Hnd|].
  split; [exact Hle|].
  exact (@second_pass_alerts_on_nothing P webhook_only hook main_monitor 1700000000000 5
           two_records [] first_post_fails (snd (fst pass1)) (snd pass1) 1700000002000
           H1 Hnd Hle webhook_only hook links_monitor 5 (snd pass1)).
Defined.

(** X8: the first page is served, the second is not; the two records of the
    first page are in the response, and the monitor posts nothing. *)
Lemma failed_second_page_alerts_on_nothing :
  let s := net [ok (doc "page1")] in
  let search := searchNitterGlobal "foo" 50 one_mirror (snd (now s)) in
  search = (Returned partial_response, snd search)
  /\ is_set (error partial_response) = true
  /\ processMonitor webhook_only main_monitor [] hook one_mirror s
     = ((Returned tt, []), snd search)
  /\ posts_in (events (snd search)) = posts_in (events s)
  /\ disk (snd search) = disk s.
Proof.
  cbv zeta.
  assert (Hs : searchNitterGlobal "foo" 50 one_mirror (snd (now (net [ok (doc "page1")])))
               = (Returned partial_response,
                  snd (searchNitterGlobal "foo" 50 one_mirror
                         (snd (now (net [ok (doc "page1")]))))))
    by (apply returned_from_fst; vm_compute; reflexivity).
  assert (He : is_set (error partial_response) = true) by reflexivity.
  split; [exact Hs|]. split; [exact He|].
  exact (@failed_search_alerts_on_nothing P webhook_only main_monitor [] hook one_mirror
           (net [ok (doc "page1")]) partial_response _ Hs He).
Defined.

(** X9: two records, two posts. *)
Lemma two_records_two_posts :
  @enrichment_keeps_records P
  /\ exists seenMap' s' posts,
       process_tweets webhook_only hook main_monitor 1700000000000 5
         two_records [] first_post_fails
       = ((Returned tt, seenMap'), s')
       /\ posts_in (events s') = posts_in (events first_post_fails) ++ posts
       /\ (length posts <= length two_records)%nat
       /\ forall e, In e posts ->
            exists t reason d,
              In t two_records /\ @is_stale P 1700000000000 t = false
              /\ e = EvPost (id t) reason d.
Proof.
  split; [exact scripted_enrichment_keeps_records|].
  exact (@posts_are_about_fresh_records P webhook_only hook main_monitor 1700000000000 5
           two_records [] first_post_fails scripted_enrichment_keeps_records).
Defined.

(** X10 on a polling interval of 120, bare and with a unit after it. *)
Lemma interval_is_read_back :
  Z.abs 120 < 2 ^ 53
  /\ parseIntSafe (Some "120") 10 = 120
  /\ parseIntSafe (Some "120s") 10 = 120.
Proof.
  assert (Hz : Z.abs 120 < 2 ^ 53) by reflexivity.
  destruct (@parseIntSafe_reads_decimal 120 10 Hz) as (Hplain & Hunit & _).
  split; [exact Hz|]. split; [exact Hplain|]. exact (Hunit "s" eq_refl).
Defined.

(** X12: the list names [@SpamBot]; the handle [SPAMBOT] is blacklisted. *)
Lemma spambot_is_never_reported :
  In "@SpamBot" (split_comma "@SpamBot, Other")
  /\ truthy (strip_at (toLowerCase (trim "@SpamBot"))) = true
  /\ strip_at (toLowerCase "SPAMBOT") = strip_at (toLowerCase (trim "@SpamBot"))
  /\ isBlacklisted (Some "SPAMBOT") (parseBlacklist (Some "@SpamBot, Other")) = true
  /\ forall keywords domains results m,
       In m (filter_results keywords domains (parseBlacklist (Some "@SpamBot, Other"))
               results) ->
       In (matched_tweet m) results
       /\ authorHandle (matched_tweet m) <> Some "SPAMBOT".
Proof.
  assert (Hin : In "@SpamBot" (split_comma "@SpamBot, Other")) by (vm_compute; auto).
  assert (Hk : truthy (strip_at (toLowerCase (trim "@SpamBot"))) = true) by reflexivity.
  assert (Hs : strip_at (toLowerCase "SPAMBOT") = strip_at (toLowerCase (trim "@SpamBot")))
    by reflexivity.
  split; [exact Hin|]. split; [exact Hk|]. split; [exact Hs|].
  exact (@listed_account_is_never_reported "@SpamBot, Other" "@SpamBot" "SPAMBOT" Hin Hk Hs).
Defined.

End MoreRuns.
